(** * Collatz convergent classes: orbits, the path engine and the frequency tree

    A shallow embedding of [path.hpp]/[path.cpp] (the orbit containers and the
    templated [t_path<P>] engine) and of [btree.cpp] (the frequency tree),
    followed by the properties established about them.

    Conventions of the embedding:
    - machine integers are values of [Z], with the wrap-around of every
      operation written out ([wrap64], [wrapu64], [wrap32]); signed overflow
      is taken to wrap, which is what the sign test of [setpath] and the
      rollover test of [parse] rely on;
    - [/] and [%] of C++ truncate towards zero: [Z.quot] and [Z.rem];
    - a loop that the source does not bound runs on fuel and returns
      [None] when the fuel is exhausted;
    - the two instantiations of the template, [t_path<int64_t>] and
      [t_path<mpz_class>], are the two values of [domain]. *)

From Stdlib Require Import String Ascii DecimalString.
From Stdlib Require Import ZArith List Lia Bool Sorted.
Import ListNotations.
Local Open Scope Z_scope.

(* ================================================================== *)
(** * Part I: definitions                                              *)
(* ================================================================== *)

(** ** Machine integers *)

(** [int64_t] / [long]: two's complement on 64 bits. *)
Definition wrap64 (x : Z) : Z := (x + 2 ^ 63) mod 2 ^ 64 - 2 ^ 63.

(** [uint64_t] / [ulong]. *)
Definition wrapu64 (x : Z) : Z := x mod 2 ^ 64.

(** [int]. *)
Definition wrap32 (x : Z) : Z := (x + 2 ^ 31) mod 2 ^ 32 - 2 ^ 31.

(** [uint8_t]: the conversion of an integer to an orbit cell. *)
Definition wrapu8 (x : Z) : Z := x mod 256.

(** The integer type [P] of [t_path<P>]. *)
Inductive domain : Type :=
| Int64   (* typedef t_path<int64_t> path *)
| Mpz.    (* typedef t_path<mpz_class> mp_path *)

Definition wrap (d : domain) (x : Z) : Z :=
  match d with
  | Int64 => wrap64 x
  | Mpz => x
  end.

(** The values a variable of type [P] can hold. *)
Definition in_range (d : domain) (x : Z) : Prop :=
  match d with
  | Int64 => - 2 ^ 63 <= x < 2 ^ 63
  | Mpz => True
  end.

Definition Padd (d : domain) (a b : Z) : Z := wrap d (a + b).
Definition Psub (d : domain) (a b : Z) : Z := wrap d (a - b).
Definition Pmul (d : domain) (a b : Z) : Z := wrap d (a * b).
Definition Pdiv (d : domain) (a b : Z) : Z := wrap d (Z.quot a b).
Definition Prem (d : domain) (a b : Z) : Z := wrap d (Z.rem a b).
Definition Pabs (d : domain) (a : Z) : Z := wrap d (Z.abs a).

(** [sgn] of common.hpp: [(T(0) < integer) - (T(0) > integer)]. *)
Definition sgn (integer : Z) : Z :=
  (if 0 <? integer then 1 else 0) - (if 0 >? integer then 1 else 0).

(** ** The process-wide constants of [class statics] (common.hpp, menu.cpp) *)

Record statics : Type := mk_statics {
  divisor : Z;
  multiplier : Z;
  addend : Z;
  overflow : Z;
  memory : Z;
  speed : bool
}.

(** The initial values given in menu.cpp. *)
Definition collatz : statics :=
  {| divisor := 2; multiplier := 3; addend := 1;
     overflow := 1; memory := 2; speed := false |}.

(** ** orbit_key_t and orbit_node_t *)

(** A node of the singly linked list. [i_key] is the 64-bit view of the
    union; [next] is either [nullptr] ([Last]) or a further node ([Link]). *)
Inductive orbit_node_t : Type :=
| Last (i_key : Z)
| Link (i_key : Z) (next : orbit_node_t).

Definition key (n : orbit_node_t) : Z :=
  match n with
  | Last k => k
  | Link k _ => k
  end.

Definition next (n : orbit_node_t) : option orbit_node_t :=
  match n with
  | Last _ => None
  | Link _ nx => Some nx
  end.

(** [key.c_key[j]]: byte [j] of the 64-bit key on a little-endian host, the
    layout for which the highest array index is the most significant byte. *)
Definition c_key (k j : Z) : Z := Z.land (Z.shiftr k (8 * j)) 255.

(** [key.c_key[j] = v]: the assignment converts [v] to [uint8_t]. *)
Definition set_c_key (k j v : Z) : Z :=
  Z.lor (Z.ldiff k (Z.shiftl 255 (8 * j))) (Z.shiftl (wrapu8 v) (8 * j)).

(** [orbit_node_t::operator==] *)
Fixpoint node_eq (l ro : orbit_node_t) : bool :=
  if key l =? key ro then
    match l, ro with
    | Link _ lop, Link _ rop => node_eq lop rop
    | _, _ => true
    end
  else false.

(** [orbit_node_t::operator<] *)
Fixpoint node_lt (l ro : orbit_node_t) : bool :=
  if key l =? key ro then
    match l, ro with
    | Link _ lop, Link _ rop => node_lt lop rop
    | _, _ => false
    end
  else key l <? key ro.

(** [orbit_node_t::operator>] *)
Fixpoint node_gt (l ro : orbit_node_t) : bool :=
  if key l =? key ro then
    match l, ro with
    | Link _ lop, Link _ rop => node_gt lop rop
    | _, _ => false
    end
  else key l >? key ro.

(** ** orbit_t *)

(** The member [curr] always points at the last node of the list that starts
    at [root] ([init], [append], [operator=] and [copy_list] keep it there),
    so it is not stored: writing through [curr] is writing to the last node. *)
Record orbit_t : Type := mk_orbit {
  root : orbit_node_t;
  path_length : Z;
  orb_error_mask : Z
}.

(** [orbit_t::init] *)
Definition orbit_init : orbit_t :=
  {| root := Last 0; path_length := 0; orb_error_mask := 0 |}.

(** [curr->key.c_key[j] = v] *)
Fixpoint write_curr (n : orbit_node_t) (j v : Z) : orbit_node_t :=
  match n with
  | Last k => Last (set_c_key k j v)
  | Link k nx => Link k (write_curr nx j v)
  end.

(** [curr->next = new_node(); curr = curr->next], the new node being
    initialised to key 0 and [nullptr] by its constructor. *)
Fixpoint link_node (n : orbit_node_t) : orbit_node_t :=
  match n with
  | Last k => Link k (Last 0)
  | Link k nx => Link k (link_node nx)
  end.

(** [orbit_t::append]. [new_ok] tells whether [new_node()] returned a node. *)
Definition append (cfg : statics) (new_ok : bool) (divisors : Z) (o : orbit_t)
  : orbit_t :=
  let pos := Z.rem (path_length o) 8 in
  let store (r : orbit_node_t) :=
    {| root := write_curr r (8 - pos - 1) divisors;
       path_length := wrap32 (path_length o + 1);
       orb_error_mask := orb_error_mask o |} in
  if (pos =? 0) && (pos <? path_length o) then
    if new_ok then store (link_node (root o))
    else {| root := root o;
            path_length := path_length o;
            orb_error_mask := Z.lor (orb_error_mask o) (memory cfg) |}
  else store (root o).

(** The loop of [orbit_t::path], before the symbols are printed: the numbers
    read from the cells, in order. A read through a null [curr] ends the
    list; it does not happen for an orbit built by [append]. *)
Fixpoint path_cells (count : nat) (i : Z) (curr : option orbit_node_t)
  (rt : orbit_node_t) : list Z :=
  match count with
  | O => []
  | S c =>
      let pos := Z.rem i 8 in
      let curr' :=
        if pos =? 0 then
          match curr with
          | Some n => next n
          | None => Some rt
          end
        else curr in
      match curr' with
      | Some n => c_key (key n) (8 - pos - 1) :: path_cells c (i + 1) curr' rt
      | None => []
      end
  end.

Definition cells (o : orbit_t) : list Z :=
  path_cells (Z.to_nat (path_length o)) 0 None (root o).

(** [std::to_string] on an integer. *)
Definition to_string (z : Z) : string := NilZero.string_of_int (Z.to_int z).

(** [std::string::pop_back]. On an empty string, which [path] reaches only for
    an orbit without cells, the call is undefined in C++; here it returns the
    empty string. *)
Fixpoint pop_back (s : string) : string :=
  match s with
  | EmptyString => EmptyString
  | String c EmptyString => EmptyString
  | String c s' => String c (pop_back s')
  end.

(** [orbit_t::path] *)
Definition path (o : orbit_t) : string :=
  pop_back
    (fold_left (fun acc v => (acc ++ to_string v ++ " ")%string) (cells o)
       EmptyString).

(** [orbit_t::operator==], [operator<], [operator>] *)
Definition orbit_eq (l ro : orbit_t) : bool := node_eq (root l) (root ro).
Definition orbit_lt (l ro : orbit_t) : bool := node_lt (root l) (root ro).
Definition orbit_gt (l ro : orbit_t) : bool := node_gt (root l) (root ro).

(** [orbit_t::clear] *)
Definition clear (o : orbit_t) : orbit_t := orbit_init.

(** ** t_path<P> *)

(** The data members of [t_path<P>]. ([regime] is declared but never read or
    written by path.cpp and is left out.) *)
Record t_path : Type := mk_path {
  int_sign : Z;
  start_int : Z;
  max_int : Z;
  orb : orbit_t;
  path_factors : Z;
  ec_factors : Z;
  next_factors : Z;
  ec_len : Z;
  error_mask : Z
}.

Definition set_max_int (p : t_path) (v : Z) : t_path :=
  mk_path (int_sign p) (start_int p) v (orb p) (path_factors p)
    (ec_factors p) (next_factors p) (ec_len p) (error_mask p).

Definition set_orb (p : t_path) (o : orbit_t) : t_path :=
  mk_path (int_sign p) (start_int p) (max_int p) o (path_factors p)
    (ec_factors p) (next_factors p) (ec_len p) (error_mask p).

Definition set_path_factors (p : t_path) (v : Z) : t_path :=
  mk_path (int_sign p) (start_int p) (max_int p) (orb p) v
    (ec_factors p) (next_factors p) (ec_len p) (error_mask p).

Definition set_ec_factors (p : t_path) (v : Z) : t_path :=
  mk_path (int_sign p) (start_int p) (max_int p) (orb p) (path_factors p)
    v (next_factors p) (ec_len p) (error_mask p).

Definition set_next_factors (p : t_path) (v : Z) : t_path :=
  mk_path (int_sign p) (start_int p) (max_int p) (orb p) (path_factors p)
    (ec_factors p) v (ec_len p) (error_mask p).

Definition set_ec_len (p : t_path) (v : Z) : t_path :=
  mk_path (int_sign p) (start_int p) (max_int p) (orb p) (path_factors p)
    (ec_factors p) (next_factors p) v (error_mask p).

Definition set_error_mask (p : t_path) (v : Z) : t_path :=
  mk_path (int_sign p) (start_int p) (max_int p) (orb p) (path_factors p)
    (ec_factors p) (next_factors p) (ec_len p) v.

(** [t_path<P>::zeroize] *)
Definition zeroize : t_path := mk_path 0 0 0 orbit_init 0 0 0 0 0.

(** [t_path<P>::init] *)
Definition init (start : Z) : t_path :=
  mk_path (sgn start) start 0 orbit_init 0 0 0 0 0.

(** Accessors. *)
Definition sign (p : t_path) : Z := int_sign p.
Definition pathLength (p : t_path) : Z := path_length (orb p).
Definition pathFactors (p : t_path) : Z := path_factors p.
Definition classFactors (p : t_path) : Z := ec_factors p.
Definition nextFactors (p : t_path) : Z := next_factors p.
Definition classLength (p : t_path) : Z := ec_len p.
Definition getpath (p : t_path) : string := path (orb p).
Definition error (p : t_path) : Z :=
  Z.lor (error_mask p) (orb_error_mask (orb p)).

(** [t_path<P>::connection] *)
Definition connection (cfg : statics) (d : domain) (terminus : Z) : Z :=
  Padd d (Pmul d terminus (multiplier cfg)) (addend cfg).

(** The loop [while ( i % divisor == 0 ) { i /= divisor; counter++; }], which
    the source has three times: in [term] with a [long] counter, and twice
    at the end of [setpath], once with the [int] counter [ec_factors] and
    once with none. [cw] is the wrap-around of the counter's type. *)
Fixpoint divide_out (fuel : nat) (cfg : statics) (d : domain) (cw : Z -> Z)
  (i counter : Z) : option (Z * Z) :=
  match fuel with
  | O => None
  | S f =>
      if Prem d i (divisor cfg) =? 0 then
        divide_out f cfg d cw (Pdiv d i (divisor cfg)) (cw (counter + 1))
      else Some (counter, i)
  end.

(** [t_path<P>::term]: the factor count and the argument with the factors
    removed. *)
Definition term (fuel : nat) (cfg : statics) (d : domain) (i : Z)
  : option (Z * Z) :=
  if negb (i =? 0) then divide_out fuel cfg d wrap64 i 0 else Some (0, i).

(** [t_path<P>::factor]: the factor count and the reduced [branch]. *)
Fixpoint factor_loop (fuel : nat) (cfg : statics) (d : domain)
  (branch start facts : Z) : option (Z * Z) :=
  match fuel with
  | O => None
  | S f =>
      if Prem d branch (divisor cfg) =? 0 then
        let branch' := Pdiv d branch (divisor cfg) in
        let facts' := wrap64 (facts + 1) in
        if Pabs d branch' <? Pabs d start then Some (facts', branch')
        else factor_loop f cfg d branch' start facts'
      else Some (facts, branch)
  end.

Definition factor (fuel : nat) (cfg : statics) (d : domain) (branch start : Z)
  : option (Z * Z) :=
  factor_loop fuel cfg d branch start 0.

(** How one pass through the body of the [do ... while] of [setpath] ends. *)
Inductive outcome : Type :=
| Again (p : t_path) (current_int : Z)   (* the loop condition held *)
| Leave (p : t_path) (current_int : Z)   (* [break], or the condition failed *)
| Return (p : t_path).                   (* the [return] of speed mode *)

(** The body of the [do ... while] loop of [setpath]. Allocation in
    [orb.append] is taken to succeed, and the message written to [std::cout]
    on overflow is not modelled. *)
Definition loop_body (fuel : nat) (cfg : statics) (d : domain)
  (start max_factors : Z) (p : t_path) (current_int : Z) : option outcome :=
  let last_int := current_int in
  let current_int := connection cfg d current_int in
  if negb (sign p =? sgn current_int) then
    Some (Leave (set_error_mask p (Z.lor (error_mask p) (overflow cfg)))
            last_int)
  else
    let p := if current_int >? max_int p then set_max_int p current_int
             else p in
    match factor fuel cfg d current_int start with
    | None => None
    | Some (leg, current_int) =>
        let p := set_path_factors p (wrap32 (path_factors p + leg)) in
        if speed cfg && (path_factors p >? max_factors) then Some (Return p)
        else
          let p := set_orb p (append cfg true leg (orb p)) in
          if Pabs d current_int >? Pabs d start
          then Some (Again p current_int)
          else Some (Leave p current_int)
    end.

Fixpoint do_while (fuel : nat) (cfg : statics) (d : domain)
  (start max_factors : Z) (p : t_path) (current_int : Z) : option outcome :=
  match fuel with
  | O => None
  | S f =>
      match loop_body f cfg d start max_factors p current_int with
      | Some (Again p' current_int') =>
          do_while f cfg d start max_factors p' current_int'
      | r => r
      end
  end.

(** The statements of [setpath] after the [if]/[else]. *)
Definition finish (fuel : nat) (cfg : statics) (d : domain) (start : Z)
  (p : t_path) (current_int : Z) : option t_path :=
  let p := set_ec_factors p (path_factors p) in
  if negb (current_int =? 0) then
    match divide_out fuel cfg d wrap32 current_int (ec_factors p) with
    | None => None
    | Some (ec, _) =>
        let p := set_ec_factors p ec in
        match divide_out fuel cfg d (fun c => c) start 0 with
        | None => None
        | Some (_, current_int) =>
            match term fuel cfg d (connection cfg d current_int) with
            | None => None
            | Some (facts, _) => Some (set_next_factors p (wrap32 facts))
            end
        end
    end
  else Some p.

(** [t_path<P>::setpath] *)
Definition setpath (fuel : nat) (cfg : statics) (d : domain)
  (start max_factors : Z) : option t_path :=
  let p := init start in
  let current_int := start in
  let p := set_max_int p start in
  if Prem d start (divisor cfg) =? 0 then
    let p := set_orb p (append cfg true 1 (orb p)) in
    let p := set_path_factors p (wrap32 (path_factors p + 1)) in
    finish fuel cfg d start p current_int
  else
    let p := set_orb p (append cfg true 0 (orb p)) in
    match do_while fuel cfg d start max_factors p current_int with
    | None => None
    | Some (Return p) => Some p
    | Some (Leave p current_int) => finish fuel cfg d start p current_int
    | Some (Again p current_int) => None
    end.

(** [t_path<P>::set_ec] *)
Fixpoint set_ec_loop (fuel : nat) (cfg : statics) (d : domain)
  (residual len : Z) : option Z :=
  match fuel with
  | O => None
  | S f =>
      if Pabs d residual >? 1 then
        set_ec_loop f cfg d (Pdiv d residual (divisor cfg)) (wrap32 (len + 1))
      else Some len
  end.

Definition set_ec (fuel : nat) (cfg : statics) (d : domain) (start : Z)
  (p : t_path) : option t_path :=
  match set_ec_loop fuel cfg d (Pdiv d start (multiplier cfg)) 1 with
  | None => None
  | Some len => Some (set_ec_len p len)
  end.

(** [t_path<P>::operator=( const P & )], which the integer constructor
    calls. *)
Definition assign (fuel : nat) (cfg : statics) (d : domain) (rp : Z)
  : option t_path :=
  match setpath fuel cfg d rp 0 with
  | None => None
  | Some p => set_ec fuel cfg d rp p
  end.

(** [to_str] of the instantiation. *)
Definition to_str (remainder : Z) : string := to_string remainder.

(** The [while ( digits-- )] loop of [flow]; [digits] is not negative when
    the loop is reached, so it runs [digits] times. *)
Fixpoint flow_loop (digits : nat) (cfg : statics) (d : domain)
  (factors remainder : Z) (flowrep : string) : string :=
  match digits with
  | O => flowrep
  | S n =>
      let absolute := Pabs d remainder in
      let flowrep := (flowrep ++ to_str absolute)%string in
      let factors := Pdiv d factors (divisor cfg) in
      let remainder := Prem d factors (divisor cfg) in
      flow_loop n cfg d factors remainder flowrep
  end.

(** [t_path<P>::flow] *)
Definition flow (cfg : statics) (d : domain) (p : t_path) (digits : Z)
  : string :=
  let digits := if digits <? 0 then ec_len p else digits in
  let flowrep := EmptyString in
  let factors := Pdiv d (start_int p) (multiplier cfg) in
  let remainder :=
    Prem d (start_int p) (wrap32 (divisor cfg * multiplier cfg)) in
  let digits := if digits <? 0 then 0 else digits in
  let flowrep :=
    if negb (digits =? 0) && negb (int_sign p =? 0) then
      if int_sign p >? 0 then (flowrep ++ "+")%string
      else (flowrep ++ "-")%string
    else flowrep in
  flow_loop (Z.to_nat digits) cfg d factors remainder flowrep.

(** The [do ... while ( true )] loop of [ancestry]; [scale] is a [long]
    passed by reference, so its final value is returned with the parent. *)
Fixpoint ancestry_loop (fuel : nat) (cfg : statics) (d : domain)
  (start scale : Z) : option (Z * Z) :=
  match fuel with
  | O => None
  | S f =>
      let parent :=
        Psub d (Pmul d (Pmul d scale start) (divisor cfg)) (addend cfg) in
      let parent := Pdiv d parent (multiplier cfg) in
      match term f cfg d (connection cfg d parent) with
      | None => None
      | Some (_, child) =>
          if start =? child then Some (parent, scale)
          else ancestry_loop f cfg d start (wrap64 (scale + 1))
      end
  end.

(** [t_path<P>::ancestry]: the parent (0 for none) and the final [scale]. *)
Definition ancestry (fuel : nat) (cfg : statics) (d : domain) (p : t_path)
  (scale : Z) : option (Z * Z) :=
  if start_int p =? Pmul d (Pdiv d (start_int p) (divisor cfg)) (divisor cfg)
  then Some (0, scale)
  else
    if start_int p
       =? Pmul d (Pdiv d (start_int p) (multiplier cfg)) (multiplier cfg)
    then Some (0, scale)
    else ancestry_loop fuel cfg d (start_int p) scale.

(** [t_path<P>::next] *)
Definition next_value (cfg : statics) (d : domain) (p : t_path) : Z :=
  let next_int := Prem d (start_int p) (divisor cfg) in
  if negb (Prem d next_int (divisor cfg) =? 0)
  then connection cfg d (start_int p)
  else Pdiv d (start_int p) (divisor cfg).

(** [t_path<P>::operator==] and the other comparisons. *)
Definition path_eq (l rp : t_path) : bool :=
  if negb (path_length (orb l) =? path_length (orb rp)) then false
  else orbit_eq (orb l) (orb rp).

Definition path_ne (l rp : t_path) : bool := negb (orbit_eq (orb l) (orb rp)).

(** ** Parsing an equivalence class *)

(** A [char] as the integer it is promoted to ([char] is signed on the
    hosts the program was built for; the tests of [parse] come out the same
    for an unsigned [char]). *)
Definition char_val (c : ascii) : Z :=
  let n := Z.of_N (N_of_ascii c) in
  if n <? 128 then n else n - 256.

(** [input[pos]]: the character, or ['\0'] at [pos == input.length()]. *)
Definition char_at (input : string) (pos : Z) : ascii :=
  match String.get (Z.to_nat pos) input with
  | Some c => c
  | None => Ascii.zero
  end.

(** [t_path<P>::is_signed] *)
Definition is_signed (input : string) : bool :=
  let ch := char_at input 0 in
  (char_val ch =? char_val "+") || (char_val ch =? char_val "-").

(** [t_path<P>::get_ec_len] *)
Definition get_ec_len (input : string) : Z :=
  let len := Z.of_nat (String.length input) in
  if is_signed input then len - 1 else len.

(** The loop [while ( --strlen > 0 )] of [parse], which runs [n] more times,
    followed by the final [return local * eq_sign]. *)
Fixpoint parse_loop (n : nat) (d : domain) (input : string)
  (pos eq_sign local mult : Z) (rollover : bool) : Z :=
  match n with
  | O => Pmul d local eq_sign
  | S n' =>
      let rollover :=
        if Pabs d (Pmul d mult 2) <? mult then true else rollover in
      let ch := char_at input pos in
      let pos := pos + 1 in
      if char_val ch =? char_val "1" then
        if rollover then 0
        else
          parse_loop n' d input pos eq_sign (Padd d local mult)
            (Pmul d mult 2) rollover
      else if negb (char_val ch =? char_val "0") then 0
      else parse_loop n' d input pos eq_sign local (Pmul d mult 2) rollover
  end.

(** [t_path<P>::parse] *)
Definition parse (cfg : statics) (d : domain) (input : string) : Z :=
  let pos := 0 in
  let eq_sign := 1 in
  let strlen := Z.of_nat (String.length input) in
  let ch := char_at input pos in
  let pos := pos + 1 in
  let '(eq_sign, ch, pos, strlen) :=
    if is_signed input then
      (if char_val ch =? char_val "-" then -1 else eq_sign,
       char_at input pos, pos + 1, strlen - 1)
    else (eq_sign, ch, pos, strlen) in
  if (char_val ch <? char_val "0") || (char_val ch >? char_val "5") then 0
  else
    let local := char_val ch - char_val "0" in
    let mult := wrap d (wrap32 (multiplier cfg * divisor cfg)) in
    parse_loop (Z.to_nat (strlen - 1)) d input pos eq_sign local mult false.

(** ** The frequency tree of btree.cpp *)

Module BTree.

(** [struct node]; [Null] is [nullptr]. [key_value] is a [long], [count] a
    [ulong]. *)
Inductive node : Type :=
| Null
| Node (key_value : Z) (count : Z) (left right : node).

(** [class btree] *)
Record btree : Type := mk_btree {
  root : node;
  node_count : Z
}.

(** [btree::zeroize], the state the constructor leaves. *)
Definition zeroize : btree := {| root := Null; node_count := 0 |}.

(** The protected [btree::insert( key, leaf )], with the tree's [node_count]
    passed through. The source calls it on a non-null [leaf] only. *)
Fixpoint insert_at (key : Z) (leaf : node) (nc : Z) : node * Z :=
  match leaf with
  | Null => (Null, nc)
  | Node k c l r =>
      if key =? k then (Node k (wrapu64 (c + 1)) l r, nc)
      else if key >? k then
        match r with
        | Null => (Node k c l (Node key 1 Null Null), wrapu64 (nc + 1))
        | Node _ _ _ _ =>
            let '(r', nc') := insert_at key r nc in (Node k c l r', nc')
        end
      else
        match l with
        | Null => (Node k c (Node key 1 Null Null) r, wrapu64 (nc + 1))
        | Node _ _ _ _ =>
            let '(l', nc') := insert_at key l nc in (Node k c l' r, nc')
        end
  end.

(** The public [btree::insert( key )]. *)
Definition insert (key : Z) (t : btree) : btree :=
  match root t with
  | Null => {| root := Node key 1 Null Null; node_count := 1 |}
  | Node _ _ _ _ =>
      let '(r, nc) := insert_at key (root t) (node_count t) in
      {| root := r; node_count := nc |}
  end.

(** The protected [btree::search( key, leaf )]: the node found, or [Null]. *)
Fixpoint search_at (key : Z) (leaf : node) : node :=
  match leaf with
  | Null => Null
  | Node k c l r =>
      if key =? k then leaf
      else if key <? k then search_at key l
      else search_at key r
  end.

(** The public [btree::search( key )], which returns a [long]. *)
Definition search (key : Z) (t : btree) : Z :=
  match search_at key (root t) with
  | Node _ c _ _ => wrap64 c
  | Null => 0
  end.

(** [btree::traverse]. [sum] is the [long] passed by reference; the visitor
    [func], when there is one, acts on the state [W] of the world around the
    tree. The result is the value of [sum] on return and that state. *)
Fixpoint traverse {W : Type} (n : node) (sum : Z)
  (func : option (Z -> Z -> W -> W)) (forward : bool) (w : W) : Z * W :=
  match n with
  | Null => (sum, w)
  | Node k c l r =>
      let '(sum, w) :=
        if forward then traverse l sum func forward w
        else traverse r sum func forward w in
      let w :=
        match func with
        | Some f => f k (wrap64 c) w
        | None => w
        end in
      let sum := wrap64 (sum + c) in
      if forward then traverse r sum func forward w
      else traverse l sum func forward w
  end.

(** [btree::constForwardIterator] and [btree::constReverseIterator] *)
Definition constForwardIterator {W : Type} (t : btree)
  (func : option (Z -> Z -> W -> W)) (w : W) : Z * W :=
  traverse (root t) 0 func true w.

Definition constReverseIterator {W : Type} (t : btree)
  (func : option (Z -> Z -> W -> W)) (w : W) : Z * W :=
  traverse (root t) 0 func false w.

(** [btree::nodes], which returns the [ulong] counter as a [long]. *)
Definition nodes (t : btree) : Z := wrap64 (node_count t).

(** The tree after inserting [keys], first to last, into an empty tree. *)
Definition insert_all (keys : list Z) : btree :=
  fold_left (fun t k => insert k t) keys zeroize.

End BTree.

(** ** Further functions of the sources *)

(** *** path.cpp: copying an orbit *)




(** *** path.cpp: the constructors of [t_path<P>] *)

(** [t_path( const std::string &input )] *)
Definition path_of_class (fuel : nat) (cfg : statics) (d : domain)
  (input : string) : option t_path :=
  let val := parse cfg d input in
  match setpath fuel cfg d val 0 with
  | None => None
  | Some p => Some (set_ec_len p (wrap32 (get_ec_len input)))
  end.

(** *** common.hpp *)



(** *** safe_arith.hpp

    [safe_arith<T>] for an integral [T] (here [int64_t]) and its
    specialisation for [mpz_class]. A thrown [std::overflow_error] is
    [None]. *)

Definition int64_max : Z := 2 ^ 63 - 1.
Definition int64_min : Z := - 2 ^ 63.

Definition safe_add (d : domain) (a b : Z) : option Z :=
  match d with
  | Int64 =>
      if ((b >? 0) && (a >? wrap64 (int64_max - b)))
         || ((b <? 0) && (a <? wrap64 (int64_min - b)))
      then None
      else Some (wrap64 (a + b))
  | Mpz => Some (a + b)
  end.

Definition safe_sub (d : domain) (a b : Z) : option Z :=
  match d with
  | Int64 =>
      if ((b <? 0) && (a >? wrap64 (int64_max + b)))
         || ((b >? 0) && (a <? wrap64 (int64_min + b)))
      then None
      else Some (wrap64 (a - b))
  | Mpz => Some (a - b)
  end.

(** In [mul] the quotient [min / a] overflows for [a = -1]; it is taken to
    wrap like the other operations. *)
Definition safe_mul (d : domain) (a b : Z) : option Z :=
  match d with
  | Int64 =>
      if negb (a =? 0)
         && ((b >? wrap64 (Z.quot int64_max a))
             || (b <? wrap64 (Z.quot int64_min a)))
      then None
      else Some (wrap64 (a * b))
  | Mpz => Some (a * b)
  end.

(** *** menu.cpp *)

(** The [for] loop of [find_range], which multiplies [digits] times. *)
Fixpoint find_range_loop (n : nat) (cfg : statics) (range : Z) : Z :=
  match n with
  | O => range
  | S n' => find_range_loop n' cfg (wrap64 (range * divisor cfg))
  end.

(** [find_range]: the upper limit of the scan for a class length. *)
Definition find_range (cfg : statics) (digits : Z) : Z :=
  let range := if digits >? 0 then multiplier cfg else 0 in
  find_range_loop (Z.to_nat digits) cfg range.

(* ================================================================== *)
(** * Part II: predicates used in the statements                       *)
(* ================================================================== *)

(** [ends_equal l ro]: walking the two block chains together, every pair of
    blocks compared is equal and one of the chains ends: one chain is a
    block-wise prefix of the other. *)
Inductive ends_equal : orbit_node_t -> orbit_node_t -> Prop :=
| ends_left : forall k ro, key ro = k -> ends_equal (Last k) ro
| ends_right : forall k l, key l = k -> ends_equal l (Last k)
| ends_link : forall k lop rop,
    ends_equal lop rop -> ends_equal (Link k lop) (Link k rop).

(** The orbit after appending the counts [cs], first to last, to an empty
    orbit, every allocation succeeding. *)
Definition append_all (cfg : statics) (cs : list Z) : orbit_t :=
  fold_left (fun o c => append cfg true c o) cs orbit_init.

(** The keys of a block chain, root first. *)
Fixpoint keys (n : orbit_node_t) : list Z :=
  match n with
  | Last k => [k]
  | Link k nx => k :: keys nx
  end.

(** The [b]-th node of a chain, if the chain is that long. *)
Fixpoint node_at (n : orbit_node_t) (b : nat) {struct b}
  : option orbit_node_t :=
  match b with
  | O => Some n
  | S b' =>
      match n with
      | Last _ => None
      | Link _ nx => node_at nx b'
      end
  end.

(** The cell of logical index [i] of a chain: byte [7 - i mod 8] of block
    [i / 8]. *)
Definition cell_at (n : orbit_node_t) (i : Z) : Z :=
  c_key (nth (Z.to_nat (i / 8)) (keys n) 0) (7 - i mod 8).

(** The indices [i], [i + 1], ..., [count] of them. *)
Fixpoint zrange (i : Z) (count : nat) : list Z :=
  match count with
  | O => []
  | S c => i :: zrange (i + 1) c
  end.

(** What a run of successful appends maintains: the length is the number of
    counts appended, the chain has one block for every eight cells (and one
    block when empty), and cell [j] holds count [j] reduced to eight bits. *)
Definition holds (o : orbit_t) (cs : list Z) : Prop :=
  path_length o = Z.of_nat (length cs) /\
  Z.of_nat (length (keys (root o)))
  = (if path_length o =? 0 then 1 else (path_length o - 1) / 8 + 1) /\
  forall j, (j < length cs)%nat ->
            cell_at (root o) (Z.of_nat j) = wrapu8 (nth j cs 0).

(** The keys of a tree in order, the sum of its counts, the search-tree
    ordering and the positivity of the counts. *)
Fixpoint tree_keys (n : BTree.node) : list Z :=
  match n with
  | BTree.Null => []
  | BTree.Node k _ l r => tree_keys l ++ k :: tree_keys r
  end.

Fixpoint tree_total (n : BTree.node) : Z :=
  match n with
  | BTree.Null => 0
  | BTree.Node _ c l r => tree_total l + c + tree_total r
  end.

Fixpoint bst (n : BTree.node) : Prop :=
  match n with
  | BTree.Null => True
  | BTree.Node k _ l r =>
      (forall x, In x (tree_keys l) -> x < k) /\
      (forall x, In x (tree_keys r) -> k < x) /\
      bst l /\ bst r
  end.

Fixpoint counts_pos (n : BTree.node) : Prop :=
  match n with
  | BTree.Null => True
  | BTree.Node _ c l r => 1 <= c /\ counts_pos l /\ counts_pos r
  end.

(** What inserting the keys [ks] into an empty tree maintains. *)
Definition tree_inv (t : BTree.btree) (ks : list Z) : Prop :=
  bst (BTree.root t) /\ counts_pos (BTree.root t) /\
  tree_total (BTree.root t) = Z.of_nat (length ks) /\
  BTree.node_count t = Z.of_nat (length (tree_keys (BTree.root t))) /\
  forall x, In x (tree_keys (BTree.root t)) <-> In x ks.

(** The path object with which [setpath] enters its [do ... while] loop. *)
Definition first_pass (cfg : statics) (start : Z) : t_path :=
  let p := set_max_int (init start) start in
  set_orb p (append cfg true 0 (orb p)).

(** [loop_head cfg d start mf p cur]: the loop of [setpath start mf] reaches
    the top of its body with the path object [p] and [current_int = cur]. *)
Inductive loop_head (cfg : statics) (d : domain) (start max_factors : Z)
  : t_path -> Z -> Prop :=
| head_first :
    (Prem d start (divisor cfg) =? 0) = false ->
    loop_head cfg d start max_factors (first_pass cfg start) start
| head_again : forall fuel p cur p' cur',
    loop_head cfg d start max_factors p cur ->
    loop_body fuel cfg d start max_factors p cur = Some (Again p' cur') ->
    loop_head cfg d start max_factors p' cur'.

(** *** The value of an equivalence-class string, as the specification
    words it

    An optional leading ['+'] or ['-']; a first symbol in ['0'..'5']; then
    symbols ['0'] or ['1'], the one at position [j] weighing [6 * 2 ^ j]. *)

(** The position of [c] in the string [s], counted from [i]. *)
Fixpoint index_of (c : ascii) (s : string) (i : Z) : option Z :=
  match s with
  | EmptyString => None
  | String x r => if (c =? x)%char then Some i else index_of c r (i + 1)
  end.

(** The value of a first symbol: its place among ['0'..'5']. *)
Definition first_symbol (c : ascii) : option Z := index_of c "012345" 0.

Definition later_symbol (c : ascii) : option bool :=
  match c with
  | "0"%char => Some false
  | "1"%char => Some true
  | _ => None
  end.

(** Whether the weight of position [j] can still be added: in the 64-bit
    domain the doubling of the multiplier [6 * 2 ^ j] overflows from
    [j = 60] on; it never does with arbitrary precision. *)
Definition fits (d : domain) (j : Z) : bool :=
  match d with
  | Int64 => j <? 60
  | Mpz => true
  end.

(** The weighted sum of the later symbols, from position [j] on; [None]
    when a symbol is neither ['0'] nor ['1'], or when a ['1'] stands where
    the multiplier has overflowed. *)
Fixpoint later_sum (d : domain) (rest : string) (j : Z) : option Z :=
  match rest with
  | EmptyString => Some 0
  | String c r =>
      match later_symbol c with
      | None => None
      | Some false => later_sum d r (j + 1)
      | Some true =>
          if fits d j then
            match later_sum d r (j + 1) with
            | None => None
            | Some s => Some (6 * 2 ^ j + s)
            end
          else None
      end
  end.

Definition class_value (d : domain) (input : string) : Z :=
  let '(eq_sign, body) :=
    match input with
    | EmptyString => (1, input)
    | String c r =>
        if (c =? "+")%char then (1, r)
        else if (c =? "-")%char then (-1, r)
        else (1, input)
    end in
  match body with
  | EmptyString => 0
  | String c rest =>
      match first_symbol c with
      | None => 0
      | Some v =>
          match later_sum d rest 0 with
          | None => 0
          | Some s => eq_sign * (v + s)
          end
      end
  end.

(** What the loop of [parse] maintains when it is about to read the later
    symbol of position [j]. *)
Definition parse_inv (d : domain) (j mult : Z) (rollover : bool) (local : Z)
  : Prop :=
  match d with
  | Mpz => mult = 6 * 2 ^ j /\ rollover = false /\ 0 <= local
  | Int64 =>
      0 <= local < 6 * 2 ^ Z.min j 60 /\
      (if j <=? 60 then mult = 6 * 2 ^ j /\ rollover = false
       else rollover = true)
  end.

(** The count stored for [k] in a tree, 0 when [k] has no node: what the
    search finds, before the conversion to [long]. *)
Fixpoint count_at (k : Z) (n : BTree.node) : Z :=
  match n with
  | BTree.Null => 0
  | BTree.Node x c l r =>
      if k =? x then c
      else if k <? x then count_at k l
      else count_at k r
  end.

(** The (key, count) pairs of a tree, in key order. *)
Fixpoint entries (n : BTree.node) : list (Z * Z) :=
  match n with
  | BTree.Null => []
  | BTree.Node k c l r => entries l ++ (k, c) :: entries r
  end.


(** The same constants with the speed flag set to [b]. *)
Definition with_speed (cfg : statics) (b : bool) : statics :=
  {| divisor := divisor cfg; multiplier := multiplier cfg;
     addend := addend cfg; overflow := overflow cfg; memory := memory cfg;
     speed := b |}.


(** The symbol of a first digit [v] in 0..5. *)
Definition digit_symbol (v : Z) : ascii :=
  match String.get (Z.to_nat v) "012345" with
  | Some c => c
  | None => "0"%char
  end.

(** The [n] lowest binary digits of [a], the least significant first. *)
Fixpoint bit_symbols (n : nat) (a : Z) : string :=
  match n with
  | O => EmptyString
  | S m =>
      String (if Z.odd a then "1"%char else "0"%char) (bit_symbols m (a / 2))
  end.

(** The sign character of a stored sign, none for 0. *)
Definition sign_symbol (s : Z) : string :=
  if s =? 0 then EmptyString else if s >? 0 then "+"%string else "-"%string.

(** Whether a class of [k] symbols can be read back in the domain. *)
Definition readable (d : domain) (k : Z) : Prop :=
  match d with
  | Int64 => k <= 61
  | Mpz => True
  end.

(** Starting integers whose fourfold is still in the domain. *)
Definition room (d : domain) (s : Z) : Prop :=
  match d with
  | Int64 => - 2 ^ 61 < s < 2 ^ 61
  | Mpz => True
  end.

(** The path object an outcome carries. *)
Definition outcome_path (o : outcome) : t_path :=
  match o with
  | Again p _ | Leave p _ | Return p => p
  end.

(* ================================================================== *)
(** * Part III: properties                                             *)
(* ================================================================== *)

(** ** Ranges *)

Lemma wrap64_id (x : Z) : - 2 ^ 63 <= x < 2 ^ 63 -> wrap64 x = x.
Proof.
  intros H. unfold wrap64.
  rewrite Z.mod_small by lia. lia.
Qed.

Lemma wrap32_id (x : Z) : - 2 ^ 31 <= x < 2 ^ 31 -> wrap32 x = x.
Proof.
  intros H. unfold wrap32.
  rewrite Z.mod_small by lia. lia.
Qed.

Lemma wrap_id (d : domain) (x : Z) : in_range d x -> wrap d x = x.
Proof.
  destruct d; simpl; intros H; [apply wrap64_id; exact H | reflexivity].
Qed.

Lemma wrap64_range (x : Z) : - 2 ^ 63 <= wrap64 x < 2 ^ 63.
Proof.
  unfold wrap64.
  pose proof (Z.mod_pos_bound (x + 2 ^ 63) (2 ^ 64) eq_refl). lia.
Qed.

Lemma wrap_in_range (d : domain) (x : Z) : in_range d (wrap d x).
Proof.
  destruct d; simpl; [apply wrap64_range | exact I].
Qed.

Lemma in_range_quot2 (d : domain) (x : Z) :
  in_range d x -> in_range d (Z.quot x 2).
Proof.
  destruct d; simpl; [| trivial].
  intros H. Z.quot_rem_to_equations. lia.
Qed.

(** ** Orbit comparison *)

Lemma node_eq_ends_equal (l ro : orbit_node_t) :
  ends_equal l ro -> node_eq l ro = true.
Proof.
  induction 1 as [k ro Hk | k l Hk | k lop rop _ IH].
  - simpl. rewrite Hk, Z.eqb_refl. reflexivity.
  - destruct l; simpl in *; rewrite Hk, Z.eqb_refl; reflexivity.
  - simpl. rewrite Z.eqb_refl. exact IH.
Qed.

Lemma node_lt_ends_equal (l ro : orbit_node_t) :
  ends_equal l ro -> node_lt l ro = false.
Proof.
  induction 1 as [k ro Hk | k l Hk | k lop rop _ IH].
  - simpl. rewrite Hk, Z.eqb_refl. reflexivity.
  - destruct l; simpl in *; rewrite Hk, Z.eqb_refl; reflexivity.
  - simpl. rewrite Z.eqb_refl. exact IH.
Qed.

Lemma node_gt_ends_equal (l ro : orbit_node_t) :
  ends_equal l ro -> node_gt l ro = false.
Proof.
  induction 1 as [k ro Hk | k l Hk | k lop rop _ IH].
  - simpl. rewrite Hk, Z.eqb_refl. reflexivity.
  - destruct l; simpl in *; rewrite Hk, Z.eqb_refl; reflexivity.
  - simpl. rewrite Z.eqb_refl. exact IH.
Qed.

(** C2. When one orbit's block chain ends while every block compared so far
    is equal, [==] on the orbits is true and [<] and [>] are both false: the
    shorter orbit is not ordered before the longer one. *)
Theorem orbit_prefix_compares_equal (l ro : orbit_t) :
  ends_equal (root l) (root ro) ->
  orbit_eq l ro = true /\ orbit_lt l ro = false /\ orbit_gt l ro = false.
Proof.
  intros H. unfold orbit_eq, orbit_lt, orbit_gt.
  split; [| split].
  - apply node_eq_ends_equal; exact H.
  - apply node_lt_ends_equal; exact H.
  - apply node_gt_ends_equal; exact H.
Qed.

(** An orbit of eight cells against the orbit of nine cells it starts. *)
Lemma orbit_prefix_compares_equal_witness :
  let l := append_all collatz [0; 1; 2; 1; 1; 1; 1; 2] in
  let ro := append_all collatz [0; 1; 2; 1; 1; 1; 1; 2; 2] in
  path_length l = 8 /\ path_length ro = 9 /\
  orbit_eq l ro = true /\ orbit_lt l ro = false /\ orbit_gt l ro = false.
Proof.
  split; [reflexivity | split; [reflexivity |]].
  apply (orbit_prefix_compares_equal
           (append_all collatz [0; 1; 2; 1; 1; 1; 1; 2])
           (append_all collatz [0; 1; 2; 1; 1; 1; 1; 2; 2])).
  vm_compute. apply ends_left. reflexivity.
Defined.

(** ** More fuel never changes a result *)

Lemma divide_out_mono (cfg : statics) (d : domain) (cw : Z -> Z)
  (f f' : nat) (i c : Z) (r : Z * Z) :
  divide_out f cfg d cw i c = Some r -> (f <= f')%nat ->
  divide_out f' cfg d cw i c = Some r.
Proof.
  revert f' i c.
  induction f as [| f IH]; intros f' i c H Hle; simpl in H; [discriminate |].
  destruct f' as [| f']; [lia |]. simpl.
  destruct (Prem d i (divisor cfg) =? 0); [| exact H].
  apply IH; [exact H | lia].
Qed.

Lemma term_mono (cfg : statics) (d : domain) (f f' : nat) (i : Z)
  (r : Z * Z) :
  term f cfg d i = Some r -> (f <= f')%nat -> term f' cfg d i = Some r.
Proof.
  unfold term. destruct (negb (i =? 0)); [| trivial].
  apply divide_out_mono.
Qed.

Lemma factor_loop_mono (cfg : statics) (d : domain) (f f' : nat)
  (branch start facts : Z) (r : Z * Z) :
  factor_loop f cfg d branch start facts = Some r -> (f <= f')%nat ->
  factor_loop f' cfg d branch start facts = Some r.
Proof.
  revert f' branch facts.
  induction f as [| f IH]; intros f' branch facts H Hle; simpl in H;
    [discriminate |].
  destruct f' as [| f']; [lia |]. simpl.
  destruct (Prem d branch (divisor cfg) =? 0); [| exact H].
  destruct (Pabs d (Pdiv d branch (divisor cfg)) <? Pabs d start);
    [exact H |].
  apply IH; [exact H | lia].
Qed.

Lemma loop_body_mono (cfg : statics) (d : domain) (f f' : nat)
  (start mf : Z) (p : t_path) (cur : Z) (r : outcome) :
  loop_body f cfg d start mf p cur = Some r -> (f <= f')%nat ->
  loop_body f' cfg d start mf p cur = Some r.
Proof.
  unfold loop_body, factor. intros H Hle.
  destruct (negb (sign p =? sgn (connection cfg d cur))); [exact H |].
  destruct (factor_loop f cfg d (connection cfg d cur) start 0)
    as [[leg cur'] |] eqn:E; [| discriminate].
  rewrite (factor_loop_mono _ _ _ _ _ _ _ _ E Hle). exact H.
Qed.

Lemma do_while_mono (cfg : statics) (d : domain) (f f' : nat)
  (start mf : Z) (p : t_path) (cur : Z) (r : outcome) :
  do_while f cfg d start mf p cur = Some r -> (f <= f')%nat ->
  do_while f' cfg d start mf p cur = Some r.
Proof.
  revert f' p cur.
  induction f as [| f IH]; intros f' p cur H Hle; simpl in H;
    [discriminate |].
  destruct f' as [| f']; [lia |]. simpl.
  destruct (loop_body f cfg d start mf p cur) as [o |] eqn:E;
    [| discriminate].
  rewrite (loop_body_mono _ _ _ f' _ _ _ _ _ E) by lia.
  destruct o as [p' cur' | p' cur' | p']; [| exact H | exact H].
  apply IH; [exact H | lia].
Qed.

Lemma finish_mono (cfg : statics) (d : domain) (f f' : nat)
  (start : Z) (p : t_path) (cur : Z) (r : t_path) :
  finish f cfg d start p cur = Some r -> (f <= f')%nat ->
  finish f' cfg d start p cur = Some r.
Proof.
  unfold finish. intros H Hle.
  destruct (negb (cur =? 0)); [| exact H].
  destruct (divide_out f cfg d wrap32 cur _) as [[ec x] |] eqn:E1;
    [| discriminate].
  rewrite (divide_out_mono _ _ _ _ _ _ _ _ E1 Hle).
  destruct (divide_out f cfg d (fun c => c) start 0) as [[y cur'] |] eqn:E2;
    [| discriminate].
  rewrite (divide_out_mono _ _ _ _ _ _ _ _ E2 Hle).
  destruct (term f cfg d (connection cfg d cur')) as [[facts z] |] eqn:E3;
    [| discriminate].
  rewrite (term_mono _ _ _ _ _ _ E3 Hle). exact H.
Qed.

Lemma setpath_mono (cfg : statics) (d : domain) (f f' : nat)
  (start mf : Z) (r : t_path) :
  setpath f cfg d start mf = Some r -> (f <= f')%nat ->
  setpath f' cfg d start mf = Some r.
Proof.
  unfold setpath. intros H Hle.
  destruct (Prem d start (divisor cfg) =? 0).
  - exact (finish_mono _ _ _ _ _ _ _ _ H Hle).
  - destruct (do_while f cfg d start mf _ start) as [o |] eqn:E;
      [| discriminate].
    rewrite (do_while_mono _ _ _ _ _ _ _ _ _ E Hle).
    destruct o as [p' cur' | p' cur' | p']; [discriminate | | exact H].
    exact (finish_mono _ _ _ _ _ _ _ _ H Hle).
Qed.

(** ** The dividing loops end *)

Lemma even_quot2_nonzero (i : Z) :
  i <> 0 -> Z.rem i 2 = 0 -> Z.quot i 2 <> 0 /\ Z.abs (Z.quot i 2) < Z.abs i.
Proof.
  intros Hi Hr. Z.quot_rem_to_equations. lia.
Qed.

(** With the divisor 2, [divide_out] ends on every non-zero value of the
    domain, within a number of steps bounded by the size of the value. *)
Lemma divide_out_total (cfg : statics) (d : domain) (cw : Z -> Z) :
  divisor cfg = 2 ->
  forall (n : nat) (i c : Z),
    i <> 0 -> in_range d i -> Z.abs i < 2 ^ Z.of_nat n ->
    forall fuel, (n < fuel)%nat ->
      exists c' i', divide_out fuel cfg d cw i c = Some (c', i')
                    /\ i' <> 0 /\ in_range d i'.
Proof.
  intros HD.
  induction n as [| n IH]; intros i c Hi Hr Hb fuel Hf.
  - simpl in Hb. lia.
  - destruct fuel as [| fuel]; [lia |]. simpl. rewrite HD.
    unfold Prem, Pdiv.
    assert (Hrem : in_range d (Z.rem i 2)).
    { destruct d; simpl in *; [| trivial].
      Z.quot_rem_to_equations. lia. }
    rewrite (wrap_id _ _ Hrem).
    destruct (Z.rem i 2 =? 0) eqn:E.
    + apply Z.eqb_eq in E.
      destruct (even_quot2_nonzero i Hi E) as [Hq Hlt].
      rewrite (wrap_id _ _ (in_range_quot2 d i Hr)).
      destruct fuel as [| fuel].
      * exfalso.
        assert (n = 0)%nat by lia. subst n. simpl in Hb. lia.
      * apply IH; [exact Hq | apply in_range_quot2; exact Hr | | lia].
        rewrite Nat2Z.inj_succ, Z.pow_succ_r in Hb by lia.
        Z.quot_rem_to_equations. lia.
    + exists c, i. split; [reflexivity | split; assumption].
Qed.

Lemma abs_lt_pow2 (i : Z) : exists n : nat, Z.abs i < 2 ^ Z.of_nat n.
Proof.
  exists (Z.to_nat (Z.abs i)).
  rewrite Z2Nat.id by lia.
  apply Z.pow_gt_lin_r; lia.
Qed.

Lemma divide_out_ends (cfg : statics) (d : domain) (cw : Z -> Z) (i c : Z) :
  divisor cfg = 2 -> i <> 0 -> in_range d i ->
  exists f0 : nat, forall fuel, (f0 <= fuel)%nat ->
    exists c' i', divide_out fuel cfg d cw i c = Some (c', i')
                  /\ i' <> 0 /\ in_range d i'.
Proof.
  intros HD Hi Hr.
  destruct (abs_lt_pow2 i) as [n Hn].
  exists (S n). intros fuel Hf.
  apply (divide_out_total cfg d cw HD n); [assumption .. | lia].
Qed.

Lemma term_ends (cfg : statics) (d : domain) (i : Z) :
  divisor cfg = 2 -> in_range d i ->
  exists f0 : nat, forall fuel, (f0 <= fuel)%nat ->
    exists c' i', term fuel cfg d i = Some (c', i').
Proof.
  intros HD Hr. unfold term.
  destruct (i =? 0) eqn:E; simpl.
  - exists 0%nat. intros fuel _. eauto.
  - apply Z.eqb_neq in E.
    destruct (divide_out_ends cfg d wrap64 i 0 HD E Hr) as [f0 H].
    exists f0. intros fuel Hf.
    destruct (H fuel Hf) as (c' & i' & Heq & _). eauto.
Qed.

Lemma connection_in_range (cfg : statics) (d : domain) (x : Z) :
  in_range d (connection cfg d x).
Proof.
  unfold connection, Padd. apply wrap_in_range.
Qed.

(** The statements that end [setpath] always complete, and they leave the
    orbit, the path-factor total, the maximum and the error mask alone. *)
Lemma finish_ends (cfg : statics) (d : domain) (start : Z) (p : t_path)
  (cur : Z) :
  divisor cfg = 2 -> in_range d start -> in_range d cur ->
  (cur <> 0 -> start <> 0) ->
  exists f0 : nat, forall fuel, (f0 <= fuel)%nat ->
    exists q, finish fuel cfg d start p cur = Some q
              /\ orb q = orb p /\ path_factors q = path_factors p
              /\ max_int q = max_int p /\ error_mask q = error_mask p
              /\ start_int q = start_int p /\ int_sign q = int_sign p.
Proof.
  intros HD Hs Hc Hnz. unfold finish.
  destruct (cur =? 0) eqn:E; simpl.
  - exists 0%nat. intros fuel _. eexists. split; [reflexivity |].
    simpl. repeat split; reflexivity.
  - apply Z.eqb_neq in E. specialize (Hnz E).
    destruct (divide_out_ends cfg d wrap32 cur (path_factors p) HD E Hc)
      as [f1 H1].
    destruct (divide_out_ends cfg d (fun c => c) start 0 HD Hnz Hs)
      as [f2 H2].
    destruct (H2 f2 (Nat.le_refl _)) as (y & cur' & E2 & _ & _).
    destruct (term_ends cfg d (connection cfg d cur') HD
                (connection_in_range _ _ _)) as [f3 H3].
    exists (f1 + f2 + f3)%nat. intros fuel Hf.
    destruct (H1 fuel ltac:(lia)) as (ec & x & E1 & _ & _).
    rewrite E1.
    rewrite (divide_out_mono _ _ _ f2 fuel _ _ _ E2) by lia.
    destruct (H3 fuel ltac:(lia)) as (facts & z & E3).
    rewrite E3. eexists. split; [reflexivity |].
    simpl. repeat split; reflexivity.
Qed.

(** ** Computing a path *)

(** The paths that the comments of path.cpp and path.hpp quote: 15 has the
    orbit "0 1 1 1 4" with 7 path factors, 79 the orbit "0 1 1 1 3 2", and
    the class of 23 on five digits is "+51100". *)
Example documented_paths :
  (exists p, setpath 20 collatz Int64 15 0 = Some p
             /\ getpath p = "0 1 1 1 4"%string /\ pathFactors p = 7) /\
  (exists p, setpath 20 collatz Int64 79 0 = Some p
             /\ getpath p = "0 1 1 1 3 2"%string) /\
  (exists p, assign 20 collatz Int64 23 = Some p
             /\ flow collatz Int64 p 5 = "+51100"%string).
Proof.
  repeat split; eexists; (split; [vm_compute; reflexivity |]);
    repeat split; reflexivity.
Qed.

(** C3. For every even starting integer, with the divisor 2, [setpath]
    returns, and the path it builds has the orbit [1] (rendered "1"), path
    length 1 and path-factor total 1; this holds in both integer domains and
    whatever the multiplier, the addend, the speed flag and the factor
    budget are. *)
Theorem setpath_even (cfg : statics) (d : domain) (n max_factors : Z) :
  divisor cfg = 2 -> in_range d n -> Z.rem n 2 = 0 ->
  exists f0 : nat, forall fuel, (f0 <= fuel)%nat ->
    exists p, setpath fuel cfg d n max_factors = Some p
              /\ cells (orb p) = [1] /\ getpath p = "1"%string
              /\ pathLength p = 1 /\ pathFactors p = 1.
Proof.
  intros HD Hr Hev. unfold setpath. rewrite HD.
  unfold Prem at 1. rewrite Hev.
  replace (wrap d 0 =? 0) with true by (destruct d; reflexivity).
  match goal with
  | |- context [finish _ cfg d n ?p n] =>
      destruct (finish_ends cfg d n p n HD Hr Hr (fun H => H)) as [f0 H]
  end.
  exists f0. intros fuel Hf.
  destruct (H fuel Hf) as (q & Hq & Horb & Hpf & _).
  exists q. split; [exact Hq |].
  unfold getpath, pathLength, pathFactors. rewrite Horb, Hpf.
  repeat split; reflexivity.
Qed.

Lemma setpath_even_witness :
  exists f0 : nat, forall fuel, (f0 <= fuel)%nat ->
    exists p, setpath fuel collatz Int64 12 0 = Some p
              /\ cells (orb p) = [1] /\ getpath p = "1"%string
              /\ pathLength p = 1 /\ pathFactors p = 1.
Proof.
  apply (setpath_even collatz Int64 12 0).
  - reflexivity.
  - simpl. lia.
  - reflexivity.
Defined.

(** The run of [setpath] on 5, shared by the statements below. *)
Lemma run_on_5 (d : domain) (fuel : nat) :
  (5 <= fuel)%nat ->
  exists p, setpath fuel collatz d 5 0 = Some p
            /\ cells (orb p) = [0; 2] /\ getpath p = "0 2"%string
            /\ pathLength p = 2 /\ pathFactors p = 2 /\ classFactors p = 4.
Proof.
  intros Hf.
  assert (H : exists p, setpath 5 collatz d 5 0 = Some p
            /\ cells (orb p) = [0; 2] /\ getpath p = "0 2"%string
            /\ pathLength p = 2 /\ pathFactors p = 2 /\ classFactors p = 4).
  { destruct d; vm_compute; eexists; repeat split; reflexivity. }
  destruct H as (p & Hp & Hrest).
  exists p. split; [| exact Hrest].
  exact (setpath_mono _ _ _ _ _ _ _ Hp Hf).
Qed.

(** C1, as the code has it. For the starting integer 5, in both domains,
    connection(5) = 16 and [factor] stops at the first value below 5: it
    removes leg = 2 factors (16, 8, 4) and leaves 4. [setpath] yields the
    orbit [0, 2] (rendered "0 2"), path length 2 and path-factor total 2; the
    two factors left in 4 are counted in the class-factor total, which is
    4. *)
Theorem setpath_5 (d : domain) (fuel : nat) :
  (5 <= fuel)%nat ->
  connection collatz d 5 = 16 /\
  factor fuel collatz d 16 5 = Some (2, 4) /\
  exists p, setpath fuel collatz d 5 0 = Some p
            /\ cells (orb p) = [0; 2] /\ getpath p = "0 2"%string
            /\ pathLength p = 2 /\ pathFactors p = 2 /\ classFactors p = 4.
Proof.
  intros Hf.
  split; [destruct d; reflexivity |].
  split.
  - apply (factor_loop_mono collatz d 5 fuel); [| exact Hf].
    destruct d; reflexivity.
  - apply run_on_5; exact Hf.
Qed.

Lemma setpath_5_witness :
  connection collatz Int64 5 = 16 /\
  factor 10 collatz Int64 16 5 = Some (2, 4) /\
  exists p, setpath 10 collatz Int64 5 0 = Some p
            /\ cells (orb p) = [0; 2] /\ getpath p = "0 2"%string
            /\ pathLength p = 2 /\ pathFactors p = 2 /\ classFactors p = 4.
Proof.
  apply (setpath_5 Int64 10). lia.
Defined.

(** C1 as stated fails on each of its three figures: whenever [factor]
    returns on 16 with the start 5 the count is not 4, and whenever
    [setpath] returns on 5 the orbit is not [0, 4] and the path-factor total
    is not 4. *)
Lemma setpath_5_not_leg_4 :
  (forall fuel leg r,
      factor fuel collatz Int64 16 5 = Some (leg, r) -> leg <> 4) /\
  (forall fuel p,
      setpath fuel collatz Int64 5 0 = Some p ->
      cells (orb p) <> [0; 4] /\ pathFactors p <> 4).
Proof.
  split.
  - intros fuel leg r H.
    pose proof (factor_loop_mono _ _ _ (fuel + 5) _ _ _ _ H ltac:(lia)) as H1.
    assert (H2 : factor_loop (fuel + 5) collatz Int64 16 5 0 = Some (2, 4)).
    { apply (factor_loop_mono collatz Int64 5); [reflexivity | lia]. }
    rewrite H1 in H2. injection H2 as -> _. discriminate.
  - intros fuel p Hp.
    pose proof (setpath_mono _ _ _ (fuel + 5) _ _ _ Hp ltac:(lia)) as H1.
    destruct (run_on_5 Int64 (fuel + 5) ltac:(lia))
      as (q & Hq & Hc & _ & _ & Hpf & _).
    rewrite H1 in Hq. injection Hq as ->.
    rewrite Hc, Hpf. split; discriminate.
Qed.

(** ** Ancestry *)

Lemma exact_quot (x m : Z) : m <> 0 -> Z.rem x m = 0 -> Z.quot x m * m = x.
Proof.
  intros Hm Hr. pose proof (Z.quot_rem' x m) as H. lia.
Qed.

(** C7. With D = 2 and M = 3, for a starting integer of the domain that is
    divisible by 2 or by 3, [ancestry] returns 0 ("no parent") and leaves
    [scale] as it was, whatever fuel the probing loop is given, none
    included: the loop is not entered. *)
Theorem ancestry_none (d : domain) (p : t_path) (scale : Z) :
  in_range d (start_int p) ->
  Z.rem (start_int p) 2 = 0 \/ Z.rem (start_int p) 3 = 0 ->
  forall fuel, ancestry fuel collatz d p scale = Some (0, scale).
Proof.
  intros Hr Hdiv fuel. unfold ancestry, Pmul, Pdiv. simpl.
  rewrite (wrap_id d (Z.quot (start_int p) 2))
    by (apply in_range_quot2; exact Hr).
  assert (H3 : in_range d (Z.quot (start_int p) 3)).
  { destruct d; simpl in *; [| trivial]. Z.quot_rem_to_equations. lia. }
  rewrite (wrap_id d (Z.quot (start_int p) 3)) by exact H3.
  destruct Hdiv as [H2 | H2].
  - rewrite (exact_quot _ 2) by (try lia; exact H2).
    rewrite (wrap_id _ _ Hr), Z.eqb_refl. reflexivity.
  - destruct (start_int p =? wrap d (Z.quot (start_int p) 2 * 2));
      [reflexivity |].
    rewrite (exact_quot _ 3) by (try lia; exact H2).
    rewrite (wrap_id _ _ Hr), Z.eqb_refl. reflexivity.
Qed.

(** The path object that [path p( 3 )] builds has no parent, and the
    probing loop needs no fuel to say so. *)
Lemma ancestry_none_witness :
  exists p, assign 20 collatz Int64 3 = Some p /\ start_int p = 3 /\
            ancestry 0 collatz Int64 p 1 = Some (0, 1).
Proof.
  eexists. split; [vm_compute; reflexivity |]. split; [reflexivity |].
  match goal with
  | |- ancestry 0 collatz Int64 ?p 1 = _ =>
      refine (ancestry_none Int64 p 1 _ _ 0%nat)
  end.
  - simpl. lia.
  - right. reflexivity.
Defined.

(** ** The flow string *)

Lemma flow_loop_acc (n : nat) (cfg : statics) (d : domain)
  (factors remainder : Z) (acc : string) :
  flow_loop n cfg d factors remainder acc
  = (acc ++ flow_loop n cfg d factors remainder EmptyString)%string.
Proof.
  revert factors remainder acc.
  induction n as [| n IH]; intros factors remainder acc; simpl.
  - induction acc as [| c acc IHa]; simpl; [reflexivity | f_equal; exact IHa].
  - rewrite IH. rewrite (IH _ _ (to_str _)).
    clear IH. induction acc as [| c acc IHa]; simpl;
      [reflexivity | f_equal; exact IHa].
Qed.

(** C8. For every path object, in both domains, [flow( 0 )] is the empty
    string. More generally the result of [flow] is a sign prefix followed by
    the digit symbols, where the prefix is a sign character exactly when the
    digit count in force is not zero and the stored sign is not zero, and
    is empty otherwise. *)
Theorem flow_zero_digits (d : domain) (p : t_path) :
  flow collatz d p 0 = EmptyString /\
  forall digits,
    let n := if digits <? 0 then ec_len p else digits in
    let n := if n <? 0 then 0 else n in
    flow collatz d p digits
    = ((if (negb (n =? 0) && negb (int_sign p =? 0))%Z
        then (if (int_sign p >? 0)%Z then "+" else "-")
        else "")
       ++ flow_loop (Z.to_nat n) collatz d (Pdiv d (start_int p) 3)
            (Prem d (start_int p) 6) EmptyString)%string.
Proof.
  split; [reflexivity |].
  intros digits n n0. unfold flow. fold n. fold n0.
  rewrite flow_loop_acc.
  destruct (negb (n0 =? 0) && negb (int_sign p =? 0))%Z;
    [destruct (int_sign p >? 0)%Z |]; reflexivity.
Qed.

(** ** Comparing paths *)

(** C9. [a == b] holds exactly when the path lengths are equal and the
    orbits compare equal, and [a != b] exactly when the orbits compare
    unequal, with no look at the lengths. So for two paths of different
    lengths of which one block chain ends while all blocks compared are
    equal, [a == b] and [a != b] are both false. *)
Theorem path_eq_ne_both_false (a b : t_path) :
  (path_eq a b = true <->
   pathLength a = pathLength b /\ orbit_eq (orb a) (orb b) = true) /\
  (path_ne a b = true <-> orbit_eq (orb a) (orb b) = false) /\
  (pathLength a <> pathLength b ->
   ends_equal (root (orb a)) (root (orb b)) ->
   path_eq a b = false /\ path_ne a b = false).
Proof.
  unfold path_eq, path_ne, pathLength.
  split; [| split].
  - destruct (path_length (orb a) =? path_length (orb b)) eqn:E; simpl.
    + apply Z.eqb_eq in E. tauto.
    + apply Z.eqb_neq in E. split; [discriminate | tauto].
  - destruct (orbit_eq (orb a) (orb b)); simpl; split; congruence.
  - intros Hlen Hends.
    apply Z.eqb_neq in Hlen. rewrite Hlen. simpl.
    unfold orbit_eq. rewrite (node_eq_ends_equal _ _ Hends).
    split; reflexivity.
Qed.

(** The path of 27 cut by the factor budget 9 of speed mode, which has
    eight cells, against the full path of 27. *)
Lemma path_eq_ne_both_false_witness :
  exists a b,
    setpath 200 (mk_statics 2 3 1 1 2 true) Int64 27 9 = Some a /\
    setpath 200 collatz Int64 27 0 = Some b /\
    pathLength a = 8 /\ pathLength b = 38 /\
    path_eq a b = false /\ path_ne a b = false.
Proof.
  eexists. eexists.
  split; [vm_compute; reflexivity |].
  split; [vm_compute; reflexivity |].
  split; [reflexivity |]. split; [reflexivity |].
  match goal with
  | |- path_eq ?a ?b = false /\ _ =>
      refine (proj2 (proj2 (path_eq_ne_both_false a b)) _ _)
  end.
  - vm_compute. discriminate.
  - vm_compute. apply ends_left. reflexivity.
Defined.

(** ** The cells of an orbit *)

(** From here on [lia] also decides goals with division by a constant. *)
Ltac Zify.zify_post_hook ::= Z.to_euclidean_division_equations.

Lemma testbit_255 (n : Z) : Z.testbit 255 n = (0 <=? n) && (n <? 8).
Proof.
  change 255 with (Z.ones 8). apply Z.testbit_ones. lia.
Qed.

Lemma c_key_testbit (k j n : Z) :
  0 <= n -> Z.testbit (c_key k j) n = Z.testbit k (n + 8 * j) && (n <? 8).
Proof.
  intros Hn. unfold c_key.
  rewrite Z.land_spec, Z.shiftr_spec by exact Hn.
  rewrite testbit_255.
  replace (0 <=? n) with true by (symmetry; apply Z.leb_le; exact Hn).
  reflexivity.
Qed.

Lemma wrapu8_testbit (v n : Z) :
  Z.testbit (wrapu8 v) n = Z.testbit v n && (n <? 8).
Proof.
  destruct (Z.ltb_spec n 0) as [Hneg | Hn].
  - rewrite !Z.testbit_neg_r by exact Hneg. reflexivity.
  - unfold wrapu8. change 256 with (2 ^ 8).
    destruct (Z.ltb_spec n 8) as [E | E].
    + rewrite Z.mod_pow2_bits_low by lia.
      rewrite andb_true_r. reflexivity.
    + rewrite Z.mod_pow2_bits_high by lia.
      rewrite andb_false_r. reflexivity.
Qed.

Lemma set_c_key_testbit (k j v m : Z) :
  0 <= m ->
  Z.testbit (set_c_key k j v) m
  = if (8 * j <=? m) && (m <? 8 * j + 8) then Z.testbit v (m - 8 * j)
    else Z.testbit k m.
Proof.
  intros Hm. unfold set_c_key.
  rewrite Z.lor_spec, Z.ldiff_spec, !Z.shiftl_spec by exact Hm.
  rewrite testbit_255, wrapu8_testbit.
  destruct (Z.ltb_spec (m - 8 * j) 0) as [Hneg | Hpos].
  - rewrite (Z.testbit_neg_r v) by exact Hneg.
    destruct (Z.leb_spec 0 (m - 8 * j)), (Z.leb_spec (8 * j) m);
      try lia; simpl.
    rewrite andb_true_r, orb_false_r. reflexivity.
  - destruct (Z.leb_spec 0 (m - 8 * j)), (Z.leb_spec (8 * j) m),
      (Z.ltb_spec (m - 8 * j) 8), (Z.ltb_spec m (8 * j + 8));
      try lia; simpl.
    + rewrite andb_false_r, andb_true_r. reflexivity.
    + rewrite andb_true_r, andb_false_r, orb_false_r. reflexivity.
Qed.

(** Reading back the byte just written gives the count reduced to 8 bits. *)
Lemma c_key_set_same (k j v : Z) :
  0 <= j -> c_key (set_c_key k j v) j = wrapu8 v.
Proof.
  intros Hj. apply Z.bits_inj'. intros n Hn.
  rewrite c_key_testbit by exact Hn. rewrite wrapu8_testbit.
  destruct (Z.ltb_spec n 8) as [H8 | H8];
    [| rewrite !andb_false_r; reflexivity].
  rewrite set_c_key_testbit by lia.
  replace (8 * j <=? n + 8 * j) with true by (symmetry; apply Z.leb_le; lia).
  replace (n + 8 * j <? 8 * j + 8) with true
    by (symmetry; apply Z.ltb_lt; lia).
  cbn [andb]. replace (n + 8 * j - 8 * j) with n by lia. reflexivity.
Qed.

(** The other bytes of the key are untouched. *)
Lemma c_key_set_other (k j j' v : Z) :
  0 <= j -> 0 <= j' -> j <> j' -> c_key (set_c_key k j v) j' = c_key k j'.
Proof.
  intros Hj Hj' Hne. apply Z.bits_inj'. intros n Hn.
  rewrite !c_key_testbit by exact Hn.
  destruct (Z.ltb_spec n 8) as [H8 | H8];
    [| rewrite !andb_false_r; reflexivity].
  rewrite set_c_key_testbit by lia.
  replace ((8 * j <=? n + 8 * j') && (n + 8 * j' <? 8 * j + 8)) with false;
    [reflexivity |].
  symmetry. apply andb_false_iff.
  destruct (Z.leb_spec (8 * j) (n + 8 * j')) as [H1 | H1];
    [right; apply Z.ltb_ge; lia | left; reflexivity].
Qed.

Lemma keys_length_pos (n : orbit_node_t) : (1 <= length (keys n))%nat.
Proof.
  destruct n; simpl; lia.
Qed.

Lemma keys_write_curr_length (r : orbit_node_t) (j v : Z) :
  length (keys (write_curr r j v)) = length (keys r).
Proof.
  induction r as [k | k nx IH]; simpl; [reflexivity | rewrite IH; reflexivity].
Qed.

Lemma nth_keys_write_curr (r : orbit_node_t) (j v : Z) (b : nat) :
  nth b (keys (write_curr r j v)) 0
  = if (S b =? length (keys r))%nat then set_c_key (nth b (keys r) 0) j v
    else nth b (keys r) 0.
Proof.
  revert b. induction r as [k | k nx IH]; intros b; simpl.
  - destruct b as [| [| b]]; reflexivity.
  - destruct b as [| b].
    + pose proof (keys_length_pos nx) as Hpos.
      destruct (length (keys nx)); [lia | reflexivity].
    + rewrite IH. reflexivity.
Qed.

Lemma keys_link_node_length (r : orbit_node_t) :
  length (keys (link_node r)) = S (length (keys r)).
Proof.
  induction r as [k | k nx IH]; simpl; [reflexivity | rewrite IH; reflexivity].
Qed.

Lemma nth_keys_link_node (r : orbit_node_t) (b : nat) :
  nth b (keys (link_node r)) 0 = nth b (keys r) 0.
Proof.
  revert b. induction r as [k | k nx IH]; intros b; simpl.
  - destruct b as [| [| [| b]]]; reflexivity.
  - destruct b as [| b]; [reflexivity | apply IH].
Qed.

Lemma node_at_key (rt n : orbit_node_t) (b : nat) :
  node_at rt b = Some n -> key n = nth b (keys rt) 0.
Proof.
  revert rt. induction b as [| b IH]; intros rt H; simpl in H.
  - injection H as <-. destruct rt; reflexivity.
  - destruct rt as [k | k nx]; [discriminate |]. simpl. apply IH. exact H.
Qed.

Lemma node_at_some (rt : orbit_node_t) (b : nat) :
  (b < length (keys rt))%nat -> exists n, node_at rt b = Some n.
Proof.
  revert rt. induction b as [| b IH]; intros rt H; simpl.
  - eauto.
  - destruct rt as [k | k nx]; simpl in H; [lia |].
    apply IH. lia.
Qed.

Lemma node_at_S (rt : orbit_node_t) (b : nat) :
  node_at rt (S b)
  = match node_at rt b with
    | Some n => next n
    | None => None
    end.
Proof.
  revert rt. induction b as [| b IH]; intros rt.
  - destruct rt; reflexivity.
  - destruct rt as [k | k nx]; [reflexivity |].
    change (node_at (Link k nx) (S (S b))) with (node_at nx (S b)).
    rewrite IH. reflexivity.
Qed.

(** The loop of [orbit_t::path] reads the cells in index order, as long as
    the chain has a block for each of them. *)
Lemma path_cells_spec (rt : orbit_node_t) (count : nat) :
  forall (i : Z) (curr : option orbit_node_t),
    0 <= i ->
    curr = (if i =? 0 then None else node_at rt (Z.to_nat ((i - 1) / 8))) ->
    i + Z.of_nat count <= 8 * Z.of_nat (length (keys rt)) ->
    path_cells count i curr rt = map (cell_at rt) (zrange i count).
Proof.
  induction count as [| c IH]; intros i curr Hi Hcurr Hlen; [reflexivity |].
  cbn [path_cells zrange map].
  rewrite Z.rem_mod_nonneg by lia.
  set (b := Z.to_nat (i / 8)).
  assert (Hb : (b < length (keys rt))%nat) by (unfold b; lia).
  destruct (node_at_some rt b Hb) as [n Hn].
  assert (Hcurr' :
    (if i mod 8 =? 0
     then match curr with Some m => next m | None => Some rt end
     else curr) = Some n).
  { rewrite <- Hn. subst curr.
    destruct (Z.eqb_spec (i mod 8) 0) as [E | E].
    - destruct (Z.eqb_spec i 0) as [E0 | E0].
      + subst i. reflexivity.
      + assert (Hb' : b = S (Z.to_nat ((i - 1) / 8))) by (unfold b; lia).
        rewrite Hb', node_at_S.
        destruct (node_at_some rt (Z.to_nat ((i - 1) / 8)) ltac:(lia))
          as [m Hm].
        rewrite Hm. reflexivity.
    - destruct (Z.eqb_spec i 0) as [E0 | E0].
      + subst i. exfalso. apply E. reflexivity.
      + unfold b. f_equal. f_equal. lia. }
  rewrite Hcurr'.
  f_equal.
  - unfold cell_at. fold b. rewrite (node_at_key _ _ _ Hn).
    f_equal. lia.
  - apply IH; [lia | | lia].
    destruct (Z.eqb_spec (i + 1) 0) as [E | E]; [lia |].
    rewrite <- Hn. unfold b. f_equal. f_equal. lia.
Qed.

Lemma cells_spec (o : orbit_t) :
  0 <= path_length o <= 8 * Z.of_nat (length (keys (root o))) ->
  cells o = map (cell_at (root o)) (zrange 0 (Z.to_nat (path_length o))).
Proof.
  intros H. unfold cells.
  apply path_cells_spec; [lia | reflexivity | lia].
Qed.

Lemma map_zrange_nth (f g : Z -> Z) (cs : list Z) (k : Z) :
  (forall j, (j < length cs)%nat -> f (k + Z.of_nat j) = g (nth j cs 0)) ->
  map f (zrange k (length cs)) = map g cs.
Proof.
  revert k. induction cs as [| c cs IH]; intros k H; [reflexivity |].
  cbn [length zrange map]. f_equal.
  - specialize (H 0%nat ltac:(simpl; lia)). simpl in H.
    rewrite Z.add_0_r in H. exact H.
  - apply IH. intros j Hj.
    specialize (H (S j) ltac:(simpl; lia)).
    replace (k + 1 + Z.of_nat j) with (k + Z.of_nat (S j)) by lia.
    exact H.
Qed.

Lemma holds_init : holds orbit_init [].
Proof.
  split; [reflexivity | split; [reflexivity |]].
  intros j Hj. simpl in Hj. lia.
Qed.

Lemma holds_append (cfg : statics) (o : orbit_t) (cs : list Z) (c : Z) :
  holds o cs -> Z.of_nat (length cs) + 1 < 2 ^ 31 ->
  holds (append cfg true c o) (cs ++ [c]).
Proof.
  intros (Hlen & Hkeys & Hcells) Hbound.
  set (n := Z.of_nat (length cs)) in *.
  assert (Hn : 0 <= n) by (unfold n; lia).
  assert (Hlast : forall j, (j < length (cs ++ [c]))%nat ->
            (j < length cs)%nat \/ j = length cs).
  { intros j. rewrite length_app. simpl. lia. }
  assert (Hnth : forall j, (j < length cs)%nat ->
            nth j (cs ++ [c]) 0 = nth j cs 0).
  { intros j Hj. apply app_nth1. exact Hj. }
  assert (Hnew : nth (length cs) (cs ++ [c]) 0 = c).
  { rewrite app_nth2 by lia. rewrite Nat.sub_diag. reflexivity. }
  unfold append. rewrite Hlen. fold n.
  rewrite Z.rem_mod_nonneg by lia.
  rewrite Hlen in Hkeys. fold n in Hkeys.
  destruct ((n mod 8 =? 0) && (n mod 8 <? n)) eqn:E.
  - (* a new block is linked *)
    apply andb_true_iff in E. destruct E as [E0 E1].
    apply Z.eqb_eq in E0. apply Z.ltb_lt in E1.
    destruct (Z.eqb_spec n 0) as [Hz | Hz]; [lia |].
    split; [| split]; cbn [path_length root].
    + rewrite wrap32_id by lia. rewrite length_app. simpl. unfold n. lia.
    + rewrite wrap32_id by lia.
      rewrite keys_write_curr_length, keys_link_node_length.
      destruct (Z.eqb_spec (n + 1) 0); lia.
    + intros j Hj. unfold cell_at.
      rewrite nth_keys_write_curr, keys_link_node_length, nth_keys_link_node.
      destruct (Hlast j Hj) as [Hold | ->].
      * rewrite Hnth by exact Hold.
        destruct (Nat.eqb_spec (S (Z.to_nat (Z.of_nat j / 8)))
                    (S (length (keys (root o))))) as [Eb | Eb]; [lia |].
        apply (Hcells j Hold).
      * rewrite Hnew. fold n.
        destruct (Nat.eqb_spec (S (Z.to_nat (n / 8)))
                    (S (length (keys (root o))))) as [Eb | Eb]; [| lia].
        replace (7 - n mod 8) with (8 - n mod 8 - 1) by lia.
        apply c_key_set_same. lia.
  - (* the cell goes into the current block *)
    apply andb_false_iff in E.
    assert (E' : n = 0 \/ n mod 8 <> 0).
    { destruct E as [E | E]; [apply Z.eqb_neq in E | apply Z.ltb_ge in E];
        lia. }
    split; [| split]; cbn [path_length root].
    + rewrite wrap32_id by lia. rewrite length_app. simpl. unfold n. lia.
    + rewrite wrap32_id by lia.
      rewrite keys_write_curr_length.
      destruct (Z.eqb_spec (n + 1) 0); [lia |].
      destruct (Z.eqb_spec n 0); lia.
    + intros j Hj. unfold cell_at.
      rewrite nth_keys_write_curr.
      destruct (Hlast j Hj) as [Hold | ->].
      * rewrite Hnth by exact Hold.
        destruct (Nat.eqb_spec (S (Z.to_nat (Z.of_nat j / 8)))
                    (length (keys (root o)))) as [Eb | Eb].
        -- rewrite c_key_set_other;
             [apply (Hcells j Hold) | | |];
             destruct (Z.eqb_spec n 0); lia.
        -- apply (Hcells j Hold).
      * rewrite Hnew. fold n.
        destruct (Nat.eqb_spec (S (Z.to_nat (n / 8)))
                    (length (keys (root o)))) as [Eb | Eb].
        -- replace (7 - n mod 8) with (8 - n mod 8 - 1) by lia.
           apply c_key_set_same. lia.
        -- destruct (Z.eqb_spec n 0); lia.
Qed.

Lemma holds_append_all (cfg : statics) (cs : list Z) :
  Z.of_nat (length cs) < 2 ^ 31 -> holds (append_all cfg cs) cs.
Proof.
  induction cs as [| c cs IH] using rev_ind; intros Hb.
  - apply holds_init.
  - unfold append_all. rewrite fold_left_app. cbn [fold_left].
    rewrite length_app in Hb. simpl in Hb.
    apply holds_append; [apply IH; lia | lia].
Qed.

(** C10. [append] stores each count in an 8-bit cell: after appending the
    counts [cs] to an empty orbit (fewer than 2^31 of them, the range of the
    [int] length), the cells that [path] reads, renders and that the
    comparisons see are the counts reduced modulo 256, in order, and the
    length is the number of counts. *)
Theorem append_stores_mod_256 (cfg : statics) (cs : list Z) :
  Z.of_nat (length cs) < 2 ^ 31 ->
  cells (append_all cfg cs) = map (fun c => c mod 256) cs /\
  path_length (append_all cfg cs) = Z.of_nat (length cs).
Proof.
  intros Hb.
  destruct (holds_append_all cfg cs Hb) as (Hlen & Hkeys & Hcells).
  split; [| exact Hlen].
  rewrite cells_spec.
  - rewrite Hlen, Nat2Z.id.
    apply (map_zrange_nth _ (fun c => c mod 256)).
    intros j Hj. rewrite Z.add_0_l. apply (Hcells j Hj).
  - rewrite Hkeys. destruct (Z.eqb_spec (path_length (append_all cfg cs)) 0);
      lia.
Qed.

(** The counts 300 and -1 are stored as 44 and 255. *)
Lemma append_stores_mod_256_witness :
  cells (append_all collatz [0; 300; -1; 4]) = [0; 44; 255; 4] /\
  path_length (append_all collatz [0; 300; -1; 4]) = 4.
Proof.
  apply (append_stores_mod_256 collatz [0; 300; -1; 4]).
  simpl. lia.
Defined.

(** ** The frequency tree *)

Section FrequencyTree.
Import BTree.

Lemma null_or_node (n : node) : n = Null \/ n <> Null.
Proof.
  destruct n; [left; reflexivity | right; discriminate].
Qed.

Lemma insert_at_unfold (key k c : Z) (l r : node) (nc : Z) :
  insert_at key (Node k c l r) nc
  = if key =? k then (Node k (wrapu64 (c + 1)) l r, nc)
    else if key >? k then
      match r with
      | Null => (Node k c l (Node key 1 Null Null), wrapu64 (nc + 1))
      | Node _ _ _ _ =>
          let '(r', nc') := insert_at key r nc in (Node k c l r', nc')
      end
    else
      match l with
      | Null => (Node k c (Node key 1 Null Null) r, wrapu64 (nc + 1))
      | Node _ _ _ _ =>
          let '(l', nc') := insert_at key l nc in (Node k c l' r, nc')
      end.
Proof.
  reflexivity.
Qed.

(** The five ways through the protected [insert]. *)
Lemma insert_at_found (k c : Z) (l r : node) (nc : Z) :
  insert_at k (Node k c l r) nc = (Node k (wrapu64 (c + 1)) l r, nc).
Proof.
  simpl. rewrite Z.eqb_refl. reflexivity.
Qed.

Lemma insert_at_right_null (key k c : Z) (l : node) (nc : Z) :
  k < key ->
  insert_at key (Node k c l Null) nc
  = (Node k c l (Node key 1 Null Null), wrapu64 (nc + 1)).
Proof.
  intros H. simpl.
  destruct (Z.eqb_spec key k); [lia |].
  rewrite Z.gtb_ltb. destruct (Z.ltb_spec k key); [reflexivity | lia].
Qed.

Lemma insert_at_right (key k c : Z) (l r : node) (nc : Z) :
  k < key -> r <> Null ->
  insert_at key (Node k c l r) nc
  = (Node k c l (fst (insert_at key r nc)), snd (insert_at key r nc)).
Proof.
  intros H Hr. rewrite insert_at_unfold.
  destruct (Z.eqb_spec key k); [lia |].
  rewrite Z.gtb_ltb. destruct (Z.ltb_spec k key); [| lia].
  destruct r as [| rk rc rl rr]; [contradiction |].
  destruct (insert_at key (Node rk rc rl rr) nc). reflexivity.
Qed.

Lemma insert_at_left_null (key k c : Z) (r : node) (nc : Z) :
  key < k ->
  insert_at key (Node k c Null r) nc
  = (Node k c (Node key 1 Null Null) r, wrapu64 (nc + 1)).
Proof.
  intros H. simpl.
  destruct (Z.eqb_spec key k); [lia |].
  rewrite Z.gtb_ltb. destruct (Z.ltb_spec k key); [lia | reflexivity].
Qed.

Lemma insert_at_left (key k c : Z) (l r : node) (nc : Z) :
  key < k -> l <> Null ->
  insert_at key (Node k c l r) nc
  = (Node k c (fst (insert_at key l nc)) r, snd (insert_at key l nc)).
Proof.
  intros H Hl. rewrite insert_at_unfold.
  destruct (Z.eqb_spec key k); [lia |].
  rewrite Z.gtb_ltb. destruct (Z.ltb_spec k key); [lia |].
  destruct l as [| lk lc ll lr]; [contradiction |].
  destruct (insert_at key (Node lk lc ll lr) nc). reflexivity.
Qed.

(** Case analysis on a call of the protected [insert]. *)
Ltac insert_cases key k l r :=
  destruct (Z.lt_total key k) as [Hlt | [Heq | Hgt]];
  [ destruct (null_or_node l) as [-> | Hnn];
    [ rewrite insert_at_left_null by exact Hlt
    | rewrite insert_at_left by assumption ]
  | subst; rewrite insert_at_found
  | destruct (null_or_node r) as [-> | Hnn];
    [ rewrite insert_at_right_null by exact Hgt
    | rewrite insert_at_right by assumption ] ].

Lemma insert_at_not_null (key : Z) (leaf : node) (nc : Z) :
  leaf <> Null -> fst (insert_at key leaf nc) <> Null.
Proof.
  destruct leaf as [| k c l r]; [contradiction |]. intros _.
  insert_cases key k l r; discriminate.
Qed.

Lemma insert_at_keys (key : Z) (leaf : node) (nc : Z) :
  leaf <> Null ->
  forall x, In x (tree_keys (fst (insert_at key leaf nc)))
            <-> x = key \/ In x (tree_keys leaf).
Proof.
  induction leaf as [| k c l IHl r IHr]; [contradiction |].
  intros _ x.
  insert_cases key k l r; cbn [fst tree_keys];
    rewrite ?in_app_iff; cbn [In]; rewrite ?in_app_iff;
    try rewrite (IHl Hnn); try rewrite (IHr Hnn); cbn [In];
    intuition congruence.
Qed.

Lemma insert_at_bst (key : Z) (leaf : node) (nc : Z) :
  leaf <> Null -> bst leaf -> bst (fst (insert_at key leaf nc)).
Proof.
  induction leaf as [| k c l IHl r IHr]; [contradiction |].
  intros _ (Hl & Hr & Bl & Br).
  insert_cases key k l r; simpl; repeat split; auto; try tauto.
  all: try (intros x [<- | []]; assumption).
  - intros x Hx. apply (insert_at_keys key l nc Hnn) in Hx.
    destruct Hx as [-> | Hx]; auto.
  - intros x Hx. apply (insert_at_keys key r nc Hnn) in Hx.
    destruct Hx as [-> | Hx]; auto.
Qed.

Lemma tree_total_nonneg (n : node) : counts_pos n -> 0 <= tree_total n.
Proof.
  induction n as [| k c l IHl r IHr]; simpl; [lia |].
  intros (Hc & Hl & Hr). specialize (IHl Hl). specialize (IHr Hr). lia.
Qed.

Lemma wrapu64_id (x : Z) : 0 <= x < 2 ^ 64 -> wrapu64 x = x.
Proof.
  intros H. unfold wrapu64. apply Z.mod_small. exact H.
Qed.

Lemma insert_at_total (key : Z) (leaf : node) (nc : Z) :
  leaf <> Null -> counts_pos leaf -> tree_total leaf + 1 < 2 ^ 64 ->
  counts_pos (fst (insert_at key leaf nc)) /\
  tree_total (fst (insert_at key leaf nc)) = tree_total leaf + 1.
Proof.
  induction leaf as [| k c l IHl r IHr]; [contradiction |].
  intros _ (Hc & Pl & Pr) Hb. cbn [tree_total] in Hb.
  pose proof (tree_total_nonneg l Pl) as Hl0.
  pose proof (tree_total_nonneg r Pr) as Hr0.
  insert_cases key k l r; cbn [fst counts_pos tree_total].
  - repeat split; auto; lia.
  - destruct (IHl Hnn Pl ltac:(lia)) as [P T]. rewrite T.
    repeat split; auto; lia.
  - rewrite wrapu64_id by lia. repeat split; auto; lia.
  - repeat split; auto; lia.
  - destruct (IHr Hnn Pr ltac:(lia)) as [P T]. rewrite T.
    repeat split; auto; lia.
Qed.

(** The counter moves exactly when the key is new, and then the tree has
    one more node. *)
Lemma insert_at_count (key : Z) (leaf : node) (nc : Z) :
  leaf <> Null -> bst leaf ->
  (In key (tree_keys leaf) /\
   snd (insert_at key leaf nc) = nc /\
   length (tree_keys (fst (insert_at key leaf nc)))
   = length (tree_keys leaf))
  \/
  (~ In key (tree_keys leaf) /\
   snd (insert_at key leaf nc) = wrapu64 (nc + 1) /\
   length (tree_keys (fst (insert_at key leaf nc)))
   = S (length (tree_keys leaf))).
Proof.
  induction leaf as [| k c l IHl r IHr]; [contradiction |].
  intros _ (Hl & Hr & Bl & Br).
  assert (Hright : key < k -> ~ In key (k :: tree_keys r)).
  { intros Hlt [E | Hin]; [lia | specialize (Hr _ Hin); lia]. }
  assert (Hleft : k < key -> ~ In key (tree_keys l)).
  { intros Hgt Hin. specialize (Hl _ Hin). lia. }
  insert_cases key k l r; cbn [fst snd tree_keys].
  - right. split; [| split; [reflexivity |]].
    + simpl. intros [E | Hin]; [lia | specialize (Hr _ Hin); lia].
    + reflexivity.
  - destruct (IHl Hnn Bl) as [(Hin & Hs & Hlen) | (Hnin & Hs & Hlen)].
    + left. split; [| split; [exact Hs |]].
      * apply in_app_iff. left. exact Hin.
      * rewrite !length_app, Hlen. reflexivity.
    + right. split; [| split; [exact Hs |]].
      * rewrite in_app_iff. intros [Hin | Hin]; [auto | exact (Hright Hlt Hin)].
      * rewrite !length_app, Hlen. reflexivity.
  - left. split; [| split; reflexivity].
    apply in_app_iff. right. left. reflexivity.
  - right. split; [| split; [reflexivity |]].
    + rewrite in_app_iff. simpl. intros [Hin | [E | []]];
        [exact (Hleft Hgt Hin) | lia].
    + rewrite !length_app. simpl. lia.
  - destruct (IHr Hnn Br) as [(Hin & Hs & Hlen) | (Hnin & Hs & Hlen)].
    + left. split; [| split; [exact Hs |]].
      * apply in_app_iff. right. right. exact Hin.
      * rewrite !length_app. simpl. rewrite Hlen. reflexivity.
    + right. split; [| split; [exact Hs |]].
      * rewrite in_app_iff. simpl.
        intros [Hin | [E | Hin]]; [exact (Hleft Hgt Hin) | lia | auto].
      * rewrite !length_app. simpl. rewrite Hlen. lia.
Qed.

Lemma bst_nodup (n : node) : bst n -> NoDup (tree_keys n).
Proof.
  induction n as [| k c l IHl r IHr]; simpl; [constructor |].
  intros (Hl & Hr & Bl & Br).
  apply NoDup_app; [auto | |].
  - constructor; [| auto].
    intros Hin. specialize (Hr _ Hin). lia.
  - intros x Hx [E | Hin].
    + specialize (Hl _ Hx). lia.
    + specialize (Hl _ Hx). specialize (Hr _ Hin). lia.
Qed.

Lemma keys_le_total (n : node) :
  counts_pos n -> Z.of_nat (length (tree_keys n)) <= tree_total n.
Proof.
  induction n as [| k c l IHl r IHr]; simpl; [lia |].
  intros (Hc & Pl & Pr). specialize (IHl Pl). specialize (IHr Pr).
  rewrite length_app. simpl. lia.
Qed.

Lemma tree_inv_empty : tree_inv zeroize [].
Proof.
  repeat split; simpl; auto.
Qed.

Lemma tree_inv_insert (t : btree) (ks : list Z) (k : Z) :
  tree_inv t ks -> Z.of_nat (length ks) + 1 < 2 ^ 63 ->
  tree_inv (insert k t) (ks ++ [k]).
Proof.
  intros (B & P & T & C & K) Hb. unfold insert.
  destruct (null_or_node (root t)) as [E | Hnn].
  - rewrite E in *. simpl in T.
    assert (ks = []) by (destruct ks; [reflexivity | simpl in T; lia]).
    subst ks. repeat split; simpl; auto; try lia.
  - destruct (root t) as [| rk rc rl rr] eqn:Er; [contradiction |].
    rewrite <- Er in *. clear Er rk rc rl rr.
    destruct (insert_at k (root t) (node_count t)) as [r' nc'] eqn:Ei.
    pose proof (insert_at_bst k (root t) (node_count t) Hnn B) as B'.
    pose proof (insert_at_keys k (root t) (node_count t) Hnn) as K'.
    destruct (insert_at_total k (root t) (node_count t) Hnn P ltac:(lia))
      as [P' T'].
    pose proof (insert_at_count k (root t) (node_count t) Hnn B) as C'.
    pose proof (keys_le_total (root t) P) as Hle.
    rewrite Ei in *. cbn [fst snd] in *.
    unfold tree_inv. cbn [root node_count].
    split; [exact B' |]. split; [exact P' |].
    split; [rewrite T', T, length_app; simpl; lia |].
    split.
    + destruct C' as [(_ & -> & ->) | (_ & -> & ->)]; [exact C |].
      rewrite wrapu64_id by lia. lia.
    + intros x. rewrite K', in_app_iff, K. simpl. intuition congruence.
Qed.

Lemma tree_inv_insert_all (ks : list Z) :
  Z.of_nat (length ks) < 2 ^ 63 -> tree_inv (insert_all ks) ks.
Proof.
  induction ks as [| k ks IH] using rev_ind; intros Hb.
  - apply tree_inv_empty.
  - unfold insert_all. rewrite fold_left_app. cbn [fold_left].
    rewrite length_app in Hb. simpl in Hb.
    apply tree_inv_insert; [apply IH; lia | lia].
Qed.

Lemma wrap64_add_l (a b : Z) : wrap64 (wrap64 a + b) = wrap64 (a + b).
Proof.
  unfold wrap64.
  replace ((a + 2 ^ 63) mod 2 ^ 64 - 2 ^ 63 + b + 2 ^ 63)
    with ((a + 2 ^ 63) mod 2 ^ 64 + b) by ring.
  rewrite Zplus_mod_idemp_l.
  replace (a + 2 ^ 63 + b) with (a + b + 2 ^ 63) by ring.
  reflexivity.
Qed.

(** The traversal adds up the counts, whatever the visitor and the
    direction. *)
Lemma traverse_sum (W : Type) (func : option (Z -> Z -> W -> W))
  (forward : bool) (n : node) :
  forall (sum : Z) (w : W),
    - 2 ^ 63 <= sum < 2 ^ 63 ->
    fst (traverse n sum func forward w) = wrap64 (sum + tree_total n).
Proof.
  induction n as [| k c l IHl r IHr]; intros sum w Hs.
  - simpl. rewrite Z.add_0_r, wrap64_id by exact Hs. reflexivity.
  - cbn [traverse tree_total]. destruct forward.
    + specialize (IHl sum w Hs).
      destruct (traverse l sum func true w) as [s1 w1]. cbn [fst] in IHl.
      rewrite IHr by apply wrap64_range.
      rewrite IHl, wrap64_add_l, <- Z.add_assoc, wrap64_add_l. f_equal. ring.
    + specialize (IHr sum w Hs).
      destruct (traverse r sum func false w) as [s1 w1]. cbn [fst] in IHr.
      rewrite IHl by apply wrap64_range.
      rewrite IHr, wrap64_add_l, <- Z.add_assoc, wrap64_add_l. f_equal. ring.
Qed.

(** C4. After any sequence of insertions into an empty tree (fewer than
    2^63 of them, the range of the [long] sum), the traversal returns the
    number of insertions, in either direction and with or without a
    visitor; the node count is at most the number of insertions, and equals
    it exactly when the inserted keys are pairwise distinct. *)
Theorem traverse_counts_insertions (ks : list Z) :
  Z.of_nat (length ks) < 2 ^ 63 ->
  (forall (W : Type) (func : option (Z -> Z -> W -> W)) (forward : bool)
          (w : W),
      fst (traverse (root (insert_all ks)) 0 func forward w)
      = Z.of_nat (length ks)) /\
  (forall (W : Type) (func : Z -> Z -> W -> W) (w : W),
      fst (constForwardIterator (insert_all ks) (Some func) w)
      = fst (constForwardIterator (insert_all ks) None tt)) /\
  nodes (insert_all ks) <= Z.of_nat (length ks) /\
  (nodes (insert_all ks) = Z.of_nat (length ks) <-> NoDup ks).
Proof.
  intros Hb.
  destruct (tree_inv_insert_all ks Hb) as (B & P & T & C & K).
  pose proof (bst_nodup _ B) as ND.
  pose proof (keys_le_total _ P) as Hle.
  assert (Hincl : incl (tree_keys (root (insert_all ks))) ks).
  { intros x Hx. apply K. exact Hx. }
  assert (Hincl' : incl ks (tree_keys (root (insert_all ks)))).
  { intros x Hx. apply K. exact Hx. }
  pose proof (NoDup_incl_length ND Hincl) as Hlen.
  assert (Hsum : forall (W : Type) (func : option (Z -> Z -> W -> W))
                        (forward : bool) (w : W),
             fst (traverse (root (insert_all ks)) 0 func forward w)
             = Z.of_nat (length ks)).
  { intros W func forward w.
    rewrite traverse_sum by lia.
    rewrite T, wrap64_id by lia. reflexivity. }
  split; [exact Hsum |].
  split; [intros W func w; unfold constForwardIterator; rewrite !Hsum;
          reflexivity |].
  unfold nodes. rewrite C, wrap64_id by lia.
  split; [lia |].
  split.
  - intros E. apply (NoDup_incl_NoDup ND); [lia | exact Hincl].
  - intros NDk. pose proof (NoDup_incl_length NDk Hincl'). lia.
Qed.

(** Six insertions of three distinct keys. *)
Lemma traverse_counts_insertions_witness :
  fst (constForwardIterator (insert_all [3; 1; 3; 5; 1; 3])
         (Some (fun k c w => (k, c) :: w)) []) = 6 /\
  fst (constReverseIterator (insert_all [3; 1; 3; 5; 1; 3]) None tt) = 6 /\
  nodes (insert_all [3; 1; 3; 5; 1; 3]) = 3.
Proof.
  pose proof (traverse_counts_insertions [3; 1; 3; 5; 1; 3]) as H.
  destruct (H ltac:(simpl; lia)) as (Hsum & _ & _ & _).
  split; [apply (Hsum _ (Some (fun k c w => (k, c) :: w)) true []) |].
  split; [apply (Hsum unit None false tt) | reflexivity].
Defined.

End FrequencyTree.

(** ** Overflow in the loop of [setpath] *)

Lemma sgn_quot2 (x : Z) :
  x <> 0 -> Z.rem x 2 = 0 -> sgn (Z.quot x 2) = sgn x /\ Z.quot x 2 <> 0.
Proof.
  intros Hx Hr. unfold sgn.
  destruct (Z.ltb_spec 0 (Z.quot x 2)), (Z.gtb_spec 0 (Z.quot x 2)),
    (Z.ltb_spec 0 x), (Z.gtb_spec 0 x); lia.
Qed.

Lemma sgn_zero (x : Z) : sgn x = 0 <-> x = 0.
Proof.
  unfold sgn. destruct (Z.ltb_spec 0 x), (Z.gtb_spec 0 x); lia.
Qed.

Lemma Prem2_small (d : domain) (x : Z) : Prem d x 2 = Z.rem x 2.
Proof.
  unfold Prem. apply wrap_id.
  destruct d; simpl; [lia | trivial].
Qed.

(** [factor] keeps the sign of a non-zero value, and keeps it non-zero and
    in the domain. *)
Lemma factor_loop_sign (cfg : statics) (d : domain) (start : Z) :
  divisor cfg = 2 ->
  forall (fuel : nat) (branch facts leg cur : Z),
    in_range d branch -> branch <> 0 ->
    factor_loop fuel cfg d branch start facts = Some (leg, cur) ->
    sgn cur = sgn branch /\ in_range d cur /\ cur <> 0.
Proof.
  intros HD.
  induction fuel as [| fuel IH]; intros branch facts leg cur Hr Hnz H;
    simpl in H; [discriminate |].
  rewrite HD, Prem2_small in H. unfold Pdiv in H.
  destruct (Z.eqb_spec (Z.rem branch 2) 0) as [E | E].
  - rewrite (wrap_id _ _ (in_range_quot2 d branch Hr)) in H.
    destruct (sgn_quot2 branch Hnz E) as [Hs Hq].
    destruct (Pabs d (Z.quot branch 2) <? Pabs d start).
    + injection H as _ <-.
      split; [exact Hs | split; [apply in_range_quot2; exact Hr | exact Hq]].
    + destruct (IH _ _ _ _ (in_range_quot2 d branch Hr) Hq H)
        as (Hs' & Hr' & Hq').
      split; [congruence | split; assumption].
  - injection H as _ <-. split; [reflexivity | split; assumption].
Qed.

(** Taking the body of the loop apart when it asks for another pass. *)
Lemma loop_body_again (cfg : statics) (d : domain) (fuel : nat)
  (start mf : Z) (p p' : t_path) (cur cur' : Z) :
  loop_body fuel cfg d start mf p cur = Some (Again p' cur') ->
  int_sign p = sgn (connection cfg d cur) /\
  int_sign p' = int_sign p /\
  exists leg, factor fuel cfg d (connection cfg d cur) start = Some (leg, cur').
Proof.
  unfold loop_body, sign. intros H.
  destruct (Z.eqb_spec (int_sign p) (sgn (connection cfg d cur))) as [E | E];
    simpl in H; [| discriminate].
  destruct (factor fuel cfg d (connection cfg d cur) start)
    as [[leg c'] |]; [| discriminate].
  destruct (speed cfg && _); [discriminate |].
  destruct (Pabs d c' >? Pabs d start); [| discriminate].
  injection H as <- <-.
  split; [exact E | split; [| exists leg; reflexivity]].
  destruct (connection cfg d cur >? max_int p); reflexivity.
Qed.

(** At the top of the loop body the current value has the sign recorded for
    the start, is a non-zero value of the domain, and the start is not 0. *)
Lemma loop_head_inv (cfg : statics) (d : domain) (start mf : Z)
  (p : t_path) (cur : Z) :
  divisor cfg = 2 -> in_range d start ->
  loop_head cfg d start mf p cur ->
  int_sign p = sgn start /\ sgn cur = sgn start /\
  in_range d cur /\ cur <> 0 /\ start <> 0.
Proof.
  intros HD Hr H.
  induction H as [Hodd | fuel p cur p' cur' _ IH Hbody].
  - assert (Hnz : start <> 0).
    { intros ->. rewrite HD, Prem2_small in Hodd. discriminate. }
    repeat split; auto.
  - destruct IH as (Hs & Hc & Hrc & Hnzc & Hnz).
    destruct (loop_body_again _ _ _ _ _ _ _ _ _ Hbody)
      as (Hsign & Hkeep & leg & Hf).
    assert (Hconn : connection cfg d cur <> 0).
    { intros E. rewrite E in Hsign.
      assert (Hz : sgn start = 0) by (rewrite <- Hs, Hsign; reflexivity).
      apply (proj1 (sgn_zero start)) in Hz. contradiction. }
    destruct (factor_loop_sign cfg d start HD _ _ _ _ _
                (connection_in_range cfg d cur) Hconn Hf)
      as (Hs' & Hr' & Hnz').
    repeat split; auto; congruence.
Qed.

(** A result of the loop from a state it reaches is a result of the loop
    from its first pass. *)
Lemma do_while_from_head (cfg : statics) (d : domain) (start mf : Z)
  (p : t_path) (cur : Z) :
  loop_head cfg d start mf p cur ->
  forall (f : nat) (r : outcome),
    do_while f cfg d start mf p cur = Some r ->
    exists f0 : nat, forall fuel, (f0 <= fuel)%nat ->
      do_while fuel cfg d start mf (first_pass cfg start) start = Some r.
Proof.
  intros H.
  induction H as [Hodd | fuel p cur p' cur' _ IH Hbody]; intros f r Hr.
  - exists f. intros fuel Hf. exact (do_while_mono _ _ _ _ _ _ _ _ _ Hr Hf).
  - apply (IH (S (Nat.max f fuel))).
    cbn [do_while].
    rewrite (loop_body_mono _ _ _ (Nat.max f fuel) _ _ _ _ _ Hbody)
      by lia.
    apply (do_while_mono _ _ f); [exact Hr | lia].
Qed.

(** C5. With the divisor 2, whenever the loop of [setpath] is at the top of
    its body and the connection of the current value has another sign than
    the current value, the pass sets the overflow bit of the error mask,
    keeps the current value and leaves the loop, the orbit and the totals
    being as they were; and [setpath] then returns a path object with that
    flag, that orbit, that path-factor total and that maximum. *)
Theorem overflow_leaves_loop (cfg : statics) (d : domain) (start mf : Z)
  (p : t_path) (cur : Z) :
  divisor cfg = 2 -> in_range d start ->
  loop_head cfg d start mf p cur ->
  sgn (connection cfg d cur) <> sgn cur ->
  (forall fuel,
      loop_body fuel cfg d start mf p cur
      = Some (Leave (set_error_mask p (Z.lor (error_mask p) (overflow cfg)))
                cur)) /\
  exists f0 : nat, forall fuel, (f0 <= fuel)%nat ->
    exists q, setpath fuel cfg d start mf = Some q
              /\ error_mask q = Z.lor (error_mask p) (overflow cfg)
              /\ orb q = orb p /\ path_factors q = path_factors p
              /\ max_int q = max_int p.
Proof.
  intros HD Hr Hhead Hflip.
  destruct (loop_head_inv _ _ _ _ _ _ HD Hr Hhead)
    as (Hs & Hc & Hrc & Hnzc & Hnz).
  assert (Hbody : forall fuel,
      loop_body fuel cfg d start mf p cur
      = Some (Leave (set_error_mask p (Z.lor (error_mask p) (overflow cfg)))
                cur)).
  { intros fuel. unfold loop_body, sign.
    destruct (Z.eqb_spec (int_sign p) (sgn (connection cfg d cur)))
      as [E | E]; [exfalso; apply Hflip; congruence | reflexivity]. }
  split; [exact Hbody |].
  set (p1 := set_error_mask p (Z.lor (error_mask p) (overflow cfg))) in *.
  assert (Hdw : do_while 1 cfg d start mf p cur = Some (Leave p1 cur)).
  { cbn [do_while]. rewrite Hbody. reflexivity. }
  destruct (do_while_from_head _ _ _ _ _ _ Hhead _ _ Hdw) as [f1 H1].
  destruct (finish_ends cfg d start p1 cur HD Hr Hrc (fun _ => Hnz))
    as [f2 H2].
  exists (Nat.max f1 f2). intros fuel Hf.
  destruct (H2 fuel ltac:(lia)) as (q & Hq & Ho & Hpf & Hm & He & _).
  exists q. split; [| auto].
  unfold setpath.
  assert (Hodd : (Prem d start (divisor cfg) =? 0) = false).
  { rewrite HD, Prem2_small.
    clear - Hhead HD. induction Hhead as [Hodd | ]; [| assumption].
    rewrite HD, Prem2_small in Hodd. exact Hodd. }
  rewrite Hodd.
  change (set_orb (set_max_int (init start) start)
            (append cfg true 0 (orb (set_max_int (init start) start))))
    with (first_pass cfg start).
  rewrite (H1 fuel ltac:(lia)). exact Hq.
Qed.

(** The start 3000000000000000003 passes once through the loop, to
    4500000000000000005, whose connection wraps to a negative value. *)
Lemma overflow_leaves_loop_witness :
  exists p,
    loop_head collatz Int64 3000000000000000003 0 p 4500000000000000005 /\
    cells (orb p) = [0; 1] /\
    sgn (connection collatz Int64 4500000000000000005) = -1 /\
    exists f0 : nat, forall fuel, (f0 <= fuel)%nat ->
      exists q, setpath fuel collatz Int64 3000000000000000003 0 = Some q
                /\ error_mask q = Z.lor (error_mask p) 1
                /\ orb q = orb p /\ path_factors q = path_factors p
                /\ max_int q = max_int p.
Proof.
  assert (H : exists p,
    loop_head collatz Int64 3000000000000000003 0 p 4500000000000000005 /\
    cells (orb p) = [0; 1]).
  { eexists. split.
    - eapply (head_again collatz Int64 _ _ 5).
      + apply head_first. reflexivity.
      + vm_compute. reflexivity.
    - reflexivity. }
  destruct H as (p & Hhead & Hcells).
  exists p. split; [exact Hhead |]. split; [exact Hcells |].
  split; [reflexivity |].
  refine (proj2 (overflow_leaves_loop collatz Int64 3000000000000000003 0 p
                   4500000000000000005 _ _ Hhead _)).
  - reflexivity.
  - simpl. lia.
  - vm_compute. discriminate.
Defined.

(** ** Parsing *)

Lemma sign_test (c : ascii) :
  (char_val c =? char_val "+") = (c =? "+")%char /\
  (char_val c =? char_val "-") = (c =? "-")%char.
Proof.
  destruct c as [[] [] [] [] [] [] [] []]; split; reflexivity.
Qed.

Lemma first_symbol_test (c : ascii) :
  match first_symbol c with
  | Some v =>
      (char_val c <? char_val "0") || (char_val c >? char_val "5") = false
      /\ char_val c - char_val "0" = v /\ 0 <= v <= 5
  | None =>
      (char_val c <? char_val "0") || (char_val c >? char_val "5") = true
  end.
Proof.
  destruct c as [[] [] [] [] [] [] [] []]; cbv;
    repeat split; congruence.
Qed.

Lemma later_symbol_test (c : ascii) :
  match later_symbol c with
  | Some true => (char_val c =? char_val "1") = true
  | Some false =>
      (char_val c =? char_val "1") = false /\
      (char_val c =? char_val "0") = true
  | None =>
      (char_val c =? char_val "1") = false /\
      (char_val c =? char_val "0") = false
  end.
Proof.
  destruct c as [[] [] [] [] [] [] [] []]; cbv; repeat split.
Qed.

Lemma pow2_succ (j : Z) : 0 <= j -> 2 ^ (j + 1) = 2 * 2 ^ j.
Proof.
  intros Hj. rewrite Z.pow_add_r by lia. lia.
Qed.

Lemma pow2_le_59 (j : Z) : 0 <= j <= 59 -> 1 <= 2 ^ j <= 2 ^ 59.
Proof.
  intros Hj. split.
  - pose proof (Z.pow_pos_nonneg 2 j ltac:(lia) ltac:(lia)). lia.
  - apply Z.pow_le_mono_r; lia.
Qed.

Lemma parse_inv_cases (j mult : Z) (rollover : bool) (local : Z) :
  0 <= j -> parse_inv Int64 j mult rollover local ->
  (j <= 59 /\ mult = 6 * 2 ^ j /\ rollover = false /\
   0 <= local < 6 * 2 ^ j /\ 1 <= 2 ^ j <= 2 ^ 59) \/
  (j = 60 /\ mult = 6 * 2 ^ 60 /\ rollover = false /\
   0 <= local < 6 * 2 ^ 60) \/
  (60 < j /\ rollover = true /\ 0 <= local < 6 * 2 ^ 60).
Proof.
  intros Hj (Hl & Hm).
  destruct (Z.leb_spec j 60) as [H60 | H60].
  - rewrite Z.min_l in Hl by lia. destruct Hm as [Hm Hro].
    destruct (Z.eq_dec j 60) as [-> | Hne].
    + right. left. repeat split; auto; lia.
    + left. pose proof (pow2_le_59 j ltac:(lia)).
      repeat split; auto; lia.
  - rewrite Z.min_r in Hl by lia. right. right. repeat split; auto; lia.
Qed.

(** The rollover flag after the test at position [j]. *)
Lemma parse_inv_rollover (d : domain) (j mult : Z) (rollover : bool)
  (local : Z) :
  0 <= j -> parse_inv d j mult rollover local ->
  (if Pabs d (Pmul d mult 2) <? mult then true else rollover)
  = negb (fits d j).
Proof.
  intros Hj H. destruct d.
  - destruct (parse_inv_cases _ _ _ _ Hj H)
      as [(H59 & -> & -> & Hl & Hx) | [(-> & -> & -> & Hl) | (H61 & -> & Hl)]].
    + unfold Pabs, Pmul, wrap, fits.
      rewrite (wrap64_id (6 * 2 ^ j * 2)) by lia.
      rewrite wrap64_id by lia.
      destruct (Z.ltb_spec (Z.abs (6 * 2 ^ j * 2)) (6 * 2 ^ j)); [lia |].
      destruct (Z.ltb_spec j 60); [reflexivity | lia].
    + reflexivity.
    + unfold fits. destruct (Z.ltb_spec j 60); [lia |].
      destruct (Pabs Int64 (Pmul Int64 mult 2) <? mult); reflexivity.
  - destruct H as (-> & -> & Hl). unfold Pabs, Pmul, wrap, fits.
    pose proof (Z.pow_pos_nonneg 2 j ltac:(lia) Hj).
    destruct (Z.ltb_spec (Z.abs (6 * 2 ^ j * 2)) (6 * 2 ^ j));
      [lia | reflexivity].
Qed.

(** After a ['0'] at position [j]. *)
Lemma parse_inv_zero (d : domain) (j mult : Z) (rollover : bool)
  (local : Z) :
  0 <= j -> parse_inv d j mult rollover local ->
  parse_inv d (j + 1) (Pmul d mult 2) (negb (fits d j)) local.
Proof.
  intros Hj H. destruct d.
  - destruct (parse_inv_cases _ _ _ _ Hj H)
      as [(H59 & -> & -> & Hl & Hx) | [(-> & -> & -> & Hl) | (H61 & -> & Hl)]];
      unfold parse_inv, fits.
    + rewrite Z.min_l by lia. rewrite pow2_succ by lia.
      split; [lia |].
      destruct (Z.leb_spec (j + 1) 60); [| lia].
      destruct (Z.ltb_spec j 60); [| lia].
      split; [| reflexivity].
      unfold Pmul, wrap. rewrite wrap64_id by lia. lia.
    + split; [exact Hl | reflexivity].
    + rewrite Z.min_r by lia.
      split; [exact Hl |].
      destruct (Z.leb_spec (j + 1) 60); [lia |].
      destruct (Z.ltb_spec j 60); [lia | reflexivity].
  - destruct H as (-> & -> & Hl). unfold parse_inv, fits, Pmul, wrap.
    rewrite pow2_succ by lia. repeat split; [lia | exact Hl].
Qed.

(** After a ['1'] at a position [j] whose weight fits. *)
Lemma parse_inv_one (d : domain) (j mult : Z) (rollover : bool)
  (local : Z) :
  0 <= j -> parse_inv d j mult rollover local -> fits d j = true ->
  Padd d local mult = local + 6 * 2 ^ j /\
  parse_inv d (j + 1) (Pmul d mult 2) false (local + 6 * 2 ^ j).
Proof.
  intros Hj H Hfit. destruct d.
  - unfold fits in Hfit. apply Z.ltb_lt in Hfit.
    destruct (parse_inv_cases _ _ _ _ Hj H)
      as [(H59 & -> & -> & Hl & Hx) | [(-> & _) | (H61 & _)]]; try lia.
    unfold Padd, Pmul, wrap, parse_inv.
    rewrite !wrap64_id by lia.
    split; [reflexivity |].
    rewrite Z.min_l by lia. rewrite pow2_succ by lia.
    split; [lia |].
    destruct (Z.leb_spec (j + 1) 60); [| lia].
    split; [lia | reflexivity].
  - destruct H as (-> & -> & Hl). unfold Padd, Pmul, wrap, parse_inv.
    split; [reflexivity |].
    rewrite pow2_succ by lia.
    pose proof (Z.pow_pos_nonneg 2 j ltac:(lia) Hj).
    repeat split; lia.
Qed.

(** The final [return local * eq_sign]. *)
Lemma parse_inv_end (d : domain) (j mult : Z) (rollover : bool)
  (local eq_sign : Z) :
  0 <= j -> parse_inv d j mult rollover local ->
  eq_sign = 1 \/ eq_sign = -1 ->
  Pmul d local eq_sign = eq_sign * local.
Proof.
  intros Hj H Hs. unfold Pmul. rewrite Z.mul_comm. apply wrap_id.
  destruct d; [| exact I].
  destruct (parse_inv_cases _ _ _ _ Hj H)
    as [(H59 & _ & _ & Hl & Hx) | [(_ & _ & _ & Hl) | (_ & _ & Hl)]];
    simpl; destruct Hs as [-> | ->]; lia.
Qed.

Lemma char_at_head (input rest : string) (pos : Z) (c : ascii) (r : string) :
  0 <= pos ->
  (forall i, String.get i (String c r)
             = String.get (Z.to_nat pos + i) input) ->
  char_at input pos = c /\
  forall i, String.get i r = String.get (Z.to_nat (pos + 1) + i) input.
Proof.
  intros Hp H. split.
  - unfold char_at. specialize (H 0%nat). rewrite Nat.add_0_r in H.
    rewrite <- H. reflexivity.
  - intros i. specialize (H (S i)). simpl in H. rewrite H.
    f_equal. lia.
Qed.

(** The loop of [parse] computes the weighted sum of the later symbols. *)
Lemma parse_loop_spec (d : domain) (input : string) (eq_sign : Z) :
  eq_sign = 1 \/ eq_sign = -1 ->
  forall (rest : string) (pos j local mult : Z) (rollover : bool),
    0 <= pos -> 0 <= j ->
    (forall i, String.get i rest = String.get (Z.to_nat pos + i) input) ->
    parse_inv d j mult rollover local ->
    parse_loop (String.length rest) d input pos eq_sign local mult rollover
    = match later_sum d rest j with
      | None => 0
      | Some s => eq_sign * (local + s)
      end.
Proof.
  intros Hs.
  induction rest as [| c r IH]; intros pos j local mult rollover Hp Hj Hget H.
  - simpl. rewrite Z.add_0_r. exact (parse_inv_end _ _ _ _ _ _ Hj H Hs).
  - cbn [String.length parse_loop later_sum].
    destruct (char_at_head input r pos c r Hp Hget) as [Hc Hget'].
    rewrite Hc, (parse_inv_rollover _ _ _ _ _ Hj H).
    pose proof (later_symbol_test c) as Hsym.
    destruct (later_symbol c) as [[|] |].
    + rewrite Hsym.
      destruct (fits d j) eqn:Hfit; [| reflexivity].
      cbn [negb].
      destruct (parse_inv_one _ _ _ _ _ Hj H Hfit) as [Hadd Hinv].
      rewrite Hadd.
      rewrite (IH (pos + 1) (j + 1) _ _ _ ltac:(lia) ltac:(lia) Hget' Hinv).
      destruct (later_sum d r (j + 1)); [f_equal; ring | reflexivity].
    + destruct Hsym as [H1 H0]. rewrite H1, H0. cbn [negb].
      apply (IH (pos + 1) (j + 1) _ _ _ ltac:(lia) ltac:(lia) Hget').
      exact (parse_inv_zero _ _ _ _ _ Hj H).
    + destruct Hsym as [H1 H0]. rewrite H1, H0. reflexivity.
Qed.

Lemma parse_tail (d : domain) (input : string) (pos eq_sign : Z) (c : ascii)
  (rest : string) :
  0 <= pos -> eq_sign = 1 \/ eq_sign = -1 ->
  (forall i, String.get i rest = String.get (Z.to_nat pos + i) input) ->
  (if (char_val c <? char_val "0") || (char_val c >? char_val "5") then 0
   else parse_loop (String.length rest) d input pos eq_sign
          (char_val c - char_val "0") 6 false)
  = match first_symbol c with
    | None => 0
    | Some v =>
        match later_sum d rest 0 with
        | None => 0
        | Some s => eq_sign * (v + s)
        end
    end.
Proof.
  intros Hp Hs Hget.
  pose proof (first_symbol_test c) as Hc.
  destruct (first_symbol c) as [v |]; [| rewrite Hc; reflexivity].
  destruct Hc as (-> & -> & Hv).
  apply (parse_loop_spec d input eq_sign Hs rest pos 0); try lia;
    [exact Hget |].
  destruct d; simpl; repeat split; try lia; reflexivity.
Qed.

(** C6. [parse] computes the value of an equivalence-class string as the
    specification words it ([class_value]): an optional leading ['+'] or
    ['-'], a first symbol in ['0'..'5'], later symbols ['0'] or ['1']
    weighing [6 * 2 ^ j] at position [j]; the result is zero when the first
    symbol is out of range (or missing), when a later symbol is neither
    ['0'] nor ['1'], and when a ['1'] stands at a position where the
    doubling of the multiplier has overflowed (position 60 or later in the
    64-bit domain, never with arbitrary precision). *)
Theorem parse_refines (d : domain) (input : string) :
  parse collatz d input = class_value d input.
Proof.
  destruct input as [| c r]; [destruct d; reflexivity |].
  unfold parse, class_value, is_signed.
  change (char_at (String c r) 0) with c.
  destruct (sign_test c) as [-> ->].
  replace (wrap d (wrap32 (multiplier collatz * divisor collatz))) with 6
    by (destruct d; reflexivity).
  destruct (Ascii.eqb_spec c "+") as [-> | Hp];
    [| destruct (Ascii.eqb_spec c "-") as [-> | Hm]];
    cbn [Datatypes.orb]; cbv beta iota zeta.
  - change ("+" =? "-")%char with false. cbv beta iota.
    destruct r as [| c2 rest]; [reflexivity |].
    change (char_at (String "+" (String c2 rest)) (0 + 1)) with c2.
    replace (Z.to_nat
               (Z.of_nat (String.length (String "+" (String c2 rest)))
                - 1 - 1))
      with (String.length rest) by (cbn [String.length]; lia).
    apply parse_tail; [lia | left; reflexivity | intros i; reflexivity].
  - destruct r as [| c2 rest]; [reflexivity |].
    change (char_at (String "-" (String c2 rest)) (0 + 1)) with c2.
    replace (Z.to_nat
               (Z.of_nat (String.length (String "-" (String c2 rest)))
                - 1 - 1))
      with (String.length rest) by (cbn [String.length]; lia).
    apply parse_tail; [lia | right; reflexivity | intros i; reflexivity].
  - replace (Z.to_nat (Z.of_nat (String.length (String c r)) - 1))
      with (String.length r) by (cbn [String.length]; lia).
    apply parse_tail; [lia | left; reflexivity | intros i; reflexivity].
Qed.

(** The class of 23, a negative class, the rejected strings, and a ['1'] at
    the first position whose weight no longer fits. *)
Example parse_examples :
  parse collatz Int64 "+51100" = 23 /\
  parse collatz Int64 "-3011101" = -279 /\
  parse collatz Int64 "" = 0 /\
  parse collatz Int64 "6" = 0 /\
  parse collatz Int64 "502" = 0 /\
  parse collatz Int64
    "50000000000000000000000000000000000000000000000000000000000001" = 0 /\
  parse collatz Mpz
    "50000000000000000000000000000000000000000000000000000000000001"
  = 5 + 6 * 2 ^ 60.
Proof.
  repeat split; vm_compute; reflexivity.
Qed.

(* ================================================================== *)
(** * Part IV: further properties of the sources                       *)
(* ================================================================== *)

(** ** Searching and traversing the frequency tree *)

Section FrequencyTreeLookup.
Import BTree.

Ltac insert_split key k l r :=
  destruct (Z.lt_total key k) as [Hlt | [Heq | Hgt]];
  [ destruct (null_or_node l) as [-> | Hnn];
    [ rewrite insert_at_left_null by exact Hlt
    | rewrite insert_at_left by assumption ]
  | subst; rewrite insert_at_found
  | destruct (null_or_node r) as [-> | Hnn];
    [ rewrite insert_at_right_null by exact Hgt
    | rewrite insert_at_right by assumption ] ].

Lemma search_count_at (k : Z) (t : btree) :
  search k t = wrap64 (count_at k (root t)).
Proof.
  unfold search.
  induction (root t) as [| x c l IHl r IHr]; [reflexivity |].
  simpl. destruct (k =? x); [reflexivity |].
  destruct (k <? x); assumption.
Qed.

(** An insertion adds one to the count of its key and leaves the counts of
    the other keys alone. *)
Lemma insert_at_count_at (key k : Z) (leaf : node) (nc : Z) :
  leaf <> Null -> counts_pos leaf -> tree_total leaf + 1 < 2 ^ 64 ->
  count_at k (fst (insert_at key leaf nc))
  = count_at k leaf + (if k =? key then 1 else 0).
Proof.
  induction leaf as [| x c l IHl r IHr]; [contradiction |].
  intros _ (Hc & Pl & Pr) Hb. cbn [tree_total] in Hb.
  pose proof (tree_total_nonneg l Pl) as Hl0.
  pose proof (tree_total_nonneg r Pr) as Hr0.
  insert_split key x l r; cbn [fst count_at].
  - destruct (Z.eqb_spec k x), (Z.eqb_spec k key), (Z.ltb_spec k x),
      (Z.ltb_spec k key); lia.
  - rewrite (IHl Hnn Pl) by lia.
    destruct (Z.eqb_spec k x), (Z.eqb_spec k key), (Z.ltb_spec k x); lia.
  - rewrite wrapu64_id by lia.
    destruct (Z.eqb_spec k x); lia.
  - destruct (Z.eqb_spec k x), (Z.eqb_spec k key), (Z.ltb_spec k x),
      (Z.ltb_spec k key); lia.
  - rewrite (IHr Hnn Pr) by lia.
    destruct (Z.eqb_spec k x), (Z.eqb_spec k key), (Z.ltb_spec k x); lia.
Qed.

Lemma count_at_insert_all (ks : list Z) (k : Z) :
  Z.of_nat (length ks) < 2 ^ 63 ->
  count_at k (root (insert_all ks)) = Z.of_nat (count_occ Z.eq_dec ks k).
Proof.
  induction ks as [| x ks IH] using rev_ind; intros Hb; [reflexivity |].
  rewrite length_app in Hb. simpl in Hb.
  specialize (IH ltac:(lia)).
  destruct (tree_inv_insert_all ks ltac:(lia)) as (B & P & T & C & K).
  rewrite count_occ_app. cbn [count_occ].
  unfold insert_all in *. rewrite fold_left_app. cbn [fold_left].
  set (t := fold_left (fun t k => insert k t) ks zeroize) in *.
  unfold insert.
  destruct (null_or_node (root t)) as [E | Hnn].
  - rewrite E in *. simpl in IH. cbn [root count_at].
    destruct (Z.eq_dec x k) as [-> | Hne].
    + rewrite Z.eqb_refl. simpl. lia.
    + destruct (Z.eqb_spec k x); [congruence |].
      destruct (k <? x); simpl; lia.
  - destruct (root t) as [| rk rc rl rr] eqn:Er; [contradiction |].
    rewrite <- Er in *.
    pose proof (insert_at_count_at x k (root t) (node_count t) Hnn P
                  ltac:(lia)) as Hins.
    destruct (insert_at x (root t) (node_count t)) as [r' nc']. cbn [fst] in Hins.
    cbn [root]. rewrite Hins, IH.
    destruct (Z.eq_dec x k) as [-> | Hne].
    + rewrite Z.eqb_refl. simpl. lia.
    + destruct (Z.eqb_spec k x); [congruence | simpl; lia].
Qed.

(** X1. [search] after any run of insertions into an empty tree (fewer than
    2^63 of them) returns the number of times the key was inserted, hence 0
    for a key never inserted and for every key of the empty tree. *)
Theorem search_counts_occurrences (ks : list Z) (k : Z) :
  Z.of_nat (length ks) < 2 ^ 63 ->
  search k (insert_all ks) = Z.of_nat (count_occ Z.eq_dec ks k) /\
  (~ In k ks -> search k (insert_all ks) = 0).
Proof.
  intros Hb.
  assert (H : search k (insert_all ks) = Z.of_nat (count_occ Z.eq_dec ks k)).
  { rewrite search_count_at, count_at_insert_all by exact Hb.
    apply wrap64_id.
    pose proof (count_occ_bound Z.eq_dec k ks). lia. }
  split; [exact H |].
  intros Hnin. rewrite H.
  rewrite (proj1 (count_occ_not_In Z.eq_dec ks k) Hnin). reflexivity.
Qed.

Lemma search_counts_occurrences_witness :
  search 3 (insert_all [3; 1; 3; 5; 1; 3]) = 3 /\
  search 4 (insert_all [3; 1; 3; 5; 1; 3]) = 0.
Proof.
  destruct (search_counts_occurrences [3; 1; 3; 5; 1; 3] 3 ltac:(simpl; lia))
    as [H3 _].
  destruct (search_counts_occurrences [3; 1; 3; 5; 1; 3] 4 ltac:(simpl; lia))
    as [_ H4].
  split; [exact H3 | apply H4].
  simpl. intros [H | [H | [H | [H | [H | [H | []]]]]]]; discriminate.
Defined.

Lemma entries_keys (n : node) : map fst (entries n) = tree_keys n.
Proof.
  induction n as [| k c l IHl r IHr]; simpl; [reflexivity |].
  rewrite map_app. simpl. rewrite IHl, IHr. reflexivity.
Qed.

Lemma sorted_app (l r : list Z) (k : Z) :
  StronglySorted Z.lt l -> StronglySorted Z.lt r ->
  (forall x, In x l -> x < k) -> (forall x, In x r -> k < x) ->
  StronglySorted Z.lt (l ++ k :: r).
Proof.
  intros Sl Sr Hl Hr.
  induction l as [| a l IH]; simpl.
  - constructor; [exact Sr |]. apply Forall_forall. exact Hr.
  - inversion Sl as [| a' l' Sl' Ha]; subst.
    constructor.
    + apply IH; [exact Sl' |]. intros x Hx. apply Hl. right. exact Hx.
    + apply Forall_forall. intros x Hx.
      apply in_app_iff in Hx. destruct Hx as [Hx | [<- | Hx]].
      * rewrite Forall_forall in Ha. apply Ha. exact Hx.
      * apply Hl. left. reflexivity.
      * specialize (Hl a (or_introl eq_refl)). specialize (Hr x Hx). lia.
Qed.

Lemma bst_sorted (n : node) : bst n -> StronglySorted Z.lt (tree_keys n).
Proof.
  induction n as [| k c l IHl r IHr]; simpl; [constructor |].
  intros (Hl & Hr & Bl & Br). apply sorted_app; auto.
Qed.

(** The pairs of a search tree carry the counts that the search finds. *)
Lemma entries_count_at (n : node) (k c : Z) :
  bst n -> In (k, c) (entries n) -> c = count_at k n.
Proof.
  induction n as [| x cx l IHl r IHr]; simpl; [contradiction |].
  intros (Hl & Hr & Bl & Br) Hin.
  apply in_app_iff in Hin. destruct Hin as [Hin | [E | Hin]].
  - assert (Hk : k < x).
    { apply Hl. rewrite <- entries_keys. apply (in_map fst _ _ Hin). }
    destruct (Z.eqb_spec k x); [lia |].
    destruct (Z.ltb_spec k x); [auto | lia].
  - injection E as -> ->. rewrite Z.eqb_refl. reflexivity.
  - assert (Hk : x < k).
    { apply Hr. rewrite <- entries_keys. apply (in_map fst _ _ Hin). }
    destruct (Z.eqb_spec k x); [lia |].
    destruct (Z.ltb_spec k x); [lia | auto].
Qed.

(** What a traversal does to the visitor's state: the visitor is applied to
    the pairs in key order going forward, in the opposite order going
    backward. *)
Lemma traverse_visits (W : Type) (f : Z -> Z -> W -> W) (n : node) :
  forall (sum : Z) (w : W),
    snd (traverse n sum (Some f) true w)
    = fold_left (fun w e => f (fst e) (wrap64 (snd e)) w) (entries n) w /\
    snd (traverse n sum (Some f) false w)
    = fold_left (fun w e => f (fst e) (wrap64 (snd e)) w)
        (rev (entries n)) w.
Proof.
  induction n as [| k c l IHl r IHr]; intros sum w; [split; reflexivity |].
  cbn [traverse entries]. split.
  - destruct (IHl sum w) as [Hl _].
    destruct (traverse l sum (Some f) true w) as [s1 w1]. cbn [snd] in Hl.
    destruct (IHr (wrap64 (s1 + c)) (f k (wrap64 c) w1)) as [Hr _].
    rewrite Hr, fold_left_app. cbn [fold_left fst snd]. rewrite Hl.
    reflexivity.
  - destruct (IHr sum w) as [_ Hr].
    destruct (traverse r sum (Some f) false w) as [s1 w1]. cbn [snd] in Hr.
    destruct (IHl (wrap64 (s1 + c)) (f k (wrap64 c) w1)) as [_ Hl].
    rewrite Hl, rev_app_distr. cbn [rev]. rewrite <- app_assoc.
    rewrite fold_left_app. cbn [app fold_left fst snd]. rewrite Hr.
    reflexivity.
Qed.

(** X2. After any run of insertions into an empty tree (fewer than 2^63),
    the forward traversal hands the visitor the distinct keys in strictly
    ascending order, each with the number of times it was inserted, and the
    reverse traversal hands over the same pairs in the opposite order. *)
Theorem traverse_in_key_order (ks : list Z) :
  Z.of_nat (length ks) < 2 ^ 63 ->
  let visited := entries (root (insert_all ks)) in
  StronglySorted Z.lt (map fst visited) /\
  (forall k c, In (k, c) visited <->
               In k ks /\ c = Z.of_nat (count_occ Z.eq_dec ks k)) /\
  (forall (W : Type) (f : Z -> Z -> W -> W) (w : W),
      snd (constForwardIterator (insert_all ks) (Some f) w)
      = fold_left (fun w e => f (fst e) (snd e) w) visited w /\
      snd (constReverseIterator (insert_all ks) (Some f) w)
      = fold_left (fun w e => f (fst e) (snd e) w) (rev visited) w).
Proof.
  intros Hb visited.
  destruct (tree_inv_insert_all ks Hb) as (B & P & T & C & K).
  assert (Hcount : forall k c, In (k, c) visited ->
            c = Z.of_nat (count_occ Z.eq_dec ks k)).
  { intros k c Hin.
    rewrite (entries_count_at _ _ _ B Hin).
    apply count_at_insert_all. exact Hb. }
  assert (Hwrap : forall e, In e visited -> wrap64 (snd e) = snd e).
  { intros [k c] Hin. cbn [snd]. rewrite (Hcount k c Hin).
    apply wrap64_id. pose proof (count_occ_bound Z.eq_dec k ks). lia. }
  assert (Hfold : forall (W : Type) (f : Z -> Z -> W -> W) (l : list (Z * Z)),
            (forall e, In e l -> wrap64 (snd e) = snd e) ->
            forall w,
              fold_left (fun w e => f (fst e) (wrap64 (snd e)) w) l w
              = fold_left (fun w e => f (fst e) (snd e) w) l w).
  { intros W f l. induction l as [| e l IH]; intros He w; [reflexivity |].
    cbn [fold_left]. rewrite (He e (or_introl eq_refl)).
    apply IH. intros e' He'. apply He. right. exact He'. }
  split; [| split].
  - unfold visited. rewrite entries_keys. apply bst_sorted. exact B.
  - intros k c. split.
    + intros Hin. split; [| exact (Hcount k c Hin)].
      apply K. rewrite <- entries_keys. apply (in_map fst _ _ Hin).
    + intros [Hk ->]. apply K in Hk.
      rewrite <- entries_keys in Hk. apply in_map_iff in Hk.
      destruct Hk as ([k' c'] & E & Hin). cbn [fst] in E. subst k'.
      rewrite <- (Hcount k c' Hin). exact Hin.
  - intros W f w. unfold constForwardIterator, constReverseIterator.
    destruct (traverse_visits W f (root (insert_all ks)) 0 w) as [Hf Hr].
    rewrite Hf, Hr. split; apply Hfold; [exact Hwrap |].
    intros e He. apply Hwrap. apply in_rev. exact He.
Qed.

(** A visitor that records what it is given, on six insertions. *)
Lemma traverse_in_key_order_witness :
  snd (constForwardIterator (insert_all [3; 1; 3; 5; 1; 3])
         (Some (fun k c w => w ++ [(k, c)])) [])
  = [(1, 2); (3, 3); (5, 1)] /\
  snd (constReverseIterator (insert_all [3; 1; 3; 5; 1; 3])
         (Some (fun k c w => w ++ [(k, c)])) [])
  = [(5, 1); (3, 3); (1, 2)].
Proof.
  destruct (traverse_in_key_order [3; 1; 3; 5; 1; 3] ltac:(simpl; lia))
    as (_ & _ & H).
  destruct (H _ (fun k c w => w ++ [(k, c)]) []) as [Hf Hr].
  split; [rewrite Hf | rewrite Hr]; reflexivity.
Defined.

End FrequencyTreeLookup.

(** ** The comparison operators of orbits and paths *)

Lemma node_compare_cases (l ro : orbit_node_t) :
  (node_eq l ro = true /\ node_lt l ro = false /\ node_gt l ro = false) \/
  (node_eq l ro = false /\ node_lt l ro = true /\ node_gt l ro = false) \/
  (node_eq l ro = false /\ node_lt l ro = false /\ node_gt l ro = true).
Proof.
  revert ro. induction l as [k | k lop IH]; intros ro.
  - destruct ro as [k' | k' rop]; cbn [node_eq node_lt node_gt key];
      rewrite Z.gtb_ltb;
      destruct (Z.eqb_spec k k'), (Z.ltb_spec k k'), (Z.ltb_spec k' k);
      auto; lia.
  - destruct ro as [k' | k' rop]; cbn [node_eq node_lt node_gt key];
      rewrite Z.gtb_ltb;
      destruct (Z.eqb_spec k k'), (Z.ltb_spec k k'), (Z.ltb_spec k' k);
      auto; try lia; apply IH.
Qed.

Lemma node_gt_lt (l ro : orbit_node_t) : node_gt l ro = node_lt ro l.
Proof.
  revert ro. induction l as [k | k lop IH]; intros ro;
    destruct ro as [k' | k' rop]; cbn [node_lt node_gt key];
    rewrite Z.gtb_ltb, (Z.eqb_sym k' k);
    destruct (Z.eqb_spec k k'); try reflexivity; apply IH.
Qed.

Lemma node_eq_sym (l ro : orbit_node_t) : node_eq l ro = node_eq ro l.
Proof.
  revert ro. induction l as [k | k lop IH]; intros ro;
    destruct ro as [k' | k' rop]; cbn [node_eq key];
    rewrite (Z.eqb_sym k' k);
    destruct (Z.eqb_spec k k'); try reflexivity; apply IH.
Qed.

(** X3. For any two orbits exactly one of [==], [<] and [>] holds; [>] is
    [<] with the operands exchanged and [==] is symmetric. *)
Theorem orbit_compare_trichotomy (l ro : orbit_t) :
  ((orbit_eq l ro = true /\ orbit_lt l ro = false /\ orbit_gt l ro = false)
   \/
   (orbit_eq l ro = false /\ orbit_lt l ro = true /\ orbit_gt l ro = false)
   \/
   (orbit_eq l ro = false /\ orbit_lt l ro = false /\ orbit_gt l ro = true))
  /\ orbit_gt l ro = orbit_lt ro l
  /\ orbit_eq l ro = orbit_eq ro l.
Proof.
  unfold orbit_eq, orbit_lt, orbit_gt.
  split; [apply node_compare_cases |].
  split; [apply node_gt_lt | apply node_eq_sym].
Qed.



(** ** Building, rendering, copying and comparing orbits *)

Lemma cells_append_all (cfg : statics) (cs : list Z) :
  Z.of_nat (length cs) < 2 ^ 31 ->
  cells (append_all cfg cs) = map wrapu8 cs.
Proof.
  intros Hb.
  destruct (holds_append_all cfg cs Hb) as (Hlen & Hkeys & Hcells).
  rewrite cells_spec.
  - rewrite Hlen, Nat2Z.id.
    apply (map_zrange_nth _ wrapu8).
    intros j Hj. rewrite Z.add_0_l. apply (Hcells j Hj).
  - rewrite Hkeys. destruct (Z.eqb_spec (path_length (append_all cfg cs)) 0);
      lia.
Qed.



Lemma string_app_assoc (a b c : string) :
  ((a ++ b) ++ c)%string = (a ++ b ++ c)%string.
Proof.
  induction a as [| x a IH]; simpl; [reflexivity | rewrite IH; reflexivity].
Qed.

Lemma string_app_empty_r (a : string) : (a ++ "")%string = a.
Proof.
  induction a as [| x a IH]; simpl; [reflexivity | rewrite IH; reflexivity].
Qed.

Lemma pop_back_last (a : string) (c : ascii) :
  pop_back (a ++ String c "")%string = a.
Proof.
  induction a as [| x a IH]; [reflexivity |].
  cbn [String.append pop_back].
  destruct a as [| y a]; [reflexivity |].
  cbn [String.append] in *. rewrite IH. reflexivity.
Qed.

Lemma render_fold (l : list Z) (acc : string) :
  fold_left (fun acc v => (acc ++ to_string v ++ " ")%string) l acc
  = (acc ++ fold_left (fun acc v => (acc ++ to_string v ++ " ")%string) l
              EmptyString)%string.
Proof.
  revert acc. induction l as [| v l IH]; intros acc; cbn [fold_left].
  - rewrite string_app_empty_r. reflexivity.
  - rewrite IH. rewrite (IH (EmptyString ++ _)%string).
    cbn [String.append]. rewrite !string_app_assoc. reflexivity.
Qed.

Lemma render_cons (v : Z) (l : list Z) :
  fold_left (fun acc v => (acc ++ to_string v ++ " ")%string) (v :: l)
    EmptyString
  = (to_string v ++ " "
     ++ fold_left (fun acc v => (acc ++ to_string v ++ " ")%string) l
          EmptyString)%string.
Proof.
  cbn [fold_left]. rewrite render_fold.
  cbn [String.append]. rewrite string_app_assoc. reflexivity.
Qed.

Lemma render_concat (v : Z) (l : list Z) :
  fold_left (fun acc v => (acc ++ to_string v ++ " ")%string) (v :: l)
    EmptyString
  = (String.concat " " (map to_string (v :: l)) ++ " ")%string.
Proof.
  revert v. induction l as [| w l IH]; intros v.
  - reflexivity.
  - rewrite render_cons, IH. cbn [map String.concat].
    rewrite !string_app_assoc. reflexivity.
Qed.

(** X6. [path] renders an orbit built by appends as the decimal values of
    its cells (the counts modulo 256), in order, separated by single spaces
    and with no space at the end. *)
Theorem path_renders_cells (cfg : statics) (cs : list Z) :
  cs <> [] -> Z.of_nat (length cs) < 2 ^ 31 ->
  path (append_all cfg cs)
  = String.concat " " (map to_string (map (fun c => c mod 256) cs)).
Proof.
  intros Hne Hb. unfold path.
  rewrite (cells_append_all cfg cs Hb).
  destruct cs as [| c cs]; [contradiction |].
  change (map wrapu8 (c :: cs)) with (wrapu8 c :: map wrapu8 cs).
  rewrite render_concat.
  change (String.concat " " (map to_string (wrapu8 c :: map wrapu8 cs))
          ++ " ")%string
    with (String.concat " " (map to_string (wrapu8 c :: map wrapu8 cs))
          ++ String " " "")%string.
  rewrite pop_back_last. reflexivity.
Qed.

Lemma path_renders_cells_witness :
  path (append_all collatz [0; 1; 1; 300; 4]) = "0 1 1 44 4"%string.
Proof.
  apply (path_renders_cells collatz [0; 1; 1; 300; 4]).
  - discriminate.
  - simpl. lia.
Defined.






Lemma write_curr_wrapu8 (r : orbit_node_t) (j c : Z) :
  write_curr r j (wrapu8 c) = write_curr r j c.
Proof.
  induction r as [k | k nx IH]; simpl; [| rewrite IH; reflexivity].
  unfold set_c_key, wrapu8. rewrite Z.mod_mod by lia. reflexivity.
Qed.

Lemma append_wrapu8 (cfg : statics) (ok : bool) (c : Z) (o : orbit_t) :
  append cfg ok (wrapu8 c) o = append cfg ok c o.
Proof.
  unfold append. rewrite !write_curr_wrapu8. reflexivity.
Qed.

Lemma append_all_wrapu8 (cfg : statics) (cs : list Z) :
  append_all cfg (map wrapu8 cs) = append_all cfg cs.
Proof.
  unfold append_all. generalize orbit_init.
  induction cs as [| c cs IH]; intros o; [reflexivity |].
  cbn [map fold_left]. rewrite append_wrapu8. apply IH.
Qed.

Lemma node_eq_refl (n : orbit_node_t) : node_eq n n = true.
Proof.
  induction n as [k | k nx IH]; simpl; rewrite Z.eqb_refl;
    [reflexivity | exact IH].
Qed.

Lemma node_eq_same_length (a b : orbit_node_t) :
  node_eq a b = true -> length (keys a) = length (keys b) -> a = b.
Proof.
  revert b. induction a as [k | k a IH]; intros b Heq Hlen;
    destruct b as [k' | k' b]; cbn [node_eq key keys length] in *;
    destruct (Z.eqb_spec k k'); try discriminate; subst.
  - reflexivity.
  - pose proof (keys_length_pos b). lia.
  - pose proof (keys_length_pos a). lia.
  - f_equal. apply IH; [exact Heq | lia].
Qed.

(** X8. Two orbits built by the same number of appends compare equal
    exactly when their counts agree modulo 256 position by position, that
    is, exactly when they render alike. *)
Theorem orbit_eq_iff_cells (cfg : statics) (cs1 cs2 : list Z) :
  length cs1 = length cs2 -> Z.of_nat (length cs1) < 2 ^ 31 ->
  (orbit_eq (append_all cfg cs1) (append_all cfg cs2) = true <->
   map (fun c => c mod 256) cs1 = map (fun c => c mod 256) cs2).
Proof.
  intros Hlen Hb.
  assert (Hb2 : Z.of_nat (length cs2) < 2 ^ 31) by (rewrite <- Hlen; exact Hb).
  destruct (holds_append_all cfg cs1 Hb) as (Hl1 & Hk1 & _).
  destruct (holds_append_all cfg cs2 Hb2) as (Hl2 & Hk2 & _).
  split.
  - intros Heq. unfold orbit_eq in Heq.
    assert (Hroot : root (append_all cfg cs1) = root (append_all cfg cs2)).
    { apply node_eq_same_length; [exact Heq |].
      apply Nat2Z.inj. rewrite Hk1, Hk2, Hl1, Hl2, Hlen. reflexivity. }
    pose proof (cells_append_all cfg cs1 Hb) as H1.
    pose proof (cells_append_all cfg cs2 Hb2) as H2.
    unfold cells in H1, H2.
    rewrite Hroot, Hl1, Hlen, <- Hl2, H2 in H1.
    symmetry. exact H1.
  - intros Hmap.
    change (map wrapu8 cs1 = map wrapu8 cs2) in Hmap.
    rewrite <- (append_all_wrapu8 cfg cs1), Hmap, append_all_wrapu8.
    unfold orbit_eq. apply node_eq_refl.
Qed.

Lemma orbit_eq_iff_cells_witness :
  orbit_eq (append_all collatz [0; 300; 4]) (append_all collatz [0; 44; 4])
  = true.
Proof.
  apply (proj2 (orbit_eq_iff_cells collatz [0; 300; 4] [0; 44; 4]
                  eq_refl ltac:(simpl; lia))).
  reflexivity.
Defined.

(** ** Removing the factors of two *)

Lemma abs_lt_pow2_log2 (i : Z) :
  i <> 0 -> Z.abs i < 2 ^ Z.of_nat (Z.to_nat (Z.log2 (Z.abs i) + 1)).
Proof.
  intros Hi. pose proof (Z.log2_nonneg (Z.abs i)).
  rewrite Z2Nat.id by lia.
  apply Z.log2_lt_pow2; lia.
Qed.

(** What [divide_out] returns when the counter does not wrap: the number of
    divisions made, and an odd value that gives the argument back when
    multiplied by that power of two. *)
Lemma divide_out_result (cfg : statics) (d : domain) (cw : Z -> Z) :
  divisor cfg = 2 ->
  forall (fuel n : nat) (i c c' r : Z),
    i <> 0 -> in_range d i -> Z.abs i < 2 ^ Z.of_nat n ->
    (forall x, c <= x <= c + Z.of_nat n -> cw x = x) ->
    divide_out fuel cfg d cw i c = Some (c', r) ->
    exists t, 0 <= t <= Z.of_nat n /\ c' = c + t /\ i = r * 2 ^ t /\
              Z.rem r 2 <> 0.
Proof.
  intros HD.
  induction fuel as [| fuel IH]; intros n i c c' r Hi Hr Hb Hcw H;
    simpl in H; [discriminate |].
  rewrite HD, Prem2_small in H. unfold Pdiv in H.
  destruct (Z.eqb_spec (Z.rem i 2) 0) as [E | E].
  - rewrite (wrap_id _ _ (in_range_quot2 d i Hr)) in H.
    destruct (even_quot2_nonzero i Hi E) as [Hq Hlt].
    destruct n as [| n]; [simpl in Hb; lia |].
    rewrite Hcw in H by lia.
    assert (Hb' : Z.abs (Z.quot i 2) < 2 ^ Z.of_nat n).
    { rewrite Nat2Z.inj_succ, Z.pow_succ_r in Hb by lia.
      clear - Hb E. lia. }
    destruct (IH n (Z.quot i 2) (c + 1) c' r Hq (in_range_quot2 d i Hr) Hb'
                ltac:(intros x Hx; apply Hcw; clear - Hx; lia) H)
      as (t & Ht & -> & Hi' & Hodd).
    exists (t + 1). split; [lia |]. split; [lia |]. split; [| exact Hodd].
    rewrite Z.pow_add_r, Z.pow_1_r by lia.
    pose proof (exact_quot i 2 ltac:(lia) E). lia.
  - injection H as <- <-. exists 0. repeat split; lia || exact E.
Qed.

(** X9. With the divisor 2, [term] returns on every value of the domain. On
    0 it returns 0 factors and leaves 0; on a non-zero value (whose size
    leaves room for the [long] counter) it returns the number [facts] of
    factors of two and the odd value [r] with [i = r * 2 ^ facts]. *)
Theorem term_removes_all_factors (cfg : statics) (d : domain) (i : Z) :
  divisor cfg = 2 -> in_range d i -> Z.log2 (Z.abs i) < 2 ^ 63 - 1 ->
  (forall fuel, term fuel cfg d 0 = Some (0, 0)) /\
  (i <> 0 ->
   exists f0 : nat, forall fuel, (f0 <= fuel)%nat ->
     exists facts r, term fuel cfg d i = Some (facts, r)
                     /\ 0 <= facts /\ i = r * 2 ^ facts /\ Z.rem r 2 <> 0).
Proof.
  intros HD Hr Hlog. split; [reflexivity |].
  intros Hi.
  destruct (divide_out_ends cfg d wrap64 i 0 HD Hi Hr) as [f0 H].
  exists f0. intros fuel Hf.
  destruct (H fuel Hf) as (facts & r & Heq & _ & _).
  exists facts, r. unfold term.
  destruct (Z.eqb_spec i 0) as [E | _]; [contradiction |]. cbn [negb].
  split; [exact Heq |].
  pose proof (Z.log2_nonneg (Z.abs i)) as Hl0.
  destruct (divide_out_result cfg d wrap64 HD fuel
              (Z.to_nat (Z.log2 (Z.abs i) + 1)) i 0 facts r Hi Hr
              (abs_lt_pow2_log2 i Hi)
              ltac:(intros x Hx; apply wrap64_id; lia) Heq)
    as (t & Ht & -> & Hi' & Hodd).
  repeat split; [lia | exact Hi' | exact Hodd].
Qed.

Lemma term_removes_all_factors_witness :
  exists f0 : nat, forall fuel, (f0 <= fuel)%nat ->
    exists facts r, term fuel collatz Int64 (-48) = Some (facts, r)
                    /\ 0 <= facts /\ -48 = r * 2 ^ facts /\ Z.rem r 2 <> 0.
Proof.
  refine (proj2 (term_removes_all_factors collatz Int64 (-48) eq_refl _ _) _).
  - simpl. lia.
  - vm_compute. reflexivity.
  - discriminate.
Defined.







(** ** The loop of [setpath], pass by pass *)

(** The ways through one pass of the loop, and what each leaves in the path
    object. *)
Lemma loop_body_cases (cfg : statics) (d : domain) (f : nat) (start mf : Z)
  (p : t_path) (cur : Z) (o : outcome) :
  loop_body f cfg d start mf p cur = Some o ->
  (int_sign p <> sgn (connection cfg d cur) /\
   o = Leave (set_error_mask p (Z.lor (error_mask p) (overflow cfg))) cur)
  \/
  (int_sign p = sgn (connection cfg d cur) /\
   exists leg cur' p',
     factor f cfg d (connection cfg d cur) start = Some (leg, cur') /\
     int_sign p' = int_sign p /\ start_int p' = start_int p /\
     error_mask p' = error_mask p /\ ec_factors p' = ec_factors p /\
     next_factors p' = next_factors p /\ ec_len p' = ec_len p /\
     path_factors p' = wrap32 (path_factors p + leg) /\
     ((speed cfg = true /\ mf < path_factors p' /\ o = Return p' /\
       orb p' = orb p)
      \/
      (speed cfg && (path_factors p' >? mf) = false /\
       orb p' = append cfg true leg (orb p) /\
       (o = Again p' cur' \/ o = Leave p' cur')))).
Proof.
  unfold loop_body, sign. intros H.
  destruct (Z.eqb_spec (int_sign p) (sgn (connection cfg d cur))) as [E | E];
    cbn [negb] in H.
  - right. split; [exact E |].
    destruct (factor f cfg d (connection cfg d cur) start)
      as [[leg cur'] |]; [| discriminate].
    exists leg, cur'.
    destruct (connection cfg d cur >? max_int p);
      cbn [set_path_factors set_max_int set_orb path_factors orb] in H;
      match type of H with
      | (if ?c then _ else _) = _ => destruct c eqn:Es
      end.
    all: try (destruct (Pabs d cur' >? Pabs d start)).
    all: lazymatch type of H with
         | Some (Return ?x) = Some _ => exists x
         | Some (Again ?x _) = Some _ => exists x
         | Some (Leave ?x _) = Some _ => exists x
         end; injection H as <-; (split; [reflexivity |]);
      cbn [set_path_factors set_max_int set_orb int_sign start_int
             error_mask ec_factors next_factors ec_len path_factors orb];
      repeat (split; [reflexivity |]).
    all: try (apply andb_true_iff in Es; destruct Es as [Es1 Es2];
              rewrite Z.gtb_ltb in Es2; apply Z.ltb_lt in Es2;
              left; repeat split; assumption || reflexivity).
    all: right; (split; [exact Es |]); (split; [reflexivity |]);
      (left; reflexivity) || (right; reflexivity).
  - left. split; [exact E |]. injection H as <-. reflexivity.
Qed.

(** A property kept by every pass that asks for another one, and
    established for the other outcomes, holds when the loop ends. *)
Lemma do_while_invariant (cfg : statics) (d : domain) (start mf : Z)
  (I : t_path -> Z -> Prop) (Q : outcome -> Prop) :
  (forall f p cur o,
      I p cur -> loop_body f cfg d start mf p cur = Some o ->
      match o with
      | Again p' cur' => I p' cur'
      | _ => Q o
      end) ->
  forall fuel p cur o,
    I p cur -> do_while fuel cfg d start mf p cur = Some o ->
    Q o /\ (forall p' cur', o <> Again p' cur').
Proof.
  intros Hstep.
  induction fuel as [| fuel IH]; intros p cur o HI H; simpl in H;
    [discriminate |].
  destruct (loop_body fuel cfg d start mf p cur) as [o1 |] eqn:E;
    [| discriminate].
  specialize (Hstep fuel p cur o1 HI E).
  destruct o1 as [p1 cur1 | p1 cur1 | p1].
  - exact (IH p1 cur1 o Hstep H).
  - injection H as <-. split; [exact Hstep | discriminate].
  - injection H as <-. split; [exact Hstep | discriminate].
Qed.

(** The statements that end [setpath] only set the class-factor total and
    the lookahead. *)
Lemma finish_fields (cfg : statics) (d : domain) (fuel : nat) (start : Z)
  (p q : t_path) (cur : Z) :
  finish fuel cfg d start p cur = Some q ->
  orb q = orb p /\ path_factors q = path_factors p /\
  max_int q = max_int p /\ error_mask q = error_mask p /\
  start_int q = start_int p /\ int_sign q = int_sign p /\
  ec_len q = ec_len p.
Proof.
  unfold finish. intros H.
  destruct (negb (cur =? 0)).
  - destruct (divide_out fuel cfg d wrap32 cur _) as [[ec x] |];
      [| discriminate].
    destruct (divide_out fuel cfg d (fun c => c) start 0) as [[y cur'] |];
      [| discriminate].
    destruct (term fuel cfg d (connection cfg d cur')) as [[facts z] |];
      [| discriminate].
    injection H as <-. repeat split; reflexivity.
  - injection H as <-. repeat split; reflexivity.
Qed.

Lemma append_true_mask (cfg : statics) (c : Z) (o : orbit_t) :
  orb_error_mask (append cfg true c o) = orb_error_mask o.
Proof.
  unfold append.
  destruct ((Z.rem (path_length o) 8 =? 0)
            && (Z.rem (path_length o) 8 <? path_length o)); reflexivity.
Qed.

(** ** Arbitrary precision never overflows *)

Lemma sgn_connection_mpz (b : bool) (cur : Z) :
  cur <> 0 -> sgn (connection (with_speed collatz b) Mpz cur) = sgn cur.
Proof.
  intros Hc. unfold connection, Padd, Pmul, wrap, sgn. cbn [multiplier addend
    with_speed collatz].
  destruct (Z.ltb_spec 0 (cur * 3 + 1)), (Z.gtb_spec 0 (cur * 3 + 1)),
    (Z.ltb_spec 0 cur), (Z.gtb_spec 0 cur); lia.
Qed.

Lemma odd_start_nonzero (cfg : statics) (d : domain) (start : Z) :
  divisor cfg = 2 -> (Prem d start (divisor cfg) =? 0) = false -> start <> 0.
Proof.
  intros HD Hodd ->. rewrite HD, Prem2_small in Hodd. discriminate.
Qed.

(** X11. In the arbitrary-precision domain, with the Collatz constants and
    either setting of the speed flag, no path object that [setpath] returns
    carries an error: the sign test of the loop never fires and [error()]
    is 0. *)
Theorem mpz_never_overflows (b : bool) (fuel : nat) (start mf : Z)
  (p : t_path) :
  setpath fuel (with_speed collatz b) Mpz start mf = Some p -> error p = 0.
Proof.
  set (cfg := with_speed collatz b).
  assert (HD : divisor cfg = 2) by reflexivity.
  assert (Hfin : forall f q cur r,
             error_mask q = 0 -> orb_error_mask (orb q) = 0 ->
             finish f cfg Mpz start q cur = Some r -> error r = 0).
  { intros f q cur r He Ho Hf.
    destruct (finish_fields _ _ _ _ _ _ _ Hf) as (Horb & _ & _ & Hem & _).
    unfold error. rewrite Hem, Horb, He, Ho. reflexivity. }
  unfold setpath. intros H.
  destruct (Prem Mpz start (divisor cfg) =? 0) eqn:Hodd.
  - refine (Hfin _ _ _ _ _ _ H); reflexivity.
  - pose proof (odd_start_nonzero cfg Mpz start HD Hodd) as Hnz.
    destruct (do_while fuel cfg Mpz start mf _ start) as [o |] eqn:Hdw;
      [| discriminate].
    set (I := fun (q : t_path) (cur : Z) =>
                int_sign q = sgn start /\ sgn cur = sgn start /\
                cur <> 0 /\ error_mask q = 0 /\
                orb_error_mask (orb q) = 0).
    set (Q := fun o : outcome =>
                match o with
                | Again _ _ => True
                | Leave q _ | Return q =>
                    error_mask q = 0 /\ orb_error_mask (orb q) = 0
                end).
    assert (Hstep : forall f q cur o',
               I q cur -> loop_body f cfg Mpz start mf q cur = Some o' ->
               match o' with
               | Again q' cur' => I q' cur'
               | _ => Q o'
               end).
    { intros f q cur o' (Hs & Hc & Hcz & He & Ho) Hb.
      destruct (loop_body_cases _ _ _ _ _ _ _ _ Hb)
        as [[Hflip _] | (Hsign & leg & cur' & q' & Hfac & H1 & _ & H3 & _ &
                          _ & _ & _ & Hor)].
      - exfalso. apply Hflip.
        pose proof (sgn_connection_mpz b cur Hcz) as Hsc.
        change (with_speed collatz b) with cfg in Hsc. congruence.
      - assert (Hconn : connection cfg Mpz cur <> 0).
        { intros E0. rewrite E0 in Hsign. change (sgn 0) with 0 in Hsign.
          apply Hnz. apply (proj1 (sgn_zero start)). congruence. }
        destruct (factor_loop_sign cfg Mpz start HD _ _ _ _ _ Logic.I Hconn Hfac)
          as (Hs' & _ & Hnz').
        destruct Hor as [(_ & _ & -> & Horb) | (_ & Horb & [-> | ->])].
        + split; [congruence | rewrite Horb; exact Ho].
        + unfold I. repeat split; try congruence.
          rewrite Horb, append_true_mask. exact Ho.
        + split; [congruence |].
          rewrite Horb, append_true_mask. exact Ho. }
    assert (HI0 : I (set_orb (set_max_int (init start) start)
                       (append cfg true 0
                          (orb (set_max_int (init start) start)))) start).
    { unfold I. repeat split; try reflexivity. exact Hnz. }
    destruct (do_while_invariant cfg Mpz start mf I Q Hstep fuel _ start o
                HI0 Hdw) as [HQ _].
    destruct o as [q cur | q cur | q]; [discriminate | |].
    + destruct HQ as [He Ho]. exact (Hfin _ _ _ _ He Ho H).
    + injection H as <-. destruct HQ as [He Ho].
      unfold error. rewrite He, Ho. reflexivity.
Qed.

Lemma mpz_never_overflows_witness :
  exists p, setpath 200 (with_speed collatz false) Mpz
              9223372036854775807 0 = Some p
            /\ error p = 0.
Proof.
  eexists. split; [vm_compute; reflexivity |].
  match goal with
  | |- error ?p = 0 =>
      apply (mpz_never_overflows false 200 9223372036854775807 0 p)
  end.
  vm_compute. reflexivity.
Defined.

(** ** The orbit and the path-factor total *)








(** ** The speed flag *)

Lemma divide_out_speed (cfg : statics) (b : bool) (d : domain) (cw : Z -> Z)
  (fuel : nat) (i c : Z) :
  divide_out fuel (with_speed cfg b) d cw i c = divide_out fuel cfg d cw i c.
Proof.
  revert i c. induction fuel as [| f IH]; intros i c; [reflexivity |].
  cbn [divide_out with_speed divisor]. rewrite IH. reflexivity.
Qed.

Lemma factor_loop_speed (cfg : statics) (b : bool) (d : domain) (fuel : nat)
  (branch start facts : Z) :
  factor_loop fuel (with_speed cfg b) d branch start facts
  = factor_loop fuel cfg d branch start facts.
Proof.
  revert branch facts.
  induction fuel as [| f IH]; intros branch facts; [reflexivity |].
  cbn [factor_loop with_speed divisor]. rewrite IH. reflexivity.
Qed.

Lemma finish_speed (cfg : statics) (b : bool) (d : domain) (fuel : nat)
  (start : Z) (p : t_path) (cur : Z) :
  finish fuel (with_speed cfg b) d start p cur = finish fuel cfg d start p cur.
Proof.
  unfold finish, term. rewrite !divide_out_speed.
  change (connection (with_speed cfg b) d) with (connection cfg d).
  destruct (negb (cur =? 0)); [| reflexivity].
  destruct (divide_out fuel cfg d wrap32 cur _) as [[ec x] |];
    [| reflexivity].
  destruct (divide_out fuel cfg d (fun c => c) start 0) as [[y cur'] |];
    [| reflexivity].
  rewrite !divide_out_speed. reflexivity.
Qed.

Lemma loop_body_speed (cfg : statics) (d : domain) (f : nat) (start mf : Z)
  (p : t_path) (cur : Z) (o : outcome) :
  loop_body f (with_speed cfg true) d start mf p cur = Some o ->
  (exists q, o = Return q /\ mf < path_factors q /\
             ec_factors q = ec_factors p /\
             next_factors q = next_factors p)
  \/ loop_body f (with_speed cfg false) d start mf p cur = Some o.
Proof.
  unfold loop_body, factor. rewrite !factor_loop_speed.
  change (connection (with_speed cfg true) d) with (connection cfg d).
  change (connection (with_speed cfg false) d) with (connection cfg d).
  cbn [with_speed speed overflow andb].
  destruct (negb (sign p =? sgn (connection cfg d cur)));
    [intros H; right; exact H |].
  destruct (factor_loop f cfg d (connection cfg d cur) start 0)
    as [[leg cur'] |]; [| discriminate].
  match goal with
  | |- (if ?c then _ else _) = _ -> _ => destruct c eqn:Es
  end.
  - intros H. left. injection H as <-. eexists. split; [reflexivity |].
    split; [lia |].
    destruct (connection cfg d cur >? max_int p); split; reflexivity.
  - intros H. right. exact H.
Qed.

Lemma do_while_speed (cfg : statics) (d : domain) (start mf : Z) (fuel : nat)
  (p : t_path) (cur : Z) (o : outcome) :
  do_while fuel (with_speed cfg true) d start mf p cur = Some o ->
  (exists q, o = Return q /\ mf < path_factors q /\
             ec_factors q = ec_factors p /\
             next_factors q = next_factors p)
  \/ do_while fuel (with_speed cfg false) d start mf p cur = Some o.
Proof.
  revert p cur. induction fuel as [| f IH]; intros p cur H; [discriminate |].
  cbn [do_while] in H |- *.
  destruct (loop_body f (with_speed cfg true) d start mf p cur)
    as [o1 |] eqn:Hb; [| discriminate].
  destruct (loop_body_speed _ _ _ _ _ _ _ _ Hb)
    as [(q & -> & Hq) | Hb'].
  - left. injection H as <-. exists q. split; [reflexivity | exact Hq].
  - rewrite Hb'. destruct o1 as [p' cur' | p' cur' | p'];
      [| right; exact H | right; exact H].
    destruct (IH _ _ H) as [(q & -> & Hmf & Hec & Hnx) | H'];
      [| right; exact H'].
    left. exists q. split; [reflexivity |]. split; [exact Hmf |].
    destruct (loop_body_cases _ _ _ _ _ _ _ _ Hb)
      as [[_ E] | (_ & leg & cur2 & p2 & _ & _ & _ & _ & Hec2 & Hnx2 & _ &
                   _ & [(_ & _ & E & _) | (_ & _ & [E | E])])];
      try discriminate E.
    injection E as <- _. split; congruence.
Qed.

(** X13. The speed flag changes a result of [setpath] in one way only: a
    call with the flag on returns either exactly what the call with the flag
    off returns, or a path object given up in the middle of the loop, whose
    path-factor total has passed [max_factors] and whose class and next
    factors are still 0. *)
Theorem speed_mode_result (cfg : statics) (d : domain) (fuel : nat)
  (start mf : Z) (p : t_path) :
  setpath fuel (with_speed cfg true) d start mf = Some p ->
  setpath fuel (with_speed cfg false) d start mf = Some p \/
  (mf < pathFactors p /\ classFactors p = 0 /\ nextFactors p = 0).
Proof.
  unfold setpath. rewrite !finish_speed.
  cbn [with_speed divisor].
  change (append (with_speed cfg true)) with (append cfg).
  change (append (with_speed cfg false)) with (append cfg).
  destruct (Prem d start (divisor cfg) =? 0); [intros H; left; exact H |].
  intros H.
  destruct (do_while fuel (with_speed cfg true) d start mf _ start)
    as [o |] eqn:Hdw; [| discriminate].
  destruct (do_while_speed _ _ _ _ _ _ _ _ Hdw)
    as [(q & -> & Hmf & Hec & Hnx) | Hdw'].
  - right. injection H as <-. repeat split; assumption.
  - left. rewrite Hdw'.
    destruct o as [q cur | q cur | q]; [discriminate | | exact H].
    rewrite finish_speed in H |- *. exact H.
Qed.

(** From 27 with [max_factors] 5 the fast call stops after four legs, with
    a total of 6; the slow call goes on to 59. *)
Lemma speed_mode_result_witness :
  exists p q,
    setpath 200 (with_speed collatz true) Int64 27 5 = Some p /\
    setpath 200 (with_speed collatz false) Int64 27 5 = Some q /\
    pathFactors p = 6 /\ pathFactors q = 59 /\
    (setpath 200 (with_speed collatz false) Int64 27 5 = Some p \/
     (5 < pathFactors p /\ classFactors p = 0 /\ nextFactors p = 0)).
Proof.
  eexists. eexists.
  split; [vm_compute; reflexivity |].
  split; [vm_compute; reflexivity |].
  split; [reflexivity |]. split; [reflexivity |].
  apply (speed_mode_result collatz Int64 200 27 5).
  vm_compute. reflexivity.
Defined.

(** ** The class length *)

Lemma log2_half (a : Z) : 2 <= a -> Z.log2 (a / 2) = Z.log2 a - 1.
Proof.
  intros Ha.
  assert (HL : 1 <= Z.log2 a).
  { change 1 with (Z.log2 2). apply Z.log2_le_mono. exact Ha. }
  destruct (Z.log2_spec a ltac:(lia)) as [Hlo Hhi].
  remember (Z.log2 a - 1) as L eqn:EL.
  assert (E : Z.log2 a = L + 1) by lia.
  rewrite E in Hlo, Hhi.
  replace (Z.succ (L + 1)) with (L + 1 + 1) in Hhi by lia.
  rewrite (pow2_succ (L + 1)) in Hhi by lia.
  rewrite (pow2_succ L) in Hlo, Hhi by lia.
  apply Z.log2_unique; [lia |].
  rewrite Z.pow_succ_r by lia.
  clear - Hlo Hhi. lia.
Qed.

Lemma set_ec_loop_result (cfg : statics) (d : domain) :
  divisor cfg = 2 ->
  forall (fuel : nat) (r len : Z),
    in_range d r -> in_range d (Z.abs r) ->
    0 <= len -> len + Z.log2 (Z.abs r) < 2 ^ 31 ->
    Z.log2 (Z.abs r) < Z.of_nat fuel ->
    set_ec_loop fuel cfg d r len = Some (len + Z.log2 (Z.abs r)).
Proof.
  intros HD. induction fuel as [| f IH]; intros r len Hr Ha Hl Hb Hf.
  - pose proof (Z.log2_nonneg (Z.abs r)). lia.
  - cbn [set_ec_loop]. unfold Pabs. rewrite (wrap_id d _ Ha).
    destruct (Z.gtb_spec (Z.abs r) 1) as [Hgt | Hle].
    + rewrite HD. unfold Pdiv.
      rewrite (wrap_id d _ (in_range_quot2 d r Hr)).
      assert (Hq : Z.abs (Z.quot r 2) = Z.abs r / 2).
      { clear - Hgt. lia. }
      assert (Hlog : Z.log2 (Z.abs (Z.quot r 2)) = Z.log2 (Z.abs r) - 1).
      { rewrite Hq. apply log2_half. lia. }
      pose proof (Z.log2_nonneg (Z.abs (Z.quot r 2))) as Hnn.
      rewrite wrap32_id by lia.
      rewrite IH.
      * f_equal. lia.
      * apply in_range_quot2. exact Hr.
      * rewrite Hq. destruct d; [| exact I].
        simpl in Ha |- *. clear - Ha. lia.
      * lia.
      * lia.
      * lia.
    + assert (H0 : Z.log2 (Z.abs r) = 0).
      { assert (Hc : Z.abs r = 0 \/ Z.abs r = 1) by lia.
        destruct Hc as [-> | ->]; reflexivity. }
      rewrite H0, Z.add_0_r. reflexivity.
Qed.

(** X14. With the divisor 2 and the multiplier 3, [set_ec] sets the class
    length of a starting integer of the domain to one more than the binary
    logarithm of [|start / 3|] (to 1 when that quotient is 0), and it does
    return once the fuel exceeds that logarithm. *)
Theorem set_ec_class_length (cfg : statics) (d : domain) (fuel : nat)
  (start : Z) (p : t_path) :
  divisor cfg = 2 -> multiplier cfg = 3 -> in_range d start ->
  Z.log2 (Z.abs (Z.quot start 3)) < 2 ^ 31 - 1 ->
  Z.log2 (Z.abs (Z.quot start 3)) < Z.of_nat fuel ->
  exists q, set_ec fuel cfg d start p = Some q /\
            classLength q = 1 + Z.log2 (Z.abs (Z.quot start 3)) /\
            2 ^ classLength q > Z.abs (Z.quot start 3).
Proof.
  intros HD HM Hr Hb Hf. unfold set_ec. rewrite HM. unfold Pdiv.
  assert (Hq : in_range d (Z.quot start 3)).
  { destruct d; [| exact I]. simpl in Hr |- *. clear - Hr. lia. }
  assert (Ha : in_range d (Z.abs (Z.quot start 3))).
  { destruct d; [| exact I]. simpl in Hr |- *. clear - Hr. lia. }
  rewrite (wrap_id d _ Hq).
  rewrite (set_ec_loop_result cfg d HD fuel _ 1 Hq Ha) by lia.
  eexists. split; [reflexivity |].
  unfold classLength. cbn [set_ec_len ec_len].
  split; [reflexivity |].
  destruct (Z.eq_dec (Z.quot start 3) 0) as [-> | Hnz].
  - reflexivity.
  - destruct (Z.log2_spec (Z.abs (Z.quot start 3)) ltac:(lia)) as [_ Hhi].
    replace (1 + Z.log2 (Z.abs (Z.quot start 3)))
      with (Z.succ (Z.log2 (Z.abs (Z.quot start 3)))) by lia.
    lia.
Qed.

(** The class of 27 has length 4: 27 / 3 = 9 lies between 8 and 16. *)
Lemma set_ec_class_length_witness :
  exists q, set_ec 4 collatz Int64 27 (init 27) = Some q /\
            classLength q = 4.
Proof.
  destruct (set_ec_class_length collatz Int64 4 27 (init 27) eq_refl eq_refl
              ltac:(simpl; lia) ltac:(vm_compute; reflexivity)
              ltac:(vm_compute; reflexivity)) as (q & Hq & Hl & _).
  exists q. split; [exact Hq |]. rewrite Hl. reflexivity.
Defined.

(** ** The symbols of a class and reading them back *)

Lemma to_str_digit (v : Z) :
  0 <= v <= 5 -> to_str v = String (digit_symbol v) EmptyString.
Proof.
  intros Hv.
  assert (Hc : v = 0 \/ v = 1 \/ v = 2 \/ v = 3 \/ v = 4 \/ v = 5) by lia.
  destruct Hc as [-> | [-> | [-> | [-> | [-> | ->]]]]]; reflexivity.
Qed.

Lemma digit_symbol_value (v : Z) :
  0 <= v <= 5 ->
  first_symbol (digit_symbol v) = Some v /\
  is_signed (String (digit_symbol v) EmptyString) = false.
Proof.
  intros Hv.
  assert (Hc : v = 0 \/ v = 1 \/ v = 2 \/ v = 3 \/ v = 4 \/ v = 5) by lia.
  destruct Hc as [-> | [-> | [-> | [-> | [-> | ->]]]]]; split; reflexivity.
Qed.

Lemma string_app_empty_l (s : string) : (EmptyString ++ s)%string = s.
Proof. reflexivity. Qed.

(** The loop of [flow] writes the binary digits of [|factors|]. *)
Lemma flow_loop_bits (cfg : statics) (d : domain) :
  divisor cfg = 2 ->
  forall (n : nat) (f : Z),
    in_range d f ->
    flow_loop n cfg d f (Prem d f 2) EmptyString = bit_symbols n (Z.abs f).
Proof.
  intros HD. induction n as [| n IH]; intros f Hf; [reflexivity |].
  cbn [flow_loop bit_symbols]. rewrite HD, flow_loop_acc.
  unfold Pdiv at 1 2. rewrite (wrap_id d _ (in_range_quot2 d f Hf)).
  rewrite (IH _ (in_range_quot2 d f Hf)).
  rewrite Prem2_small.
  assert (Ha : Pabs d (Z.rem f 2) = Z.abs f mod 2).
  { unfold Pabs. rewrite wrap_id.
    - clear. lia.
    - destruct d; [| exact I]. simpl. clear. lia. }
  rewrite Ha.
  assert (Hq : Z.abs (Z.quot f 2) = Z.abs f / 2) by (clear; lia).
  rewrite Hq, string_app_empty_l.
  rewrite (Zmod_odd (Z.abs f)).
  destruct (Z.odd (Z.abs f)); reflexivity.
Qed.

Lemma bit_symbols_length (n : nat) (a : Z) :
  String.length (bit_symbols n a) = n.
Proof.
  revert a. induction n as [| n IH]; intros a; [reflexivity |].
  cbn [bit_symbols String.length]. rewrite IH. reflexivity.
Qed.

(** What [flow] writes for a digit count of at least 1. *)
Lemma flow_shape (d : domain) (p : t_path) (k : Z) :
  in_range d (start_int p) -> 1 <= k ->
  flow collatz d p k
  = (sign_symbol (int_sign p)
     ++ String (digit_symbol (Z.abs (start_int p) mod 6))
          (bit_symbols (Z.to_nat (k - 1)) (Z.abs (start_int p) / 6)))%string.
Proof.
  intros Hr Hk.
  unfold flow.
  destruct (Z.ltb_spec k 0) as [Hneg | _]; [lia |].
  destruct (Z.ltb_spec k 0) as [Hneg | _]; [lia |].
  destruct (Z.eqb_spec k 0) as [H0 | _]; [lia |].
  cbn [negb andb].
  replace (Z.to_nat k) with (S (Z.to_nat (k - 1))) by lia.
  cbn [flow_loop]. rewrite flow_loop_acc.
  change (divisor collatz) with 2. change (multiplier collatz) with 3.
  change (wrap32 (2 * 3)) with 6.
  set (s := start_int p) in *.
  assert (H3 : in_range d (Z.quot s 3)).
  { destruct d; [| exact I]. simpl in Hr |- *. clear - Hr. lia. }
  unfold Pdiv. rewrite !(wrap_id d _ H3).
  rewrite !(wrap_id d _ (in_range_quot2 d _ H3)).
  rewrite (flow_loop_bits collatz d eq_refl _ _
             (in_range_quot2 d _ H3)).
  assert (Ha : Pabs d (Prem d s 6) = Z.abs s mod 6).
  { unfold Pabs, Prem. rewrite (wrap_id d (Z.rem s 6)).
    - rewrite wrap_id.
      + clear. lia.
      + destruct d; [| exact I]. simpl. clear. lia.
    - destruct d; [| exact I]. simpl. clear. lia. }
  rewrite Ha.
  rewrite to_str_digit by (clear; lia).
  assert (Hq : Z.abs (Z.quot (Z.quot s 3) 2) = Z.abs s / 6)
    by (clear; lia).
  rewrite Hq.
  unfold sign_symbol.
  destruct (int_sign p =? 0); cbn [negb];
    [reflexivity |].
  destruct (int_sign p >? 0); reflexivity.
Qed.

(** [get_ec_len] after [flow]. *)
Lemma flow_class_length (d : domain) (p : t_path) (k : Z) :
  in_range d (start_int p) -> 1 <= k ->
  get_ec_len (flow collatz d p k) = k.
Proof.
  intros Hr Hk.
  rewrite (flow_shape d p k Hr Hk).
  pose proof (digit_symbol_value (Z.abs (start_int p) mod 6)
                ltac:(clear; lia)) as [_ Hns].
  unfold get_ec_len, sign_symbol.
  destruct (int_sign p =? 0).
  - rewrite string_app_empty_l.
    unfold is_signed in Hns |- *.
    change (char_at (String ?c ?r) 0) with c in Hns |- *.
    rewrite Hns. cbn [String.length]. rewrite bit_symbols_length.
    clear - Hk. lia.
  - destruct (int_sign p >? 0);
      cbn [String.append String.length];
      rewrite bit_symbols_length;
      change (is_signed (String ?c ?r)) with true; cbv iota;
      clear - Hk; lia.
Qed.

(** X15. For a starting integer of the domain and a digit count of at least
    1, [flow] writes the sign character of the stored sign (none for 0),
    then the symbol of [|start| mod 6], then the lowest [digits - 1] binary
    digits of [|start| / 6], the least significant first; [get_ec_len]
    gives the digit count back. *)
Theorem flow_symbols (d : domain) (p : t_path) (k : Z) :
  in_range d (start_int p) -> 1 <= k ->
  flow collatz d p k
  = (sign_symbol (int_sign p)
     ++ String (digit_symbol (Z.abs (start_int p) mod 6))
          (bit_symbols (Z.to_nat (k - 1)) (Z.abs (start_int p) / 6)))%string
  /\ get_ec_len (flow collatz d p k) = k.
Proof.
  intros Hr Hk. split.
  - exact (flow_shape d p k Hr Hk).
  - exact (flow_class_length d p k Hr Hk).
Qed.

(** The class of 23 with five symbols: "+51100". *)
Lemma flow_symbols_witness :
  flow collatz Int64 (init 23) 5 = "+51100"%string /\
  get_ec_len (flow collatz Int64 (init 23) 5) = 5.
Proof.
  destruct (flow_symbols Int64 (init 23) 5 ltac:(simpl; lia) ltac:(lia))
    as [Hf Hl].
  split; [rewrite Hf; reflexivity | exact Hl].
Defined.

Lemma later_sum_bits (d : domain) (n : nat) :
  forall (a j : Z),
    0 <= j -> readable d (j + Z.of_nat n + 1) ->
    later_sum d (bit_symbols n a) j
    = Some (6 * 2 ^ j * (a mod 2 ^ Z.of_nat n)).
Proof.
  induction n as [| n IH]; intros a j Hj Hfit.
  - cbn [bit_symbols later_sum]. change (2 ^ Z.of_nat 0) with 1.
    rewrite Z.mod_1_r. f_equal. lia.
  - cbn [bit_symbols later_sum].
    assert (Hf : fits d j = true).
    { destruct d; [| reflexivity]. simpl in Hfit |- *.
      apply Z.ltb_lt. lia. }
    rewrite (IH (a / 2) (j + 1)) by (destruct d; simpl in *; lia).
    replace (Z.of_nat (S n)) with (1 + Z.of_nat n) by lia.
    rewrite (Z.pow_add_r 2 1) by lia. change (2 ^ 1) with 2.
    pose proof (Z.pow_pos_nonneg 2 (Z.of_nat n) ltac:(lia) ltac:(lia)) as Hp.
    rewrite Z.rem_mul_r by lia.
    rewrite (pow2_succ j Hj), (Zmod_odd a).
    destruct (Z.odd a).
    + change (later_symbol "1") with (Some true). cbv iota.
      rewrite Hf. f_equal. ring.
    + change (later_symbol "0") with (Some false). cbv iota.
      f_equal. ring.
Qed.

(** [parse] on an optional sign, a first symbol and later symbols. *)
Lemma parse_symbols (d : domain) (sg : Z) (c : ascii) (rest : string) (v : Z) :
  first_symbol c = Some v -> is_signed (String c EmptyString) = false ->
  parse collatz d (sign_symbol sg ++ String c rest)
  = match later_sum d rest 0 with
    | None => 0
    | Some s => (if sg <? 0 then -1 else 1) * (v + s)
    end.
Proof.
  intros Hv Hns.
  assert (Htail : forall eq_sign, eq_sign = 1 \/ eq_sign = -1 ->
            forall input pos, 0 <= pos ->
              (forall i, String.get i rest
                         = String.get (Z.to_nat pos + i) input) ->
              (if (char_val c <? char_val "0") || (char_val c >? char_val "5")
               then 0
               else parse_loop (String.length rest) d input pos eq_sign
                      (char_val c - char_val "0") 6 false)
              = match later_sum d rest 0 with
                | None => 0
                | Some s => eq_sign * (v + s)
                end).
  { intros eq_sign Hs input pos Hp Hget.
    rewrite (parse_tail d input pos eq_sign c rest Hp Hs Hget), Hv.
    reflexivity. }
  unfold sign_symbol.
  destruct (Z.eqb_spec sg 0) as [E0 | Hne];
    [| destruct (Z.gtb_spec sg 0) as [Hpos | Hneg]].
  - destruct (Z.ltb_spec sg 0) as [Hlt | _]; [lia |].
    rewrite string_app_empty_l. unfold parse.
    replace (is_signed (String c rest)) with false
      by (rewrite <- Hns; reflexivity).
    change (char_at (String c rest) 0) with c.
    replace (wrap d (wrap32 (multiplier collatz * divisor collatz))) with 6
      by (destruct d; reflexivity).
    replace (Z.to_nat (Z.of_nat (String.length (String c rest)) - 1))
      with (String.length rest) by (cbn [String.length]; lia).
    apply Htail; [left; reflexivity | lia | intros i; reflexivity].
  - destruct (Z.ltb_spec sg 0) as [Hlt | _]; [lia |].
    cbn [String.append]. unfold parse.
    change (is_signed (String "+" (String c rest))) with true.
    cbv iota.
    change (char_at (String "+" (String c rest)) 0) with "+"%char.
    change (char_val "+" =? char_val "-") with false. cbv iota.
    change (char_at (String "+" (String c rest)) (0 + 1)) with c.
    replace (wrap d (wrap32 (multiplier collatz * divisor collatz))) with 6
      by (destruct d; reflexivity).
    replace (Z.to_nat
               (Z.of_nat (String.length (String "+" (String c rest)))
                - 1 - 1))
      with (String.length rest) by (cbn [String.length]; lia).
    apply Htail; [left; reflexivity | lia | intros i; reflexivity].
  - destruct (Z.ltb_spec sg 0) as [_ | Hge]; [| lia].
    cbn [String.append]. unfold parse.
    change (is_signed (String "-" (String c rest))) with true.
    cbv iota.
    change (char_at (String "-" (String c rest)) 0) with "-"%char.
    change (char_val "-" =? char_val "-") with true. cbv iota.
    change (char_at (String "-" (String c rest)) (0 + 1)) with c.
    replace (wrap d (wrap32 (multiplier collatz * divisor collatz))) with 6
      by (destruct d; reflexivity).
    replace (Z.to_nat
               (Z.of_nat (String.length (String "-" (String c rest)))
                - 1 - 1))
      with (String.length rest) by (cbn [String.length]; lia).
    apply Htail; [right; reflexivity | lia | intros i; reflexivity].
Qed.

Lemma signed_mod (s m : Z) :
  0 < m -> (if s <? 0 then -1 else 1) * (Z.abs s mod m) = Z.rem s m.
Proof.
  intros Hm. destruct (Z.ltb_spec s 0) as [Hneg | Hpos].
  - rewrite <- (Z.opp_involutive s) at 2.
    rewrite Z.rem_opp_l', Z.rem_mod_nonneg by lia.
    rewrite Z.abs_neq by lia. lia.
  - rewrite Z.rem_mod_nonneg by lia. rewrite Z.abs_eq by lia. lia.
Qed.

(** [parse] after [flow]. *)
Lemma parse_flow_value (d : domain) (p : t_path) (k : Z) :
  in_range d (start_int p) -> int_sign p = sgn (start_int p) ->
  1 <= k -> readable d k ->
  parse collatz d (flow collatz d p k) = Z.rem (start_int p) (3 * 2 ^ k).
Proof.
  intros Hr Hs Hk Hfit.
  rewrite (flow_shape d p k Hr Hk).
  set (s := start_int p) in *.
  destruct (digit_symbol_value (Z.abs s mod 6) ltac:(clear; lia))
    as [Hv Hns].
  rewrite (parse_symbols d (int_sign p) _ _ _ Hv Hns).
  rewrite later_sum_bits
    by (try lia; rewrite Z2Nat.id by lia;
        destruct d; simpl in *; lia).
  rewrite Z2Nat.id by lia.
  pose proof (Z.pow_pos_nonneg 2 (k - 1) ltac:(lia) ltac:(lia)) as Hp.
  change (2 ^ 0) with 1.
  replace (Z.abs s mod 6 + 6 * 1 * ((Z.abs s / 6) mod 2 ^ (k - 1)))
    with (Z.abs s mod (6 * 2 ^ (k - 1)))
    by (rewrite Z.rem_mul_r by lia; ring).
  replace (3 * 2 ^ k) with (6 * 2 ^ (k - 1)).
  2:{ replace k with (k - 1 + 1) at 2 by lia.
      rewrite pow2_succ by lia. ring. }
  replace (int_sign p <? 0) with (s <? 0).
  - apply signed_mod. lia.
  - rewrite Hs. unfold sgn.
    destruct (Z.ltb_spec 0 s), (Z.gtb_spec 0 s), (Z.ltb_spec s 0);
      try lia; reflexivity.
Qed.

(** X16. Reading back what [flow] wrote: for a path object whose stored sign
    is the sign of its starting integer, and a digit count [k] of at least 1
    (at most 61 in the 64-bit domain), [parse] of [flow( k )] is the
    remainder of the starting integer by [3 * 2 ^ k], truncated as C++
    truncates. *)
Theorem parse_flow_round_trip (d : domain) (p : t_path) (k : Z) :
  in_range d (start_int p) -> int_sign p = sgn (start_int p) ->
  1 <= k -> readable d k ->
  parse collatz d (flow collatz d p k) = Z.rem (start_int p) (3 * 2 ^ k).
Proof.
  exact (parse_flow_value d p k).
Qed.

(** The class of 23 with five symbols reads back as 23 = 23 rem 96, the
    class of -279 with seven as -279 rem 384. *)
Lemma parse_flow_round_trip_witness :
  parse collatz Int64 (flow collatz Int64 (init 23) 5) = 23 /\
  parse collatz Int64 (flow collatz Int64 (init (-279)) 7) = -279.
Proof.
  split.
  - rewrite (parse_flow_round_trip Int64 (init 23) 5); [reflexivity | | | |];
      simpl; lia.
  - rewrite (parse_flow_round_trip Int64 (init (-279)) 7);
      [reflexivity | | | |]; simpl; lia.
Defined.

(** ** Parents *)

(** The value [divide_out] leaves, whatever the counter does. *)
Lemma divide_out_value (cfg : statics) (d : domain) (cw : Z -> Z) :
  divisor cfg = 2 ->
  forall (fuel : nat) (i c c' r : Z),
    i <> 0 -> in_range d i ->
    divide_out fuel cfg d cw i c = Some (c', r) ->
    exists t, 0 <= t /\ i = r * 2 ^ t /\ Z.rem r 2 <> 0.
Proof.
  intros HD.
  induction fuel as [| fuel IH]; intros i c c' r Hi Hr H;
    simpl in H; [discriminate |].
  rewrite HD, Prem2_small in H. unfold Pdiv in H.
  destruct (Z.eqb_spec (Z.rem i 2) 0) as [E | E].
  - rewrite (wrap_id _ _ (in_range_quot2 d i Hr)) in H.
    destruct (even_quot2_nonzero i Hi E) as [Hq _].
    destruct (IH _ _ _ _ Hq (in_range_quot2 d i Hr) H) as (t & Ht & Hv & Ho).
    exists (t + 1). split; [lia |]. split; [| exact Ho].
    rewrite pow2_succ by lia.
    pose proof (exact_quot i 2 ltac:(lia) E) as Hx.
    rewrite Hv in Hx. rewrite <- Hx. ring.
  - injection H as _ <-. exists 0. repeat split; lia || exact E.
Qed.

Lemma term_value (cfg : statics) (d : domain) (fuel : nat) (i c r : Z) :
  divisor cfg = 2 -> in_range d i ->
  term fuel cfg d i = Some (c, r) ->
  (i = 0 /\ r = 0) \/
  (i <> 0 /\ exists t, 0 <= t /\ i = r * 2 ^ t /\ Z.rem r 2 <> 0).
Proof.
  intros HD Hr. unfold term.
  destruct (Z.eqb_spec i 0) as [-> | Hi]; cbn [negb]; intros H.
  - left. injection H as _ <-. split; reflexivity.
  - right. split; [exact Hi |].
    exact (divide_out_value cfg d wrap64 HD _ _ _ _ _ Hi Hr H).
Qed.

Lemma ancestry_loop_sound (d : domain) (start : Z) :
  Z.rem start 2 <> 0 ->
  forall (fuel : nat) (scale parent sc : Z),
    ancestry_loop fuel collatz d start scale = Some (parent, sc) ->
    exists t, 0 <= t /\ connection collatz d parent = start * 2 ^ t.
Proof.
  intros Hodd.
  induction fuel as [| f IH]; intros scale parent sc H; [discriminate |].
  cbn [ancestry_loop] in H.
  match type of H with
  | match term f collatz d (connection collatz d ?x) with _ => _ end = _ =>
      set (par := x) in *
  end.
  destruct (term f collatz d (connection collatz d par))
    as [[c child] |] eqn:Ht; [| discriminate].
  destruct (Z.eqb_spec start child) as [<- | Hne].
  - injection H as <- _.
    destruct (term_value collatz d f _ _ _ eq_refl
                (connection_in_range collatz d par) Ht)
      as [[_ E0] | (_ & t & Ht0 & Hv & _)].
    + subst start. exfalso. apply Hodd. reflexivity.
    + exists t. split; [exact Ht0 | exact Hv].
  - exact (IH _ _ _ H).
Qed.

(** X17. What [ancestry] returns for an odd starting integer is sound: it
    is either 0 with [scale] untouched, or a parent whose connection
    [3 * parent + 1] (as the domain computes it) is the starting integer
    times a power of two. With arbitrary precision the equation holds in
    the integers. *)
Theorem ancestry_parent_sound (d : domain) (p : t_path) (fuel : nat)
  (scale parent sc : Z) :
  Z.rem (start_int p) 2 <> 0 ->
  ancestry fuel collatz d p scale = Some (parent, sc) ->
  (parent = 0 /\ sc = scale) \/
  (exists t, 0 <= t /\
             connection collatz d parent = start_int p * 2 ^ t /\
             (d = Mpz -> 3 * parent + 1 = start_int p * 2 ^ t)).
Proof.
  intros Hodd H. unfold ancestry in H.
  destruct (start_int p =? _) in H;
    [left; injection H as <- <-; split; reflexivity |].
  destruct (start_int p =? _) in H;
    [left; injection H as <- <-; split; reflexivity |].
  right.
  destruct (ancestry_loop_sound d _ Hodd _ _ _ _ H) as (t & Ht & Hv).
  exists t. split; [exact Ht |]. split; [exact Hv |].
  intros ->. rewrite <- Hv. unfold connection, Padd, Pmul, wrap.
  change (multiplier collatz) with 3. change (addend collatz) with 1. ring.
Qed.

(** The parent found for 7 from scale 1 is 9, at scale 2:
    3 * 9 + 1 = 28 = 7 * 4. *)
Lemma ancestry_parent_sound_witness :
  ancestry 20 collatz Int64 (init 7) 1 = Some (9, 2) /\
  ((9 = 0 /\ 2 = 1) \/
   exists t, 0 <= t /\ connection collatz Int64 9 = 7 * 2 ^ t /\
             (Int64 = Mpz -> 3 * 9 + 1 = 7 * 2 ^ t)).
Proof.
  split; [vm_compute; reflexivity |].
  apply (ancestry_parent_sound Int64 (init 7) 20 1 9 2).
  - discriminate.
  - vm_compute. reflexivity.
Defined.

Lemma odd_part_unique (a b k t : Z) :
  Z.rem a 2 <> 0 -> Z.rem b 2 <> 0 -> 0 <= k -> 0 <= t ->
  a * 2 ^ k = b * 2 ^ t -> a = b.
Proof.
  intros Ha Hb Hk Ht H.
  assert (Hgen : forall x y m n, Z.rem x 2 <> 0 -> 0 <= m -> m < n ->
                   x * 2 ^ m = y * 2 ^ n -> False).
  { intros x y m n Hx Hm Hmn E.
    replace n with (m + (n - m - 1) + 1) in E by lia.
    rewrite pow2_succ, Z.pow_add_r in E by lia.
    pose proof (Z.pow_pos_nonneg 2 m ltac:(lia) Hm) as Hp.
    assert (Ex : x = 2 * (y * 2 ^ (n - m - 1))).
    { apply (Z.mul_reg_r _ _ (2 ^ m)); [lia |]. rewrite E. ring. }
    remember (y * 2 ^ (n - m - 1)) as q. clear - Hx Ex. lia. }
  destruct (Z.lt_trichotomy k t) as [Hlt | [-> | Hgt]].
  - exfalso. exact (Hgen a b k t Ha Hk Hlt H).
  - pose proof (Z.pow_pos_nonneg 2 t ltac:(lia) Ht) as Hp.
    apply (Z.mul_reg_r _ _ (2 ^ t)); [lia | exact H].
  - exfalso. exact (Hgen b a t k Hb Ht Hgt (eq_sym H)).
Qed.

(** [term] on an odd value times a power of two gives the odd value back. *)
Lemma term_odd_multiple (cfg : statics) (d : domain) (s k : Z) :
  divisor cfg = 2 -> Z.rem s 2 <> 0 -> 0 <= k -> in_range d (s * 2 ^ k) ->
  exists f0 : nat, forall fuel, (f0 <= fuel)%nat ->
    exists c, term fuel cfg d (s * 2 ^ k) = Some (c, s).
Proof.
  intros HD Hodd Hk Hr.
  pose proof (Z.pow_pos_nonneg 2 k ltac:(lia) Hk) as Hp.
  assert (Hs : s <> 0) by (intros ->; apply Hodd; reflexivity).
  assert (Hi : s * 2 ^ k <> 0) by (clear - Hs Hp; nia).
  destruct (term_ends cfg d _ HD Hr) as [f0 H].
  exists f0. intros fuel Hf.
  destruct (H fuel Hf) as (c & r & Ht).
  exists c. rewrite Ht. do 2 f_equal.
  destruct (term_value cfg d fuel _ _ _ HD Hr Ht)
    as [[E _] | (_ & t & Ht0 & Hv & Ho)]; [contradiction |].
  symmetry. exact (odd_part_unique s r k t Hodd Ho Hk Ht0 Hv).
Qed.

(** The candidate parent at scale 1 or 2, computed without overflow. *)
Lemma candidate_parent (d : domain) (s k : Z) :
  room d s -> k = 1 \/ k = 2 ->
  Pdiv d (Psub d (Pmul d (Pmul d k s) (divisor collatz)) (addend collatz))
    (multiplier collatz)
  = Z.quot (2 * k * s - 1) 3
  /\ connection collatz d (Z.quot (2 * k * s - 1) 3)
     = 3 * Z.quot (2 * k * s - 1) 3 + 1
  /\ in_range d (3 * Z.quot (2 * k * s - 1) 3 + 1).
Proof.
  intros Hroom Hk.
  change (divisor collatz) with 2. change (addend collatz) with 1.
  change (multiplier collatz) with 3.
  unfold connection. unfold Pdiv, Psub, Pmul, Padd.
  change (multiplier collatz) with 3. change (addend collatz) with 1.
  destruct d; cbn [wrap in_range];
    [| split; [f_equal; ring | split; [ring | exact I]]].
  unfold room in Hroom.
  destruct Hk as [-> | ->].
  - rewrite (wrap64_id (1 * s)) by lia.
    rewrite (wrap64_id (1 * s * 2)) by lia.
    rewrite (wrap64_id (1 * s * 2 - 1)) by lia.
    replace (1 * s * 2 - 1) with (2 * 1 * s - 1) by lia.
    rewrite (wrap64_id (Z.quot (2 * 1 * s - 1) 3)) by (clear - Hroom; lia).
    rewrite (wrap64_id (Z.quot (2 * 1 * s - 1) 3 * 3))
      by (clear - Hroom; lia).
    rewrite wrap64_id by (clear - Hroom; lia).
    repeat split; clear - Hroom; lia.
  - rewrite (wrap64_id (2 * s)) by lia.
    rewrite (wrap64_id (2 * s * 2)) by lia.
    rewrite (wrap64_id (2 * s * 2 - 1)) by lia.
    replace (2 * s * 2 - 1) with (2 * 2 * s - 1) by lia.
    rewrite (wrap64_id (Z.quot (2 * 2 * s - 1) 3)) by (clear - Hroom; lia).
    rewrite (wrap64_id (Z.quot (2 * 2 * s - 1) 3 * 3))
      by (clear - Hroom; lia).
    rewrite wrap64_id by (clear - Hroom; lia).
    repeat split; clear - Hroom; lia.
Qed.

Lemma room_in_range (d : domain) (s k : Z) :
  room d s -> 0 <= k <= 2 -> in_range d (s * 2 ^ k).
Proof.
  intros Hroom Hk. destruct d; [| exact I]. unfold room in Hroom.
  assert (Hc : k = 0 \/ k = 1 \/ k = 2) by lia.
  destruct Hc as [-> | [-> | ->]]; simpl; lia.
Qed.

(** The first probe fails when the start is 1 modulo 3 and is not 1. *)
Lemma first_probe_fails (s child t : Z) :
  Z.rem s 2 <> 0 -> s mod 3 = 1 -> s <> 1 -> 0 <= t ->
  3 * Z.quot (2 * 1 * s - 1) 3 + 1 = child * 2 ^ t -> s <> child.
Proof.
  intros Hodd Hm H1 Ht Hv <-.
  destruct (Z.eq_dec t 0) as [-> | Hne].
  - change (2 ^ 0) with 1 in Hv. clear - Hodd Hm H1 Hv. lia.
  - replace t with (t - 1 + 1) in Hv by lia.
    rewrite pow2_succ in Hv by lia.
    pose proof (Z.pow_pos_nonneg 2 (t - 1) ltac:(lia) ltac:(lia)) as Hp.
    remember (2 ^ (t - 1)) as P.
    assert (Hx : 3 * Z.quot (2 * 1 * s - 1) 3 + 1 = 2 * s - 1
                 \/ 3 * Z.quot (2 * 1 * s - 1) 3 + 1 = 2 * s + 2)
      by (clear - Hm; lia).
    clear - Hodd Hm H1 Hv Hp Hx. destruct Hx as [Hx | Hx]; nia.
Qed.

(** X18. Probing from scale 1, for an odd starting integer that is not a
    multiple of 3, is not 1, and leaves room for its fourfold: [ancestry]
    returns, given enough fuel, and the parent it finds is
    [(2 * start - 1) / 3] at scale 1 when the start is 2 modulo 3, and
    [(4 * start - 1) / 3] at scale 2 when it is 1 modulo 3. *)
Theorem ancestry_first_parent (d : domain) (p : t_path) :
  room d (start_int p) -> Z.rem (start_int p) 2 <> 0 ->
  start_int p mod 3 <> 0 -> start_int p <> 1 ->
  exists f0 : nat, forall fuel, (f0 <= fuel)%nat ->
    ancestry fuel collatz d p 1
    = Some (if start_int p mod 3 =? 2
            then ((2 * start_int p - 1) / 3, 1)
            else ((4 * start_int p - 1) / 3, 2)).
Proof.
  set (s := start_int p). intros Hroom Hodd H3 H1.
  assert (Hr : in_range d s).
  { destruct d; [| exact I]. unfold room in Hroom. simpl. lia. }
  assert (Hq2 : (s =? Pmul d (Pdiv d s (divisor collatz)) (divisor collatz))
                = false).
  { change (divisor collatz) with 2. unfold Pmul, Pdiv.
    rewrite (wrap_id d _ (in_range_quot2 d s Hr)).
    rewrite wrap_id
      by (destruct d; [simpl in Hr |- *; clear - Hr; lia | exact I]).
    apply Z.eqb_neq. clear - Hodd. lia. }
  assert (Hq3 : (s =? Pmul d (Pdiv d s (multiplier collatz))
                        (multiplier collatz)) = false).
  { change (multiplier collatz) with 3. unfold Pmul, Pdiv.
    rewrite (wrap_id d (Z.quot s 3))
      by (destruct d; [simpl in Hr |- *; clear - Hr; lia | exact I]).
    rewrite wrap_id
      by (destruct d; [simpl in Hr |- *; clear - Hr; lia | exact I]).
    apply Z.eqb_neq. clear - H3. lia. }
  destruct (candidate_parent d s 1 Hroom ltac:(left; reflexivity))
    as (Hp1 & Hc1 & Hr1).
  destruct (candidate_parent d s 2 Hroom ltac:(right; reflexivity))
    as (Hp2 & Hc2 & Hr2).
  destruct (Z.eqb_spec (s mod 3) 2) as [Hm2 | Hm2].
  - assert (Hx : 3 * Z.quot (2 * 1 * s - 1) 3 + 1 = s * 2 ^ 1)
      by (clear - Hm2; lia).
    destruct (term_odd_multiple collatz d s 1 eq_refl Hodd ltac:(lia)
                (room_in_range d s 1 Hroom ltac:(lia))) as [f0 Hf0].
    exists (S f0). intros fuel Hf.
    destruct fuel as [| f]; [lia |].
    unfold ancestry. fold s. rewrite Hq2, Hq3.
    cbn [ancestry_loop]. rewrite Hp1, Hc1, Hx.
    destruct (Hf0 f ltac:(lia)) as [c ->].
    rewrite Z.eqb_refl. do 2 f_equal. clear - Hm2. lia.
  - assert (Hm1 : s mod 3 = 1) by (clear - H3 Hm2; lia).
    assert (Hx : 3 * Z.quot (2 * 2 * s - 1) 3 + 1 = s * 2 ^ 2)
      by (clear - Hm1; lia).
    destruct (term_odd_multiple collatz d s 2 eq_refl Hodd ltac:(lia)
                (room_in_range d s 2 Hroom ltac:(lia))) as [f2 Hf2].
    destruct (term_ends collatz d _ eq_refl Hr1) as [f1 Hf1].
    exists (S (S (f1 + f2))). intros fuel Hf.
    destruct fuel as [| [| f]]; [lia | lia |].
    unfold ancestry. fold s. rewrite Hq2, Hq3.
    cbn [ancestry_loop]. rewrite Hp1, Hc1.
    destruct (Hf1 (S f) ltac:(lia)) as (c & child & Ht).
    rewrite Ht.
    assert (Hne : s <> child).
    { destruct (term_value collatz d _ _ _ _ eq_refl Hr1 Ht)
        as [[_ ->] | (_ & t & Ht0 & Hv & _)].
      - intros E. apply Hodd. rewrite E. reflexivity.
      - exact (first_probe_fails s child t Hodd Hm1 H1 Ht0 Hv). }
    destruct (Z.eqb_spec s child) as [E | _]; [contradiction |].
    change (wrap64 (1 + 1)) with 2.
    rewrite Hp2, Hc2, Hx.
    destruct (Hf2 f ltac:(lia)) as [c2 ->].
    rewrite Z.eqb_refl. do 2 f_equal. clear - Hm1. lia.
Qed.

(** The parents of 5 (2 modulo 3) and of 7 (1 modulo 3). *)
Lemma ancestry_first_parent_witness :
  exists f0 : nat, forall fuel, (f0 <= fuel)%nat ->
    ancestry fuel collatz Int64 (init 5) 1 = Some (3, 1).
Proof.
  destruct (ancestry_first_parent Int64 (init 5)) as [f0 H].
  - simpl. lia.
  - discriminate.
  - discriminate.
  - discriminate.
  - exists f0. intros fuel Hf. rewrite (H fuel Hf). reflexivity.
Defined.

(** ** Checked arithmetic *)

(** X19. On 64-bit operands [safe_arith::add] and [safe_arith::sub] return
    the exact sum or difference when it is representable, and throw
    otherwise: they never return a wrapped result, and never throw on a
    result that fits. With arbitrary precision they always return. *)
Theorem safe_add_sub_exact (a b : Z) :
  in_range Int64 a -> in_range Int64 b ->
  safe_add Int64 a b
  = (if (int64_min <=? a + b) && (a + b <=? int64_max)
     then Some (a + b) else None)
  /\ safe_sub Int64 a b
     = (if (int64_min <=? a - b) && (a - b <=? int64_max)
        then Some (a - b) else None)
  /\ safe_add Mpz a b = Some (a + b) /\ safe_sub Mpz a b = Some (a - b).
Proof.
  unfold in_range, safe_add, safe_sub, int64_max, int64_min.
  intros Ha Hb.
  split; [| split; [| split; reflexivity]].
  - destruct (Z.gtb_spec b 0) as [Hp | Hp];
      destruct (Z.ltb_spec b 0) as [Hn | Hn]; try lia; cbn [andb orb].
    + rewrite (wrap64_id (2 ^ 63 - 1 - b)) by lia.
      destruct (Z.gtb_spec a (2 ^ 63 - 1 - b)),
        (Z.leb_spec (- 2 ^ 63) (a + b)), (Z.leb_spec (a + b) (2 ^ 63 - 1));
        cbn [andb]; try lia; try reflexivity.
      rewrite wrap64_id by lia. reflexivity.
    + rewrite (wrap64_id (- 2 ^ 63 - b)) by lia.
      destruct (Z.ltb_spec a (- 2 ^ 63 - b)),
        (Z.leb_spec (- 2 ^ 63) (a + b)), (Z.leb_spec (a + b) (2 ^ 63 - 1));
        cbn [andb]; try lia; try reflexivity.
      rewrite wrap64_id by lia. reflexivity.
    + destruct (Z.leb_spec (- 2 ^ 63) (a + b)),
        (Z.leb_spec (a + b) (2 ^ 63 - 1)); cbn [andb]; try lia.
      rewrite wrap64_id by lia. reflexivity.
  - destruct (Z.gtb_spec b 0) as [Hp | Hp];
      destruct (Z.ltb_spec b 0) as [Hn | Hn]; try lia; cbn [andb orb].
    + rewrite (wrap64_id (- 2 ^ 63 + b)) by lia.
      destruct (Z.ltb_spec a (- 2 ^ 63 + b)),
        (Z.leb_spec (- 2 ^ 63) (a - b)), (Z.leb_spec (a - b) (2 ^ 63 - 1));
        cbn [andb]; try lia; try reflexivity.
      rewrite wrap64_id by lia. reflexivity.
    + rewrite (wrap64_id (2 ^ 63 - 1 + b)) by lia.
      destruct (Z.gtb_spec a (2 ^ 63 - 1 + b)),
        (Z.leb_spec (- 2 ^ 63) (a - b)), (Z.leb_spec (a - b) (2 ^ 63 - 1));
        cbn [andb]; try lia; try reflexivity.
      rewrite wrap64_id by lia. reflexivity.
    + destruct (Z.leb_spec (- 2 ^ 63) (a - b)),
        (Z.leb_spec (a - b) (2 ^ 63 - 1)); cbn [andb]; try lia.
      rewrite wrap64_id by lia. reflexivity.
Qed.

(** The largest value plus 1 throws; 5 - 7 is -2. *)
Lemma safe_add_sub_exact_witness :
  safe_add Int64 int64_max 1 = None /\ safe_sub Int64 5 7 = Some (-2).
Proof.
  split.
  - rewrite (proj1 (safe_add_sub_exact int64_max 1
                      ltac:(vm_compute; split; [discriminate | reflexivity])
                      ltac:(simpl; lia))).
    reflexivity.
  - rewrite (proj1 (proj2 (safe_add_sub_exact 5 7 ltac:(simpl; lia)
                             ltac:(simpl; lia)))).
    reflexivity.
Defined.

(** X20. [safe_arith::mul] on 64-bit operands: with a first operand of 0 the
    result is 0; with a positive first operand the exact product is
    returned when it is representable and the call throws otherwise; with a
    first operand below -1 the call throws whatever the second operand is,
    even when the product fits (as for -2 times 3, or times 0). *)
Theorem safe_mul_cases (a b : Z) :
  in_range Int64 a -> in_range Int64 b ->
  (a = 0 -> safe_mul Int64 a b = Some 0) /\
  (0 < a ->
   safe_mul Int64 a b
   = (if (int64_min <=? a * b) && (a * b <=? int64_max)
      then Some (a * b) else None)) /\
  (a < -1 -> safe_mul Int64 a b = None).
Proof.
  unfold in_range, safe_mul, int64_max, int64_min.
  intros Ha Hb. split; [| split].
  - intros ->. reflexivity.
  - intros Hpos.
    destruct (Z.eqb_spec a 0) as [E | _]; [lia |]. cbn [negb andb].
    assert (Hq1 : Z.quot (2 ^ 63 - 1) a = (2 ^ 63 - 1) / a)
      by (apply Z.quot_div_nonneg; lia).
    assert (Hq2 : Z.quot (- 2 ^ 63) a = - (2 ^ 63 / a)).
    { rewrite Z.quot_opp_l by lia. f_equal. apply Z.quot_div_nonneg; lia. }
    pose proof (Z.div_pos (2 ^ 63 - 1) a ltac:(lia) Hpos) as Hd1.
    pose proof (Z.div_pos (2 ^ 63) a ltac:(lia) Hpos) as Hd2.
    pose proof (Z.div_le_upper_bound (2 ^ 63 - 1) a (2 ^ 63 - 1) Hpos
                  ltac:(nia)) as Hu1.
    pose proof (Z.div_le_upper_bound (2 ^ 63) a (2 ^ 63) Hpos
                  ltac:(nia)) as Hu2.
    pose proof (Z.mul_div_le (2 ^ 63 - 1) a Hpos) as Hm1.
    pose proof (Z.mul_succ_div_gt (2 ^ 63 - 1) a Hpos) as Hs1.
    pose proof (Z.mul_div_le (2 ^ 63) a Hpos) as Hm2.
    pose proof (Z.mul_succ_div_gt (2 ^ 63) a Hpos) as Hs2.
    rewrite Hq1, Hq2.
    remember ((2 ^ 63 - 1) / a) as q1. remember (2 ^ 63 / a) as q2.
    rewrite (wrap64_id q1), (wrap64_id (- q2)) by lia.
    clear Heqq1 Heqq2 Hq1 Hq2.
    destruct (Z.gtb_spec b q1) as [G1 | G1];
      destruct (Z.ltb_spec b (- q2)) as [G2 | G2];
      destruct (Z.leb_spec (- 2 ^ 63) (a * b)) as [L1 | L1];
      destruct (Z.leb_spec (a * b) (2 ^ 63 - 1)) as [L2 | L2];
      cbn [andb orb]; try reflexivity; try (exfalso; nia).
    rewrite wrap64_id by lia. reflexivity.
  - intros Hneg.
    destruct (Z.eqb_spec a 0) as [E | _]; [lia |]. cbn [negb andb].
    assert (Hq1 : Z.quot (2 ^ 63 - 1) a = - ((2 ^ 63 - 1) / (- a))).
    { rewrite <- (Z.opp_involutive a) at 1.
      rewrite Z.quot_opp_r by lia. f_equal.
      apply Z.quot_div_nonneg; lia. }
    assert (Hq2 : Z.quot (- 2 ^ 63) a = 2 ^ 63 / (- a)).
    { rewrite <- (Z.opp_involutive a) at 1.
      rewrite Z.quot_opp_opp by lia. apply Z.quot_div_nonneg; lia. }
    pose proof (Z.div_pos (2 ^ 63 - 1) (- a) ltac:(lia) ltac:(lia)) as Hd1.
    pose proof (Z.div_str_pos (2 ^ 63) (- a) ltac:(lia)) as Hd2.
    pose proof (Z.div_le_upper_bound (2 ^ 63 - 1) (- a) (2 ^ 63 - 1)
                  ltac:(lia) ltac:(nia)) as Hu1.
    pose proof (Z.div_le_upper_bound (2 ^ 63) (- a) (2 ^ 62)
                  ltac:(lia) ltac:(nia)) as Hu2.
    rewrite Hq1, Hq2.
    remember ((2 ^ 63 - 1) / (- a)) as q1. remember (2 ^ 63 / (- a)) as q2.
    rewrite (wrap64_id (- q1)), (wrap64_id q2) by lia.
    destruct (Z.gtb_spec b (- q1)) as [G1 | G1];
      destruct (Z.ltb_spec b q2) as [G2 | G2];
      cbn [orb]; try reflexivity.
    lia.
Qed.

(** 3 times 4 is 12; -2 times 3 throws. *)
Lemma safe_mul_cases_witness :
  safe_mul Int64 3 4 = Some 12 /\ safe_mul Int64 (-2) 3 = None.
Proof.
  split.
  - rewrite (proj1 (proj2 (safe_mul_cases 3 4 ltac:(simpl; lia)
                             ltac:(simpl; lia))) ltac:(lia)).
    reflexivity.
  - apply (proj2 (proj2 (safe_mul_cases (-2) 3 ltac:(simpl; lia)
                           ltac:(simpl; lia)))).
    lia.
Defined.

(** ** Decimal digits and scan ranges *)






Lemma find_range_loop_result (n : nat) :
  forall (range : Z),
    0 <= range -> range * 2 ^ Z.of_nat n < 2 ^ 63 ->
    find_range_loop n collatz range = range * 2 ^ Z.of_nat n.
Proof.
  induction n as [| n IH]; intros range H0 Hb.
  - cbn [find_range_loop]. change (2 ^ Z.of_nat 0) with 1. lia.
  - cbn [find_range_loop]. change (divisor collatz) with 2.
    rewrite Nat2Z.inj_succ, Z.pow_succ_r in Hb |- * by lia.
    pose proof (Z.pow_pos_nonneg 2 (Z.of_nat n) ltac:(lia) ltac:(lia)) as Hp.
    assert (Hr : range * 2 < 2 ^ 63) by (clear - H0 Hb Hp; nia).
    rewrite wrap64_id by lia.
    rewrite IH by (clear - H0 Hb Hp; nia). ring.
Qed.

(** X22. [find_range] gives the modulus of the classes of a length: 0 for a
    length that is not positive, and [3 * 2 ^ digits] for a length between
    1 and 61, for which nothing overflows. *)
Theorem find_range_modulus (digits : Z) :
  digits <= 61 ->
  find_range collatz digits = if digits >? 0 then 3 * 2 ^ digits else 0.
Proof.
  intros Hd. unfold find_range. change (multiplier collatz) with 3.
  destruct (Z.gtb_spec digits 0) as [Hp | Hp].
  - rewrite find_range_loop_result.
    + rewrite Z2Nat.id by lia. reflexivity.
    + lia.
    + rewrite Z2Nat.id by lia.
      apply Z.le_lt_trans with (3 * 2 ^ 61); [| reflexivity].
      apply Z.mul_le_mono_nonneg_l; [lia |].
      apply Z.pow_le_mono_r; lia.
  - replace (Z.to_nat digits) with 0%nat by lia. reflexivity.
Qed.

(** The classes of length 5 repeat with period 96. *)
Lemma find_range_modulus_witness : find_range collatz 5 = 96.
Proof.
  rewrite (find_range_modulus 5 ltac:(lia)). reflexivity.
Defined.

(** ** The number of nodes *)

Section FrequencyTreeSize.
Import BTree.

(** X23. After any run of insertions into an empty tree (fewer than 2^63),
    [nodes()] is the number of distinct keys among them, and the tree is
    empty exactly when nothing was inserted. *)
Theorem nodes_counts_distinct_keys (ks : list Z) :
  Z.of_nat (length ks) < 2 ^ 63 ->
  nodes (insert_all ks) = Z.of_nat (length (nodup Z.eq_dec ks)) /\
  (root (insert_all ks) = Null <-> ks = []).
Proof.
  intros Hb.
  destruct (tree_inv_insert_all ks Hb) as (B & P & T & C & K).
  pose proof (bst_nodup _ B) as Hnd.
  pose proof (NoDup_nodup Z.eq_dec ks) as Hnd'.
  assert (Hlen : length (tree_keys (root (insert_all ks)))
                 = length (nodup Z.eq_dec ks)).
  { apply Nat.le_antisymm; apply NoDup_incl_length; try assumption.
    - intros x Hx. apply nodup_In. apply K. exact Hx.
    - intros x Hx. apply K. apply nodup_In in Hx. exact Hx. }
  split.
  - unfold nodes. rewrite C, Hlen.
    pose proof (keys_le_total _ P) as Hle. rewrite Hlen in Hle.
    apply wrap64_id. lia.
  - split.
    + intros E. rewrite E in K. simpl in K.
      destruct ks as [| k ks]; [reflexivity |].
      exfalso. apply (K k). left. reflexivity.
    + intros ->. reflexivity.
Qed.

(** Six insertions of three distinct keys. *)
Lemma nodes_counts_distinct_keys_witness :
  nodes (insert_all [3; 1; 3; 5; 1; 3]) = 3.
Proof.
  rewrite (proj1 (nodes_counts_distinct_keys [3; 1; 3; 5; 1; 3]
                    ltac:(simpl; lia))).
  reflexivity.
Defined.

End FrequencyTreeSize.

(** ** What a path object records of its start *)

Ltac path_fields :=
  cbn [outcome_path start_int int_sign max_int set_error_mask set_orb
       set_path_factors set_max_int set_ec_len set_ec_factors
       set_next_factors init].

Lemma loop_body_records (cfg : statics) (d : domain) (f : nat)
  (start mf : Z) (p : t_path) (cur : Z) (o : outcome) :
  loop_body f cfg d start mf p cur = Some o ->
  start_int (outcome_path o) = start_int p /\
  int_sign (outcome_path o) = int_sign p /\
  max_int p <= max_int (outcome_path o).
Proof.
  unfold loop_body. intros H.
  destruct (negb (sign p =? sgn (connection cfg d cur))).
  - injection H as <-. path_fields. repeat split; lia.
  - destruct (factor f cfg d (connection cfg d cur) start)
      as [[leg cur'] |]; [| discriminate].
    remember (connection cfg d cur) as conn.
    destruct (Z.gtb_spec conn (max_int p)) as [G | G];
      cbv beta iota zeta in H;
      repeat match type of H with
             | context [if ?c then _ else _] => destruct c
             end;
      injection H as <-; path_fields; repeat split; lia.
Qed.

(** What [setpath] keeps of its start. *)
Lemma setpath_fields (cfg : statics) (d : domain) (fuel : nat)
  (start mf : Z) (p : t_path) :
  setpath fuel cfg d start mf = Some p ->
  start_int p = start /\ sign p = sgn start /\ start <= max_int p.
Proof.
  unfold setpath, sign. intros H.
  destruct (Prem d start (divisor cfg) =? 0).
  - destruct (finish_fields _ _ _ _ _ _ _ H)
      as (_ & _ & Hmax & _ & Hst & Hsg & _).
    rewrite Hmax, Hst, Hsg. path_fields. repeat split; lia.
  - destruct (do_while fuel cfg d start mf _ start) as [o |] eqn:Hdw;
      [| discriminate].
    set (Inv := fun (q : t_path) (cur : Z) =>
                  start_int q = start /\ int_sign q = sgn start /\
                  start <= max_int q).
    assert (Hstep : forall f q cur o',
               Inv q cur -> loop_body f cfg d start mf q cur = Some o' ->
               match o' with
               | Again q' cur' => Inv q' cur'
               | _ => Inv (outcome_path o') 0
               end).
    { intros f q cur o' (H1 & H2 & H3) Hb.
      destruct (loop_body_records _ _ _ _ _ _ _ _ Hb) as (E1 & E2 & E3).
      destruct o'; cbn [outcome_path] in *; repeat split; lia || congruence. }
    assert (HI0 : Inv (set_orb (set_max_int (init start) start)
                         (append cfg true 0
                            (orb (set_max_int (init start) start)))) start)
      by (unfold Inv; path_fields; repeat split; lia).
    destruct (do_while_invariant cfg d start mf Inv
                (fun o => Inv (outcome_path o) 0) Hstep fuel _ start o
                HI0 Hdw) as [HQ _].
    destruct o as [q cur | q cur | q]; [discriminate | |].
    + destruct (finish_fields _ _ _ _ _ _ _ H)
        as (_ & _ & Hmax & _ & Hst & Hsg & _).
      rewrite Hmax, Hst, Hsg. exact HQ.
    + injection H as <-. exact HQ.
Qed.

(** X24. Every path object that [setpath] returns, in either domain and
    with any constants, records the starting integer and its sign, and a
    maximum that is not below the starting integer. *)
Theorem setpath_records_start (cfg : statics) (d : domain) (fuel : nat)
  (start mf : Z) (p : t_path) :
  setpath fuel cfg d start mf = Some p ->
  start_int p = start /\ sign p = sgn start /\ start <= max_int p.
Proof.
  exact (setpath_fields cfg d fuel start mf p).
Qed.

(** The path of 27 records 27, the sign 1 and the maximum 214. *)
Lemma setpath_records_start_witness :
  exists p, setpath 200 collatz Int64 27 0 = Some p /\
            start_int p = 27 /\ sign p = 1 /\ 27 <= max_int p.
Proof.
  eexists. split; [vm_compute; reflexivity |].
  apply (setpath_records_start collatz Int64 200 27 0).
  vm_compute. reflexivity.
Defined.

(** X25. A path object built from the class string that [flow( k )] wrote
    for another one starts from the remainder of that one's starting
    integer by [3 * 2 ^ k], and has the class length [k]. *)
Theorem path_of_class_of_flow (d : domain) (fuel : nat) (p q : t_path)
  (k : Z) :
  in_range d (start_int p) -> int_sign p = sgn (start_int p) ->
  1 <= k < 2 ^ 31 -> readable d k ->
  path_of_class fuel collatz d (flow collatz d p k) = Some q ->
  start_int q = Z.rem (start_int p) (3 * 2 ^ k) /\ classLength q = k.
Proof.
  intros Hr Hs Hk Hfit. unfold path_of_class.
  rewrite (parse_flow_value d p k Hr Hs ltac:(lia) Hfit).
  rewrite (flow_class_length d p k Hr ltac:(lia)).
  destruct (setpath fuel collatz d _ 0) as [q0 |] eqn:Hset; [| discriminate].
  intros H. injection H as <-.
  destruct (setpath_fields _ _ _ _ _ _ Hset) as (Hst & _ & _).
  unfold classLength. path_fields. cbn [ec_len].
  split; [exact Hst | apply wrap32_id; lia].
Qed.

(** The class "+51100" of 23, read back into a path object. *)
Lemma path_of_class_of_flow_witness :
  exists q, path_of_class 200 collatz Int64
              (flow collatz Int64 (init 23) 5) = Some q /\
            start_int q = 23 /\ classLength q = 5.
Proof.
  eexists. split; [vm_compute; reflexivity |].
  destruct (path_of_class_of_flow Int64 200 (init 23) _ 5
              ltac:(simpl; lia) ltac:(reflexivity) ltac:(lia)
              ltac:(simpl; lia) ltac:(vm_compute; reflexivity))
    as [H1 H2].
  split; [rewrite H1; reflexivity | exact H2].
Defined.
